(** * A store-passing embedding of [chess.py]

    The engine of [chess.py] is the class [Board]: an 8x8 grid held as a
    Python list of row lists, the side to move, a dictionary of four
    castling rights and an optional en-passant square.  [make_move]
    mutates these objects in place and [legal_moves] runs it on clones,
    so objects live in an explicit store and are named by references:
    read-only methods are functions of the store, mutating methods
    return the new store, and a Python exception is a [Raise] result.

    The first part embeds the class method by method. The second part
    proves what [make_move] does to the castling rights, to the
    en-passant target and to the grid, what [generate_pseudo] emits for
    a pawn that promotes, and that [legal_moves] only adds clones to the
    store; it evaluates the engine on the initial position and on four
    short games, three of which show that the pawn clause of
    [is_attacked] looks for the pawn on the wrong side of the square. *)

From Stdlib Require Import ZArith Lia.
From stdpp Require Import base list numbers option.

Local Open Scope Z_scope.

(** ** Cells, moves *)

(** [WHITE, BLACK = "w", "b"] *)
Inductive Color := WHITE | BLACK.

(** The piece letters ["K"], ["Q"], ["R"], ["B"], ["N"], ["P"]. *)
Inductive Kind := King | Queen | Rook | Bishop | Knight | Pawn.

(** A cell of the grid is the string ["."] or a pair [(color, kind)]. *)
Inductive cell := Empty | Piece (c : Color) (k : Kind).

#[global] Instance Color_eq_dec : EqDecision Color.
Proof. solve_decision. Defined.
#[global] Instance Kind_eq_dec : EqDecision Kind.
Proof. solve_decision. Defined.
#[global] Instance cell_eq_dec : EqDecision cell.
Proof. solve_decision. Defined.

Definition square : Type := Z * Z.

(** The dataclass [Move]. *)
Record Move := mkMove {
  fr : square;
  to : square;
  promotion : option Kind;
  is_castle : bool;
  is_en_passant : bool
}.

#[global] Instance Move_eq_dec : EqDecision Move.
Proof. solve_decision. Defined.

(** [Move(a, b)] with the defaults of the dataclass. *)
Definition plain (a b : square) : Move := mkMove a b None false false.

(** [WHITE if color==BLACK else BLACK] *)
Definition other (color : Color) : Color :=
  if decide (color = BLACK) then WHITE else BLACK.

(** [def in_bounds(r, c): return 0 <= r < 8 and 0 <= c < 8] *)
Definition in_bounds (r c : Z) : bool :=
  (0 <=? r) && (r <? 8) && (0 <=? c) && (c <? 8).

(** ** The store *)

Abbreviation loc := nat.

(** The keys of the dictionary [castling]. *)
Inductive ckey := wK | wQ | bK | bQ.

#[global] Instance ckey_eq_dec : EqDecision ckey.
Proof. solve_decision. Defined.

(** The attributes of a [Board] object: [board] and [castling] hold
    references, [turn] and [en_passant] hold immutable values. *)
Record BoardObj := mkBoard {
  board : loc;
  turn : Color;
  castling : loc;
  en_passant : option square
}.

(** The dictionary [{"wK": .., "wQ": .., "bK": .., "bQ": ..}]: its four
    keys are fixed, only the values are ever assigned. *)
Record Castling := mkCastling {
  c_wK : bool; c_wQ : bool; c_bK : bool; c_bQ : bool
}.

Definition dict_get (d : Castling) (k : ckey) : bool :=
  match k with wK => c_wK d | wQ => c_wQ d | bK => c_bK d | bQ => c_bQ d end.

Definition dict_set (d : Castling) (k : ckey) (v : bool) : Castling :=
  match k with
  | wK => mkCastling v (c_wQ d) (c_bK d) (c_bQ d)
  | wQ => mkCastling (c_wK d) v (c_bK d) (c_bQ d)
  | bK => mkCastling (c_wK d) (c_wQ d) v (c_bQ d)
  | bQ => mkCastling (c_wK d) (c_wQ d) (c_bK d) v
  end.

(** What a reference can point to: a row (a list of cells), the outer
    list of the grid (a list of references to rows), a castling
    dictionary, or a [Board] object. *)
Inductive obj :=
| ORow (cells : list cell)
| OGrid (rows : list loc)
| ODict (d : Castling)
| OBoard (b : BoardObj).

Abbreviation heap := (list obj).

(** Python exceptions that the engine can raise; [Diverged] is not one
    of them: it marks a [while] loop of the model that used up its
    iteration bound [ray_bound]. On a well-formed board this does not
    happen ([returns_attack_ray], [returns_slide]). *)
Inductive exn := IndexError | TypeError | ValueError | Diverged.

Inductive result (A : Type) := Ok (a : A) | Raise (e : exn).
Arguments Ok {A} a.
Arguments Raise {A} e.

(** Read-only computations and mutating computations. A mutating
    computation returns the store also when it raises: what had been
    written before the exception stays written. *)
Definition rd (A : Type) : Type := heap → result A.
Definition st (A : Type) : Type := heap → result A * heap.

#[global] Instance rd_ret : MRet rd := λ A a _, Ok a.
#[global] Instance rd_bind : MBind rd := λ A B f m h,
  match m h with Ok a => f a h | Raise e => Raise e end.
#[global] Instance st_ret : MRet st := λ A a h, (Ok a, h).
#[global] Instance st_bind : MBind st := λ A B f m h,
  match m h with (Ok a, h') => f a h' | (Raise e, h') => (Raise e, h') end.

Definition raise_rd {A} (e : exn) : rd A := λ _, Raise e.
Definition raise_st {A} (e : exn) : st A := λ h, (Raise e, h).

(** A read-only computation used inside a mutating one. *)
Definition read {A} (m : rd A) : st A := λ h, (m h, h).

(** A pure partial result used inside a read-only computation. *)
Definition lift {A} (x : result A) : rd A := λ _, x.

Definition alloc (o : obj) : st loc := λ h, (Ok (length h), h ++ [o]).
Definition store (l : loc) (o : obj) : st unit := λ h, (Ok tt, <[l := o]> h).

Definition as_row (l : loc) : rd (list cell) := λ h,
  match h !! l with Some (ORow cells) => Ok cells | _ => Raise TypeError end.
Definition as_grid (l : loc) : rd (list loc) := λ h,
  match h !! l with Some (OGrid rows) => Ok rows | _ => Raise TypeError end.
Definition as_dict (l : loc) : rd Castling := λ h,
  match h !! l with Some (ODict d) => Ok d | _ => Raise TypeError end.
Definition as_board (l : loc) : rd BoardObj := λ h,
  match h !! l with Some (OBoard b) => Ok b | _ => Raise TypeError end.

(** ** Python lists *)

(** The position that index [i] names in a list of length [n]: a
    negative index counts from the end, anything outside [-n, n) is an
    [IndexError]. *)
Definition py_index (n : nat) (i : Z) : option nat :=
  if (0 <=? i) && (i <? Z.of_nat n) then Some (Z.to_nat i)
  else if (- Z.of_nat n <=? i) && (i <? 0) then Some (Z.to_nat (Z.of_nat n + i))
  else None.

(** [l[i]] *)
Definition py_getitem {A} (l : list A) (i : Z) : result A :=
  match py_index (length l) i with
  | Some k => match l !! k with Some x => Ok x | None => Raise IndexError end
  | None => Raise IndexError
  end.

(** [l[i] = v] *)
Definition py_setitem {A} (l : list A) (i : Z) (v : A) : result (list A) :=
  match py_index (length l) i with
  | Some k => Ok (<[k := v]> l)
  | None => Raise IndexError
  end.

(** ** Attribute and item access on a [Board] *)

(** [self.board[r][c]] *)
Definition get_cell (self : loc) (r c : Z) : rd cell :=
  b ← as_board self;
  rows ← as_grid (board b);
  l ← lift (py_getitem rows r);
  cells ← as_row l;
  lift (py_getitem cells c).

(** [self.board[r][c] = v] *)
Definition set_cell (self : loc) (r c : Z) (v : cell) : st unit :=
  b ← read (as_board self);
  rows ← read (as_grid (board b));
  l ← read (lift (py_getitem rows r));
  cells ← read (as_row l);
  cells' ← read (lift (py_setitem cells c v));
  store l (ORow cells').

(** [self.castling[k]] *)
Definition get_castling (self : loc) (k : ckey) : rd bool :=
  b ← as_board self;
  d ← as_dict (castling b);
  mret (dict_get d k).

(** [self.castling[k] = v] *)
Definition set_castling (self : loc) (k : ckey) (v : bool) : st unit :=
  b ← read (as_board self);
  d ← read (as_dict (castling b));
  store (castling b) (ODict (dict_set d k v)).

(** [self.en_passant] and [self.turn] *)
Definition get_en_passant (self : loc) : rd (option square) :=
  b ← as_board self; mret (en_passant b).
Definition get_turn (self : loc) : rd Color :=
  b ← as_board self; mret (turn b).

(** [self.en_passant = v], [self.turn = v], [self.board = g],
    [self.castling = d] *)
Definition set_en_passant (self : loc) (v : option square) : st unit :=
  b ← read (as_board self);
  store self (OBoard (mkBoard (board b) (turn b) (castling b) v)).
Definition set_turn (self : loc) (v : Color) : st unit :=
  b ← read (as_board self);
  store self (OBoard (mkBoard (board b) v (castling b) (en_passant b))).
Definition set_board (self : loc) (g : loc) : st unit :=
  b ← read (as_board self);
  store self (OBoard (mkBoard g (turn b) (castling b) (en_passant b))).
Definition set_castling_ref (self : loc) (d : loc) : st unit :=
  b ← read (as_board self);
  store self (OBoard (mkBoard (board b) (turn b) d (en_passant b))).

(** ** Loops *)

(** [range(8)] *)
Definition range8 : list Z := [0; 1; 2; 3; 4; 5; 6; 7].

(** A [for] loop whose body may [return True]; falling out of the loop
    is [false]. *)
Fixpoint any_rd {A} (f : A → rd bool) (l : list A) : rd bool :=
  match l with
  | [] => mret false
  | x :: l => b ← f x; if b : bool then mret true else any_rd f l
  end.

(** A [for] loop whose body may [return] a value; falling out of the
    loop is [None]. *)
Fixpoint first_rd {A B} (f : A → rd (option B)) (l : list A) : rd (option B) :=
  match l with
  | [] => mret None
  | x :: l => o ← f x; match o with Some y => mret (Some y) | None => first_rd f l end
  end.

(** A [for] loop whose body appends to the local list [moves]: the
    body returns what it appends, in order. *)
Fixpoint collect_rd {A B} (f : A → rd (list B)) (l : list A) : rd (list B) :=
  match l with
  | [] => mret []
  | x :: l => ys ← f x; zs ← collect_rd f l; mret (ys ++ zs)
  end.

(** Every [while in_bounds(rr,cc)] loop of the engine steps [(rr,cc)]
    by a unit direction, so its body runs at most 8 times. *)
Definition ray_bound : nat := 8.

(** ** The methods of [Board] that only read *)

(** [piece]: [None if v == "." else v] *)
Definition piece (self : loc) (r c : Z) : rd (option (Color * Kind)) :=
  v ← get_cell self r c;
  mret (match v with Empty => None | Piece col k => Some (col, k) end).

(** [color_at]: [v[0] if v else None] *)
Definition color_at (self : loc) (r c : Z) : rd (option Color) :=
  v ← piece self r c;
  mret (match v with Some (col, _) => Some col | None => None end).

(** [king_pos] *)
Definition king_pos (self : loc) (color : Color) : rd (option square) :=
  first_rd (λ r,
    first_rd (λ c,
      v ← get_cell self r c;
      mret (if bool_decide (v ≠ Empty) && bool_decide (v = Piece color King)
            then Some (r, c) else None))
    range8)
  range8.

Definition knight_offsets : list (Z * Z) :=
  [(-2,-1); (-2,1); (-1,-2); (-1,2); (1,-2); (1,2); (2,-1); (2,1)].
Definition diagonals : list (Z * Z) := [(-1,-1); (-1,1); (1,-1); (1,1)].
Definition orthogonals : list (Z * Z) := [(-1,0); (1,0); (0,-1); (0,1)].

(** [for dr in (-1,0,1): for dc in (-1,0,1): if dr==0 and dc==0: continue] *)
Definition king_offsets : list (Z * Z) :=
  [(-1,-1); (-1,0); (-1,1); (0,-1); (0,1); (1,-1); (1,0); (1,1)].

(** [in_bounds(rr,cc) and self.board[rr][cc] == v] *)
Definition holds (self : loc) (rr cc : Z) (v : cell) : rd bool :=
  if in_bounds rr cc then w ← get_cell self rr cc; mret (bool_decide (w = v))
  else mret false.

(** One ray of [is_attacked], from [(rr,cc)] in direction [(dr,dc)]:
    [true] is [return True], [false] is leaving the [while] loop, by
    [break] or at the edge. *)
Fixpoint attack_ray (n : nat) (self : loc) (by_color : Color) (k1 k2 : Kind)
    (rr cc dr dc : Z) : rd bool :=
  if in_bounds rr cc then
    match n with
    | O => raise_rd Diverged
    | S n =>
      v ← get_cell self rr cc;
      if bool_decide (v ≠ Empty) then
        mret (bool_decide (v = Piece by_color k1) || bool_decide (v = Piece by_color k2))
      else attack_ray n self by_color k1 k2 (rr + dr) (cc + dc) dr dc
    end
  else mret false.

(** The pawn clause of [is_attacked], its first [for] loop. *)
Definition pawn_clause (self : loc) (r c : Z) (by_color : Color) : rd bool :=
  let dr := if decide (by_color = WHITE) then -1 else 1 in
  any_rd (λ dc, holds self (r + dr) (c + dc) (Piece by_color Pawn)) [-1; 1].

(** [is_attacked] *)
Definition is_attacked (self : loc) (r c : Z) (by_color : Color) : rd bool :=
  a ← pawn_clause self r c by_color;
  if a : bool then mret true else
  a ← any_rd (λ '(dr, dc), holds self (r + dr) (c + dc) (Piece by_color Knight))
         knight_offsets;
  if a : bool then mret true else
  a ← any_rd (λ '(dr, dc),
         attack_ray ray_bound self by_color Bishop Queen (r + dr) (c + dc) dr dc)
         diagonals;
  if a : bool then mret true else
  a ← any_rd (λ '(dr, dc),
         attack_ray ray_bound self by_color Rook Queen (r + dr) (c + dc) dr dc)
         orthogonals;
  if a : bool then mret true else
  a ← any_rd (λ '(dr, dc), holds self (r + dr) (c + dc) (Piece by_color King))
         king_offsets;
  if a : bool then mret true else
  mret false.

(** [in_check]: unpacking the [None] of a board without that king is a
    [TypeError]. *)
Definition in_check (self : loc) (color : Color) : rd bool :=
  k ← king_pos self color;
  match k with
  | None => raise_rd TypeError
  | Some (kr, kc) => is_attacked self kr kc (other color)
  end.

(** [a and b], where [b] is only evaluated when [a] is true. *)
Definition and_rd (a b : rd bool) : rd bool :=
  x ← a; if x : bool then b else mret false.

(** [self.board[r][c] == "."] and [self.color_at(r,c) != color] *)
Definition is_empty (self : loc) (r c : Z) : rd bool :=
  v ← get_cell self r c; mret (bool_decide (v = Empty)).
Definition not_own (self : loc) (r c : Z) (color : Color) : rd bool :=
  col ← color_at self r c; mret (bool_decide (col ≠ Some color)).

(** [for promo in ["Q","R","B","N"]: moves.append(Move(a, b, promotion=promo))] *)
Definition promotions (a b : square) : list Move :=
  (λ promo, mkMove a b (Some promo) false false) <$> [Queen; Rook; Bishop; Knight].

(** [rr in (0,7)] *)
Definition last_row (rr : Z) : bool := (rr =? 0) || (rr =? 7).

(** The moves of the pawn of [color] on [(r,c)]. *)
Definition pawn_moves (self : loc) (color : Color) (r c : Z) : rd (list Move) :=
  let dir := if decide (color = WHITE) then -1 else 1 in
  let rr := r + dir in
  free ← and_rd (mret (in_bounds rr c)) (is_empty self rr c);
  pushes ←
    (if free : bool then
       let one := if last_row rr then promotions (r, c) (rr, c)
                  else [plain (r, c) (rr, c)] in
       let rr2 := r + 2 * dir in
       if (r =? 6) && bool_decide (color = WHITE)
          || (r =? 1) && bool_decide (color = BLACK) then
         e ← is_empty self rr2 c;
         mret (one ++ if e : bool then [plain (r, c) (rr2, c)] else [])
       else mret one
     else mret []);
  captures ← collect_rd (λ dc,
      let cc := c + dc in
      let rr := r + dir in
      hit ← and_rd (mret (in_bounds rr cc))
               (and_rd (e ← is_empty self rr cc; mret (negb e))
                       (not_own self rr cc color));
      mret (if hit : bool then
              if last_row rr then promotions (r, c) (rr, cc)
              else [plain (r, c) (rr, cc)]
            else []))
    [-1; 1];
  ep ← get_en_passant self;
  mret (pushes ++ captures ++
        match ep with
        | Some (er, ec) =>
          if (er =? r + dir) && (Z.abs (ec - c) =? 1)
          then [mkMove (r, c) (er, ec) None false true] else []
        | None => []
        end).

(** The moves of the knight of [color] on [(r,c)]. *)
Definition knight_moves (self : loc) (color : Color) (r c : Z) : rd (list Move) :=
  collect_rd (λ '(dr, dc),
      let rr := r + dr in
      let cc := c + dc in
      ok ← and_rd (mret (in_bounds rr cc)) (not_own self rr cc color);
      mret (if ok : bool then [plain (r, c) (rr, cc)] else []))
    knight_offsets.

(** One ray of a bishop, rook or queen of [color] on [(r,c)]. *)
Fixpoint slide (n : nat) (self : loc) (color : Color) (r c rr cc dr dc : Z)
    : rd (list Move) :=
  if in_bounds rr cc then
    match n with
    | O => raise_rd Diverged
    | S n =>
      e ← is_empty self rr cc;
      if e : bool then
        rest ← slide n self color r c (rr + dr) (cc + dc) dr dc;
        mret (plain (r, c) (rr, cc) :: rest)
      else
        ok ← not_own self rr cc color;
        mret (if ok : bool then [plain (r, c) (rr, cc)] else [])
    end
  else mret [].

(** The moves of the bishop, rook or queen [p] of [color] on [(r,c)]. *)
Definition slider_moves (self : loc) (color : Color) (p : Kind) (r c : Z)
    : rd (list Move) :=
  let dirs :=
    (if bool_decide (p = Bishop) || bool_decide (p = Queen) then diagonals else []) ++
    (if bool_decide (p = Rook) || bool_decide (p = Queen) then orthogonals else []) in
  collect_rd (λ '(dr, dc), slide ray_bound self color r c (r + dr) (c + dc) dr dc) dirs.

(** One castling test of [generate_pseudo]: the right [k], the squares
    [empties] of row [row] that must be free and the two squares [a1],
    [a2] that [by_color] must not attack; the move goes to column [dest]. *)
Definition castle (self : loc) (k : ckey) (row : Z) (empties : list Z)
    (a1 a2 dest : Z) (by_color : Color) : rd (list Move) :=
  ok ← and_rd (get_castling self k)
         (fold_right (λ cc rest, and_rd (is_empty self row cc) rest) (mret true) empties);
  if ok : bool then
    safe ← and_rd (x ← is_attacked self row a1 by_color; mret (negb x))
                  (x ← is_attacked self row a2 by_color; mret (negb x));
    mret (if safe : bool then [mkMove (row, 4) (row, dest) None true false] else [])
  else mret [].

(** The moves of the king of [color] on [(r,c)], castling included. *)
Definition king_moves (self : loc) (color : Color) (r c : Z) : rd (list Move) :=
  steps ← collect_rd (λ '(dr, dc),
      let rr := r + dr in
      let cc := c + dc in
      ok ← and_rd (mret (in_bounds rr cc)) (not_own self rr cc color);
      mret (if ok : bool then [plain (r, c) (rr, cc)] else []))
    king_offsets;
  chk ← in_check self color;
  castles ←
    (if chk : bool then mret []
     else if decide (color = WHITE) then
       ks ← castle self wK 7 [5; 6] 5 6 6 BLACK;
       qs ← castle self wQ 7 [1; 2; 3] 3 2 2 BLACK;
       mret (ks ++ qs)
     else
       ks ← castle self bK 0 [5; 6] 5 6 6 WHITE;
       qs ← castle self bQ 0 [1; 2; 3] 3 2 2 WHITE;
       mret (ks ++ qs));
  mret (steps ++ castles).

(** The body of the two [for] loops of [generate_pseudo]. *)
Definition moves_from (self : loc) (color : Color) (r c : Z) : rd (list Move) :=
  col ← color_at self r c;
  if bool_decide (col ≠ Some color) then mret [] else
  v ← get_cell self r c;
  match v with
  | Empty => raise_rd ValueError
  | Piece _ Pawn => pawn_moves self color r c
  | Piece _ Knight => knight_moves self color r c
  | Piece _ King => king_moves self color r c
  | Piece _ p => slider_moves self color p r c
  end.

(** [generate_pseudo] *)
Definition generate_pseudo (self : loc) (color : Color) : rd (list Move) :=
  collect_rd (λ r, collect_rd (λ c, moves_from self color r c) range8) range8.

(** ** The methods of [Board] that allocate or write *)

(** A [for] loop over [l] whose body writes. *)
Fixpoint for_st {A} (f : A → st unit) (l : list A) : st unit :=
  match l with
  | [] => mret tt
  | x :: l => f x;; for_st f l
  end.

(** A list comprehension whose element expression allocates. *)
Fixpoint map_st {A B} (f : A → st B) (l : list A) : st (list B) :=
  match l with
  | [] => mret []
  | x :: l => y ← f x; ys ← map_st f l; mret (y :: ys)
  end.

(** [if b: body] *)
Definition when (b : bool) (body : st unit) : st unit :=
  if b then body else mret tt.

(** [back = ["R","N","B","Q","K","B","N","R"]] with [enumerate] *)
Definition back : list (Z * Kind) :=
  [(0, Rook); (1, Knight); (2, Bishop); (3, Queen);
   (4, King); (5, Bishop); (6, Knight); (7, Rook)].

(** [_setup] *)
Definition _setup (self : loc) : st unit :=
  for_st (λ '(i, p),
      set_cell self 7 i (Piece WHITE p);;
      set_cell self 0 i (Piece BLACK p))
    back;;
  for_st (λ i,
      set_cell self 6 i (Piece WHITE Pawn);;
      set_cell self 1 i (Piece BLACK Pawn))
    range8.

(** [Board()]: [__init__] builds eight fresh rows of eight ["."], the
    outer list and the dictionary, and calls [_setup].  The object is
    entered in the store once its four attributes are known. *)
Definition Board_new : st loc :=
  rows ← map_st (λ _, alloc (ORow (replicate 8 Empty))) range8;
  g ← alloc (OGrid rows);
  d ← alloc (ODict (mkCastling true true true true));
  self ← alloc (OBoard (mkBoard g WHITE d None));
  _setup self;;
  mret self.

(** [clone]: [row[:]] and [self.castling.copy()] are fresh objects. *)
Definition clone (self : loc) : st loc :=
  b ← Board_new;
  src ← read (as_board self);
  rows ← read (as_grid (board src));
  rows' ← map_st (λ l, cells ← read (as_row l); alloc (ORow cells)) rows;
  g ← alloc (OGrid rows');
  set_board b g;;
  t ← read (get_turn self);
  set_turn b t;;
  src ← read (as_board self);
  d ← read (as_dict (castling src));
  d' ← alloc (ODict d);
  set_castling_ref b d';;
  ep ← read (get_en_passant self);
  set_en_passant b ep;;
  mret b.

(** [make_move]: unpacking the ["."] of an empty source square is a
    [ValueError]. *)
Definition make_move (self : loc) (mv : Move) : st unit :=
  let '(fr, fc) := fr mv in
  let '(tr, tc) := to mv in
  piece ← read (get_cell self fr fc);
  match piece with
  | Empty => raise_st ValueError
  | Piece color p =>
    dest ← read (get_cell self tr tc);
    let captured := bool_decide (dest ≠ Empty) in
    set_en_passant self None;;

    when (bool_decide (p = King))
      (if decide (color = WHITE)
       then set_castling self wK false;; set_castling self wQ false
       else set_castling self bK false;; set_castling self bQ false);;
    when (bool_decide (p = Rook))
      (when (bool_decide ((fr, fc) = (7, 0))) (set_castling self wQ false);;
       when (bool_decide ((fr, fc) = (7, 7))) (set_castling self wK false);;
       when (bool_decide ((fr, fc) = (0, 0))) (set_castling self bQ false);;
       when (bool_decide ((fr, fc) = (0, 7))) (set_castling self bK false));;
    when captured
      (when (bool_decide ((tr, tc) = (7, 0))) (set_castling self wQ false);;
       when (bool_decide ((tr, tc) = (7, 7))) (set_castling self wK false);;
       when (bool_decide ((tr, tc) = (0, 0))) (set_castling self bQ false);;
       when (bool_decide ((tr, tc) = (0, 7))) (set_castling self bK false));;

    when (is_en_passant mv)
      (let cap_r := tr + (if decide (color = WHITE) then 1 else -1) in
       set_cell self cap_r tc Empty);;

    set_cell self fr fc Empty;;
    set_cell self tr tc piece;;

    when (bool_decide (p = Pawn) && last_row tr)
      (let promo := default Queen (promotion mv) in
       set_cell self tr tc (Piece color promo));;

    when (is_castle mv)
      (let rook_hop (row a b : Z) : st unit :=
         v ← read (get_cell self row a);
         set_cell self row b v;;
         set_cell self row a Empty in
       if bool_decide ((tr, tc) = (7, 6)) then rook_hop 7 7 5
       else if bool_decide ((tr, tc) = (7, 2)) then rook_hop 7 0 3
       else if bool_decide ((tr, tc) = (0, 6)) then rook_hop 0 7 5
       else if bool_decide ((tr, tc) = (0, 2)) then rook_hop 0 0 3
       else mret tt);;

    when (bool_decide (p = Pawn) && (Z.abs (tr - fr) =? 2))
      (set_en_passant self (Some ((tr + fr) / 2, fc)));;

    t ← read (get_turn self);
    set_turn self (other t)
  end.

(** [legal_moves]: [out] is the local list that the loop appends to. *)
Fixpoint legal_loop (self : loc) (color : Color) (pseudo out : list Move)
    : st (list Move) :=
  match pseudo with
  | [] => mret out
  | mv :: pseudo =>
    b ← clone self;
    make_move b mv;;
    chk ← read (in_check b color);
    legal_loop self color pseudo (if chk : bool then out else out ++ [mv])
  end.

Definition legal_moves (self : loc) (color : Color) : st (list Move) :=
  pseudo ← read (generate_pseudo self color);
  legal_loop self color pseudo [].

(** ** Playing a game *)

(** [Board()] followed by [make_move] for each of the moves [mvs]. *)
Definition game (mvs : list Move) : st loc :=
  self ← Board_new; for_st (make_move self) mvs;; mret self.

(** Every move of [mvs] is, in the position it is played in, one of the
    moves that [legal_moves] returns for the side to move: the test of
    [ChessGUI.on_click]. The clones that [legal_moves] leaves in the
    store are dropped, nothing refers to them; the game goes on from
    the store [h] of the position. *)
Fixpoint legal_line (self : loc) (mvs : list Move) (h : heap) : bool :=
  match mvs with
  | [] => true
  | mv :: mvs =>
    match get_turn self h with
    | Ok t =>
      match (legal_moves self t h).1 with
      | Ok ms => bool_decide (mv ∈ ms) && legal_line self mvs (make_move self mv h).2
      | Raise _ => false
      end
    | Raise _ => false
    end
  end.

Definition legal_game (mvs : list Move) : bool :=
  match Board_new [] with
  | (Ok self, h) => legal_line self mvs h
  | (Raise _, _) => false
  end.

(** Squares in algebraic notation: file [a] is column 0, rank 8 is row 0. *)
Definition a2 : square := (6, 0).
Definition a3 : square := (5, 0).
Definition a6 : square := (2, 0).
Definition a7 : square := (1, 0).
Definition d4 : square := (4, 3).
Definition d5 : square := (3, 3).
Definition d7 : square := (1, 3).
Definition d8 : square := (0, 3).
Definition e1 : square := (7, 4).
Definition e2 : square := (6, 4).
Definition e3 : square := (5, 4).
Definition e4 : square := (4, 4).
Definition e5 : square := (3, 4).
Definition e7 : square := (1, 4).
Definition f1 : square := (7, 5).
Definition f2 : square := (6, 5).
Definition f3 : square := (5, 5).
Definition g1 : square := (7, 6).
Definition g2 : square := (6, 6).
Definition g4 : square := (4, 6).
Definition h3 : square := (5, 7).
Definition h4 : square := (4, 7).
Definition h5 : square := (3, 7).
Definition h7 : square := (1, 7).

(** ** The pawn rule in the words of the specification *)

(** The specification's pawn rule for the attack detector: a [by_color]
    pawn one rank behind [(r,c)] in [by_color]'s advancing direction, on
    row [r+1] for white and [r-1] for black, on an adjacent file. *)
Definition spec_pawn_attack (self : loc) (r c : Z) (by_color : Color) : rd bool :=
  let behind := if decide (by_color = WHITE) then 1 else -1 in
  any_rd (λ dc, holds self (r + behind) (c + dc) (Piece by_color Pawn)) [-1; 1].

(** ** Well-formed boards *)

(** The object graph that [Board()] and [clone] build and that
    [make_move] keeps: a [Board] object whose grid is a list of eight
    distinct rows of eight cells each, and whose [castling] is a
    dictionary. *)
Definition shape_ok (h : heap) (self : loc) : Prop :=
  ∃ b rows d,
    h !! self = Some (OBoard b) ∧
    h !! board b = Some (OGrid rows) ∧
    h !! castling b = Some (ODict d) ∧
    length rows = 8%nat ∧ NoDup rows ∧
    Forall (λ l, ∃ cells, h !! l = Some (ORow cells) ∧ length cells = 8%nat) rows.

(** An en-passant target is never on an edge row: [make_move] only sets
    it to the row between two rows of the board. *)
Definition ep_ok (h : heap) (self : loc) : Prop :=
  match get_en_passant self h with
  | Ok (Some (er, _)) => 1 ≤ er ≤ 6
  | _ => True
  end.

Definition board_ok (h : heap) (self : loc) : Prop :=
  shape_ok h self ∧ ep_ok h self.

(** The farthest rank of a pawn of [color]. *)
Definition far_row (color : Color) : Z :=
  if decide (color = WHITE) then 0 else 7.

(** [m] keeps the property [I] of the store, whether it returns or raises. *)
Definition preserves {A} (I : heap → Prop) (m : st A) : Prop :=
  ∀ h, I h → I (m h).2.

(** The board [self] and everything it refers to were allocated at or
    after position [n] of the store. *)
Definition owns (n : nat) (h : heap) (self : loc) : Prop :=
  (n ≤ self)%nat ∧
  ∀ b, h !! self = Some (OBoard b) →
    (n ≤ castling b)%nat ∧
    ∀ rows, h !! board b = Some (OGrid rows) → Forall (λ l, (n ≤ l)%nat) rows.

(** ** The writes of [make_move] *)

(** [make_move] changes the store of [self] in three ways only: it
    assigns one item of one row of the grid, it sets one castling right
    to [False], and it assigns [turn] or [en_passant]. *)
Inductive row_write (self : loc) (h : heap) : heap → Prop :=
| RowWrite b rows l cells i v :
    h !! self = Some (OBoard b) →
    h !! board b = Some (OGrid rows) →
    l ∈ rows →
    h !! l = Some (ORow cells) →
    row_write self h (<[l := ORow (<[i := v]> cells)]> h).

Inductive dict_write (self : loc) (h : heap) : heap → Prop :=
| DictWrite b d k :
    h !! self = Some (OBoard b) →
    h !! castling b = Some (ODict d) →
    dict_write self h (<[castling b := ODict (dict_set d k false)]> h).

Inductive attr_write (self : loc) (h : heap) : heap → Prop :=
| AttrWrite b t ep :
    h !! self = Some (OBoard b) →
    attr_write self h (<[self := OBoard (mkBoard (board b) t (castling b) ep)]> h).

(** The property [I] survives every write of the kind [W]. *)
Definition closed (W : heap → heap → Prop) (I : heap → Prop) : Prop :=
  ∀ h h', W h h' → I h → I h'.

(** Properties of the board [self] that the proofs follow through
    [make_move]: the value of [en_passant] and a castling right that is
    off. *)
Definition ep_is (self : loc) (v : option square) : heap → Prop :=
  λ h, get_en_passant self h = Ok v.
Definition flag_off (self : loc) (k : ckey) : heap → Prop :=
  λ h, get_castling self k h = Ok false.

(** The move [mv] takes a pawn ([moved] is the cell on its source
    square) two rows away: a double push. *)
Definition is_double_push (moved : cell) (mv : Move) : bool :=
  match moved with
  | Piece _ Pawn => Z.abs ((to mv).1 - (fr mv).1) =? 2
  | _ => false
  end.

(** The store and the board after [Board()] and the moves [mvs], from
    the empty store. *)
Definition after (mvs : list Move) : heap := (game mvs []).2.
Definition first_board : loc :=
  match (Board_new []).1 with Ok self => self | Raise _ => O end.

(** [shape_ok] and the content of one cell, as properties of the store. *)
Definition well_shaped (self : loc) : heap → Prop := λ h, shape_ok h self.
Definition cell_is (self : loc) (r c : Z) (v : cell) : heap → Prop :=
  λ h, get_cell self r c h = Ok v.

(** [m] returns from every store that satisfies [I], in a store that
    satisfies [I]. *)
Definition safe {A} (I : heap → Prop) (m : st A) : Prop :=
  ∀ h, I h → ∃ a h', m h = (Ok a, h') ∧ I h'.

(** Every cell that could be read in the store [h0] reads the same now. *)
Definition grid_as (self : loc) (h0 : heap) : heap → Prop :=
  λ h, ∀ r c v, get_cell self r c h0 = Ok v → get_cell self r c h = Ok v.

(** The board is well-formed and its cells are those of [h0]. *)
Definition kept (self : loc) (h0 : heap) : heap → Prop :=
  λ h, shape_ok h self ∧ grid_as self h0 h.

(** [shape_ok] as a test that can be run on a given store. *)
Definition shape_okb (h : heap) (self : loc) : bool :=
  match h !! self with
  | Some (OBoard b) =>
    match h !! board b, h !! castling b with
    | Some (OGrid rows), Some (ODict _) =>
      bool_decide (length rows = 8%nat) && bool_decide (NoDup rows) &&
      forallb (λ l, match h !! l with
                    | Some (ORow cells) => bool_decide (length cells = 8%nat)
                    | _ => false
                    end) rows
    | _, _ => false
    end
  | _ => false
  end.

(** The board is well-formed and the cell [(r,c)] holds [v]. *)
Definition placed (self : loc) (r c : Z) (v : cell) : heap → Prop :=
  λ h, shape_ok h self ∧ get_cell self r c h = Ok v.

(** The moves between the squares [a] and [b]. *)
Definition same_squares (a b : square) : Move → Prop :=
  λ m, fr m = a ∧ to m = b.

#[global] Instance same_squares_dec a b m : Decision (same_squares a b m).
Proof. unfold same_squares. apply _. Defined.

(** The row on which [color] castles. *)
Definition castle_row (color : Color) : Z :=
  if decide (color = WHITE) then 7 else 0.

(** What [generate_pseudo] emits while it visits the square [a]: moves
    from [a], and castling moves, which stay on the castling row. *)
Definition from_or_castle (color : Color) (a : square) : Move → Prop :=
  λ m, fr m = a ∨ (to m).1 = castle_row color.

(** ** Clones *)

(** The object [o] refers only to objects allocated at or after
    position [n] of the store. *)
Definition refs_from (n : nat) (o : obj) : Prop :=
  match o with
  | OBoard b => (n ≤ board b)%nat ∧ (n ≤ castling b)%nat
  | OGrid rows => Forall (λ l, (n ≤ l)%nat) rows
  | _ => True
  end.

(** The store still begins with the store [h0] of [n] objects, and the
    objects added since refer to added objects only. *)
Definition apart (n : nat) (h0 : heap) : heap → Prop :=
  λ h, take n h = h0 ∧ length h0 = n ∧
       ∀ l o, (n ≤ l)%nat → h !! l = Some o → refs_from n o.

(** [m] keeps [apart n h0], and what it returns satisfies [Q]. *)
Definition confined {A} (n : nat) (h0 : heap) (m : st A) (Q : A → Prop) : Prop :=
  ∀ h, apart n h0 h → apart n h0 (m h).2 ∧ ∀ a, (m h).1 = Ok a → Q a.

(** ** Read-only methods that return *)

(** The read-only computation [m] returns from the store [h]. *)
Definition returns {A} (h : heap) (m : rd A) : Prop := ∃ a, m h = Ok a.

(** The directions that the [while] loops step in, and the number of
    squares of the board that lie on the ray from [(rr,cc)] on, when
    [(rr,cc)] is on the board. *)
Definition unit_step (dr dc : Z) : Prop :=
  dr = 1 ∨ dr = -1 ∨ (dr = 0 ∧ (dc = 1 ∨ dc = -1)).

Definition room (rr cc dr dc : Z) : Z :=
  if dr =? 1 then 8 - rr
  else if dr =? -1 then rr + 1
  else if dc =? 1 then 8 - cc
  else cc + 1.

(** ** Further properties followed through [make_move] *)

(** The side to move and the value of one castling right. *)
Definition turn_is (self : loc) (t : Color) : heap → Prop :=
  λ h, get_turn self h = Ok t.
Definition flag_is (self : loc) (k : ckey) (v : bool) : heap → Prop :=
  λ h, get_castling self k h = Ok v.

(** The side that a castling right belongs to and the home square of
    its rook. *)
Definition side (k : ckey) : Color :=
  match k with wK | wQ => WHITE | bK | bQ => BLACK end.
Definition corner (k : ckey) : square :=
  match k with wQ => (7, 0) | wK => (7, 7) | bQ => (0, 0) | bK => (0, 7) end.

(** The move [mv] of the piece [moved] onto a square that held [dest]
    takes the right [k] away: the king of that side moves, a rook leaves
    the corner, or a piece is captured on the corner. *)
Definition clears (k : ckey) (moved dest : cell) (mv : Move) : bool :=
  match moved with
  | Empty => false
  | Piece color p =>
    bool_decide (p = King) && bool_decide (color = side k)
    || bool_decide (p = Rook) && bool_decide (fr mv = corner k)
    || bool_decide (dest ≠ Empty) && bool_decide (to mv = corner k)
  end.

(** What a computation returned, or [d] if it raised. *)
Definition value_or {A} (d : A) (r : result A) : A :=
  match r with Ok a => a | Raise _ => d end.

(** ** What a pseudo-legal move is, read off [generate_pseudo] *)

(** The square [b] is on the board and does not hold a piece of
    [color]: it is empty or holds a piece of the other side. *)
Definition lands_ok (self : loc) (color : Color) (h : heap) (b : square) : Prop :=
  in_bounds b.1 b.2 = true ∧
  ∃ col, color_at self b.1 b.2 h = Ok col ∧ col ≠ Some color.

(** The row step of a pawn of [color] and the row it starts on. *)
Definition forward (color : Color) : Z :=
  if decide (color = WHITE) then -1 else 1.
Definition start_row (color : Color) : Z :=
  if decide (color = WHITE) then 6 else 1.

(** The rays of a bishop, rook or queen. *)
Definition directions (p : Kind) : list (Z * Z) :=
  (if bool_decide (p = Bishop) || bool_decide (p = Queen) then diagonals else []) ++
  (if bool_decide (p = Rook) || bool_decide (p = Queen) then orthogonals else []).

(** [b] is [n] steps of [d] away from [a], and the squares passed on
    the way are empty. *)
Definition reaches (self : loc) (h : heap) (a : square) (d : Z * Z) (n : Z)
    (b : square) : Prop :=
  1 ≤ n ∧ b = (a.1 + n * d.1, a.2 + n * d.2) ∧
  ∀ i, 1 ≤ i < n → get_cell self (a.1 + i * d.1) (a.2 + i * d.2) h = Ok Empty.

(** How a piece of [color] and kind [p] on [a] gets to [b], castling
    and en passant apart. *)
Definition pattern (self : loc) (color : Color) (h : heap) (a : square)
    (p : Kind) (b : square) : Prop :=
  match p with
  | Pawn =>
    b = (a.1 + forward color, a.2) ∧ get_cell self b.1 b.2 h = Ok Empty
    ∨ b = (a.1 + 2 * forward color, a.2) ∧ a.1 = start_row color ∧
      get_cell self (a.1 + forward color) a.2 h = Ok Empty ∧
      get_cell self b.1 b.2 h = Ok Empty
    ∨ b.1 = a.1 + forward color ∧ Z.abs (b.2 - a.2) = 1 ∧
      ∃ k, get_cell self b.1 b.2 h = Ok (Piece (other color) k)
  | Knight => ∃ d, d ∈ knight_offsets ∧ b = (a.1 + d.1, a.2 + d.2)
  | King => ∃ d, d ∈ king_offsets ∧ b = (a.1 + d.1, a.2 + d.2)
  | _ => ∃ d n, d ∈ directions p ∧ reaches self h a d n b
  end.

(** The castling move of the right [k], the columns between king and
    rook, and the columns the king crosses and lands on. *)
Definition castling_move (k : ckey) : Move :=
  mkMove ((corner k).1, 4)
         ((corner k).1, match k with wK | bK => 6 | wQ | bQ => 2 end)
         None true false.
Definition between (k : ckey) : list Z :=
  match k with wK | bK => [5; 6] | wQ | bQ => [1; 2; 3] end.
Definition crossed (k : ckey) : list Z :=
  match k with wK | bK => [5; 6] | wQ | bQ => [3; 2] end.

(** The tests that [generate_pseudo] makes before it emits the castling
    move of the right [k]. *)
Definition castle_checked (self : loc) (h : heap) (k : ckey) : Prop :=
  get_castling self k h = Ok true ∧
  (∀ cc, cc ∈ between k → get_cell self (corner k).1 cc h = Ok Empty) ∧
  in_check self (side k) h = Ok false ∧
  (∀ cc, cc ∈ crossed k →
         is_attacked self (corner k).1 cc (other (side k)) h = Ok false).

(** What holds of a move that [generate_pseudo] emits for [color]
    while it visits the square [a], which holds a piece of kind [p]. *)
Definition gen_ok (self : loc) (color : Color) (h : heap) (a : square)
    (p : Kind) (m : Move) : Prop :=
  if is_castle m then
    p = King ∧
    ∃ k, side k = color ∧ m = castling_move k ∧ castle_checked self h k
  else
    fr m = a ∧
    if is_en_passant m then
      p = Pawn ∧ promotion m = None ∧
      get_en_passant self h = Ok (Some (to m)) ∧
      (to m).1 = a.1 + forward color ∧ Z.abs ((to m).2 - a.2) = 1
    else
      lands_ok self color h (to m) ∧ pattern self color h a p (to m) ∧
      (is_Some (promotion m) ↔ p = Pawn ∧ last_row (to m).1 = true).

(** ** Copies *)

(** The cells of the row at [l], as [row[:]] reads them. *)
Definition row_of (h : heap) (l : loc) : list cell :=
  match h !! l with Some (ORow cells) => cells | _ => [] end.

(** The board [b] of the store [h'] reads as the board [self] of the
    store [h]: the same cells, side to move, castling rights and
    en-passant target. *)
Definition same_board (self : loc) (h : heap) (b : loc) (h' : heap) : Prop :=
  (∀ r c, get_cell b r c h' = get_cell self r c h) ∧
  get_turn b h' = get_turn self h ∧
  (∀ k, get_castling b k h' = get_castling self k h) ∧
  get_en_passant b h' = get_en_passant self h.

(** ** The starting position *)

(** The pieces of the first row of each side, by column. *)
Definition back_rank (c : Z) : Kind :=
  if (c =? 0) || (c =? 7) then Rook
  else if (c =? 1) || (c =? 6) then Knight
  else if (c =? 2) || (c =? 5) then Bishop
  else if c =? 3 then Queen else King.

(** The cell [(r,c)] of the starting position of chess, row 0 being
    Black's first row. *)
Definition start_cell (r c : Z) : cell :=
  if r =? 0 then Piece BLACK (back_rank c)
  else if r =? 1 then Piece BLACK Pawn
  else if r =? 6 then Piece WHITE Pawn
  else if r =? 7 then Piece WHITE (back_rank c)
  else Empty.

(** The board [self] is well-formed and its cells are those of [f]. *)
Definition cells_are (self : loc) (f : Z → Z → cell) (h : heap) : Prop :=
  shape_ok h self ∧
  ∀ r c, in_bounds r c = true → get_cell self r c h = Ok (f r c).

(** [f] with the cell [(r,c)] set to [v]. *)
Definition upd (r c : Z) (v : cell) (f : Z → Z → cell) : Z → Z → cell :=
  λ r' c', if decide ((r', c') = (r, c)) then v else f r' c'.

(** [m] returns on every well-formed board, and changes its cells as
    [F] says. *)
Definition writes (self : loc) (m : st unit)
    (F : (Z → Z → cell) → Z → Z → cell) : Prop :=
  ∀ f h, cells_are self f h → ∃ h', m h = (Ok tt, h') ∧ cells_are self (F f) h'.

(** ** Two boards that read alike *)

#[global] Instance exn_eq_dec : EqDecision exn.
Proof. solve_decision. Defined.
#[global] Instance result_eq_dec {A} `{EqDecision A} : EqDecision (result A).
Proof. solve_decision. Defined.

(** The board [b1] of the store [h1] and the board [b2] of the store
    [h2] are well-formed and hold the same position: the same cells,
    side to move, castling rights and en-passant target. *)
Definition alike (b1 : loc) (h1 : heap) (b2 : loc) (h2 : heap) : Prop :=
  shape_ok h1 b1 ∧ shape_ok h2 b2 ∧
  (∀ r c, in_bounds r c = true → get_cell b1 r c h1 = get_cell b2 r c h2) ∧
  get_turn b1 h1 = get_turn b2 h2 ∧
  (∀ k, get_castling b1 k h1 = get_castling b2 k h2) ∧
  get_en_passant b1 h1 = get_en_passant b2 h2.

(** Run on two boards that read alike, [m1] on [b1] and [m2] on [b2]
    end alike: with the same result or exception, and on boards that
    read alike again. *)
Definition respects {A} (b1 b2 : loc) (m1 m2 : st A) : Prop :=
  ∀ h1 h2, alike b1 h1 b2 h2 →
    (m1 h1).1 = (m2 h2).1 ∧ alike b1 (m1 h1).2 b2 (m2 h2).2.

(** What [in_check] answers for [color] once [mv] has been played on
    the board itself. *)
Definition verdict (self : loc) (color : Color) (mv : Move) : rd bool := λ h,
  match make_move self mv h with
  | (Ok _, h') => in_check self color h'
  | (Raise e, _) => Raise e
  end.

(** ** The squares that a move writes *)

(** [rook_hop 7 7 5] is the body of the branch [(tr,tc)==(7,6)] of
    [make_move], and so on for the other three. *)
Definition rook_hop (self : loc) (row a b : Z) : st unit :=
  v ← read (get_cell self row a);
  set_cell self row b v;;
  set_cell self row a Empty.

(** The corner and the square beside the king that a castling move to
    [b] writes. *)
Definition rook_hop_squares (b : Z * Z) : list square :=
  if bool_decide (b = (7, 6)) then [(7, 7); (7, 5)]
  else if bool_decide (b = (7, 2)) then [(7, 0); (7, 3)]
  else if bool_decide (b = (0, 6)) then [(0, 7); (0, 5)]
  else if bool_decide (b = (0, 2)) then [(0, 0); (0, 3)]
  else [].

(** The square of the pawn that an en-passant move of [color] to [b]
    takes. *)
Definition taken_square (color : Color) (b : square) : square :=
  (b.1 + (if decide (color = WHITE) then 1 else -1), b.2).

(** The squares that [make_move] writes when a piece of [color] makes
    the move [mv]. *)
Definition touched (color : Color) (mv : Move) : list square :=
  [fr mv; to mv]
  ++ (if is_en_passant mv then [taken_square color (to mv)] else [])
  ++ (if is_castle mv then rook_hop_squares (to mv) else []).

(** A king of [color] stands on the board. *)
Definition has_king (self : loc) (color : Color) (h : heap) : Prop :=
  ∃ r c, in_bounds r c = true ∧ get_cell self r c h = Ok (Piece color King).

(** The castling rights of [color] that are set have the king of
    [color] on its home square. *)
Definition rights_sound (self : loc) (color : Color) (h : heap) : Prop :=
  ∀ k, side k = color → get_castling self k h = Ok true →
       get_cell self (corner k).1 4 h = Ok (Piece color King).

(** The en-passant target, if there is one, is an empty square of the
    board, and the square that a capture by [color] would clear does
    not hold the king of [color]. *)
Definition target_sound (self : loc) (color : Color) (h : heap) : Prop :=
  ∀ b, get_en_passant self h = Ok (Some b) →
       in_bounds b.1 b.2 = true ∧ get_cell self b.1 b.2 h = Ok Empty ∧
       get_cell self (taken_square color b).1 (taken_square color b).2 h
       ≠ Ok (Piece color King).

(** * Proofs *)

(** ** Running computations step by step *)

Lemma rd_bind_Ok {A B} (m : rd A) (f : A → rd B) h v :
  (m ≫= f) h = Ok v → ∃ a, m h = Ok a ∧ f a h = Ok v.
Proof.
  unfold mbind, rd_bind. destruct (m h) as [a|e]; [eauto | discriminate].
Qed.

Lemma st_bind_Ok {A B} (m : st A) (f : A → st B) h v h' :
  (m ≫= f) h = (Ok v, h') →
  ∃ a h1, m h = (Ok a, h1) ∧ f a h1 = (Ok v, h').
Proof.
  unfold mbind, st_bind. destruct (m h) as [[a|e] h1]; [eauto | discriminate].
Qed.

Lemma read_Ok {A} (m : rd A) h v h' :
  read m h = (Ok v, h') → m h = Ok v ∧ h' = h.
Proof. unfold read. intros [= -> ->]. done. Qed.

Lemma when_Ok b (m : st unit) h h' :
  when b m h = (Ok tt, h') →
  (b = true ∧ m h = (Ok tt, h')) ∨ (b = false ∧ h' = h).
Proof. destruct b; simpl; [eauto | intros [= ->]; eauto]. Qed.

(** ** Properties kept by a computation *)

Lemma preserves_ret {A} I (a : A) : preserves I (mret a).
Proof. intros h Hh. done. Qed.

Lemma preserves_raise {A} I e : preserves I (@raise_st A e).
Proof. intros h Hh. done. Qed.

Lemma preserves_read {A} I (m : rd A) : preserves I (read m).
Proof. intros h Hh. done. Qed.

Lemma preserves_bind {A B} I (m : st A) (f : A → st B) :
  preserves I m → (∀ a, preserves I (f a)) → preserves I (m ≫= f).
Proof.
  intros Hm Hf h Hh. specialize (Hm h Hh).
  unfold mbind, st_bind. destruct (m h) as [[a|e] h1]; simpl in *; [|done].
  by apply Hf.
Qed.

Lemma preserves_when I b m : preserves I m → preserves I (when b m).
Proof. destruct b; [done | intros _; apply preserves_ret]. Qed.

Lemma preserves_for_st {A} I (f : A → st unit) l :
  (∀ a, preserves I (f a)) → preserves I (for_st f l).
Proof.
  intros Hf. induction l as [|x l IH]; simpl.
  - apply preserves_ret.
  - apply preserves_bind; auto.
Qed.

Lemma preserves_map_st {A B} I (f : A → st B) l :
  (∀ a, preserves I (f a)) → preserves I (map_st f l).
Proof.
  intros Hf. induction l as [|x l IH]; simpl.
  - apply preserves_ret.
  - apply preserves_bind; [auto | intros y].
    apply preserves_bind; [auto | intros ys]. apply preserves_ret.
Qed.

Create HintDb pres discriminated.
#[local] Hint Resolve preserves_ret preserves_raise preserves_read
  preserves_when preserves_for_st preserves_map_st : pres.

(** Goes through a computation built from [≫=], [when], [if] and
    [match], leaving the primitive writes to the hints of [pres]. *)
Ltac pres_step :=
  match goal with
  | |- preserves _ (mbind _ _) => apply preserves_bind; [| intros ?]
  | |- preserves _ (_ ≫= _) => apply preserves_bind; [| intros ?]
  | |- preserves _ (when _ _) => apply preserves_when
  | |- preserves _ (for_st _ _) => apply preserves_for_st; intros ?
  | |- preserves _ (let '(_, _) := ?p in _) => destruct p
  | |- preserves _ (if bool_decide (?x = ?y) then _ else _) =>
    let E := fresh "E" in
    destruct (decide (x = y)) as [E|E];
    [rewrite (bool_decide_eq_true_2 _ E); try (injection E as -> ->)
    |rewrite (bool_decide_eq_false_2 _ E)]
  | |- preserves _ (if ?b then _ else _) => destruct b
  | |- preserves _ (match ?x with _ => _ end) => destruct x
  | |- preserves _ _ => solve [eauto with pres]
  end.
Ltac pres := repeat pres_step.

(** ** Typed reads after a write *)

Lemma as_board_insert l o h l' :
  (∀ b, o ≠ OBoard b) → (∀ b, h !! l ≠ Some (OBoard b)) →
  as_board l' (<[l := o]> h) = as_board l' h.
Proof.
  intros Ho Hl. unfold as_board.
  destruct (decide (l = l')) as [<-|Hne]; [|by rewrite list_lookup_insert_ne].
  destruct (decide (l < length h)%nat) as [Hlt|Hge];
    [|by rewrite list_insert_ge by lia].
  rewrite list_lookup_insert_eq by done.
  destruct o; try (by exfalso; eapply Ho);
    destruct (h !! l) as [[]|]; try done; by exfalso; eapply Hl.
Qed.

Lemma as_grid_insert l o h l' :
  (∀ b, o ≠ OGrid b) → (∀ b, h !! l ≠ Some (OGrid b)) →
  as_grid l' (<[l := o]> h) = as_grid l' h.
Proof.
  intros Ho Hl. unfold as_grid.
  destruct (decide (l = l')) as [<-|Hne]; [|by rewrite list_lookup_insert_ne].
  destruct (decide (l < length h)%nat) as [Hlt|Hge];
    [|by rewrite list_insert_ge by lia].
  rewrite list_lookup_insert_eq by done.
  destruct o; try (by exfalso; eapply Ho);
    destruct (h !! l) as [[]|]; try done; by exfalso; eapply Hl.
Qed.

Lemma as_row_insert l o h l' :
  (∀ b, o ≠ ORow b) → (∀ b, h !! l ≠ Some (ORow b)) →
  as_row l' (<[l := o]> h) = as_row l' h.
Proof.
  intros Ho Hl. unfold as_row.
  destruct (decide (l = l')) as [<-|Hne]; [|by rewrite list_lookup_insert_ne].
  destruct (decide (l < length h)%nat) as [Hlt|Hge];
    [|by rewrite list_insert_ge by lia].
  rewrite list_lookup_insert_eq by done.
  destruct o; try (by exfalso; eapply Ho);
    destruct (h !! l) as [[]|]; try done; by exfalso; eapply Hl.
Qed.

Lemma as_dict_insert l o h l' :
  (∀ b, o ≠ ODict b) → (∀ b, h !! l ≠ Some (ODict b)) →
  as_dict l' (<[l := o]> h) = as_dict l' h.
Proof.
  intros Ho Hl. unfold as_dict.
  destruct (decide (l = l')) as [<-|Hne]; [|by rewrite list_lookup_insert_ne].
  destruct (decide (l < length h)%nat) as [Hlt|Hge];
    [|by rewrite list_insert_ge by lia].
  rewrite list_lookup_insert_eq by done.
  destruct o; try (by exfalso; eapply Ho);
    destruct (h !! l) as [[]|]; try done; by exfalso; eapply Hl.
Qed.

Lemma as_board_Ok l h b : as_board l h = Ok b ↔ h !! l = Some (OBoard b).
Proof. unfold as_board. destruct (h !! l) as [[]|]; split; intros [= ->]; done. Qed.
Lemma as_grid_Ok l h x : as_grid l h = Ok x ↔ h !! l = Some (OGrid x).
Proof. unfold as_grid. destruct (h !! l) as [[]|]; split; intros [= ->]; done. Qed.
Lemma as_row_Ok l h x : as_row l h = Ok x ↔ h !! l = Some (ORow x).
Proof. unfold as_row. destruct (h !! l) as [[]|]; split; intros [= ->]; done. Qed.
Lemma as_dict_Ok l h x : as_dict l h = Ok x ↔ h !! l = Some (ODict x).
Proof. unfold as_dict. destruct (h !! l) as [[]|]; split; intros [= ->]; done. Qed.

(** ** What the primitive writes do to the store *)

Lemma py_getitem_elem_of {A} (l : list A) i x : py_getitem l i = Ok x → x ∈ l.
Proof.
  unfold py_getitem. destruct (py_index _ _) as [k|]; [|done].
  destruct (l !! k) eqn:E; [|done]. intros [= ->].
  by eapply list_elem_of_lookup_2.
Qed.

Lemma set_cell_effect self r c v h :
  (set_cell self r c v h).2 = h ∨ row_write self h (set_cell self r c v h).2.
Proof.
  unfold set_cell, mbind, st_bind, read, lift, store; simpl.
  destruct (as_board self h) as [b|] eqn:Eb; [|by left].
  destruct (as_grid (board b) h) as [rows|] eqn:Eg; [|by left].
  destruct (py_getitem rows r) as [l|] eqn:El; [|by left].
  destruct (as_row l h) as [cells|] eqn:Ec; [|by left].
  unfold py_setitem. destruct (py_index _ _) as [i|]; [|by left].
  right. simpl. apply as_board_Ok in Eb. apply as_grid_Ok in Eg. apply as_row_Ok in Ec.
  econstructor; eauto using py_getitem_elem_of.
Qed.

Lemma set_castling_effect self k h :
  (set_castling self k false h).2 = h ∨
  dict_write self h (set_castling self k false h).2.
Proof.
  unfold set_castling, mbind, st_bind, read, store; simpl.
  destruct (as_board self h) as [b|] eqn:Eb; [|by left].
  destruct (as_dict (castling b) h) as [d|] eqn:Ed; [|by left].
  right. simpl. apply as_board_Ok in Eb. apply as_dict_Ok in Ed.
  econstructor; eauto.
Qed.

Lemma set_en_passant_effect self v h :
  (set_en_passant self v h).2 = h ∨
  attr_write self h (set_en_passant self v h).2.
Proof.
  unfold set_en_passant, mbind, st_bind, read, store; simpl.
  destruct (as_board self h) as [b|] eqn:Eb; [|by left].
  right. simpl. apply as_board_Ok in Eb. econstructor; eauto.
Qed.

Lemma set_turn_effect self v h :
  (set_turn self v h).2 = h ∨ attr_write self h (set_turn self v h).2.
Proof.
  unfold set_turn, mbind, st_bind, read, store; simpl.
  destruct (as_board self h) as [b|] eqn:Eb; [|by left].
  right. simpl. apply as_board_Ok in Eb. econstructor; eauto.
Qed.

Lemma preserves_set_cell I self r c v :
  closed (row_write self) I → preserves I (set_cell self r c v).
Proof.
  intros HI h Hh. destruct (set_cell_effect self r c v h) as [->|W]; eauto.
Qed.

Lemma preserves_set_castling I self k :
  closed (dict_write self) I → preserves I (set_castling self k false).
Proof.
  intros HI h Hh. destruct (set_castling_effect self k h) as [->|W]; eauto.
Qed.

Lemma preserves_set_en_passant I self v :
  closed (attr_write self) I → preserves I (set_en_passant self v).
Proof.
  intros HI h Hh. destruct (set_en_passant_effect self v h) as [->|W]; eauto.
Qed.

Lemma preserves_set_turn I self v :
  closed (attr_write self) I → preserves I (set_turn self v).
Proof.
  intros HI h Hh. destruct (set_turn_effect self v h) as [->|W]; eauto.
Qed.

#[local] Hint Resolve preserves_set_cell preserves_set_castling
  preserves_set_en_passant preserves_set_turn : pres.

(** ** The attributes of a board after a write *)

Lemma get_en_passant_Ok self h v :
  get_en_passant self h = Ok v ↔ ∃ b, h !! self = Some (OBoard b) ∧ en_passant b = v.
Proof.
  unfold get_en_passant, mbind, rd_bind, mret, rd_ret, as_board. split.
  - destruct (h !! self) as [[]|]; intros [= <-]; eauto.
  - by intros (b & -> & <-).
Qed.

Lemma get_turn_Ok self h v :
  get_turn self h = Ok v ↔ ∃ b, h !! self = Some (OBoard b) ∧ turn b = v.
Proof.
  unfold get_turn, mbind, rd_bind, mret, rd_ret, as_board. split.
  - destruct (h !! self) as [[]|]; intros [= <-]; eauto.
  - by intros (b & -> & <-).
Qed.

Lemma get_castling_Ok self k h v :
  get_castling self k h = Ok v ↔
  ∃ b d, h !! self = Some (OBoard b) ∧ h !! castling b = Some (ODict d) ∧
         dict_get d k = v.
Proof.
  unfold get_castling, mbind, rd_bind, mret, rd_ret, as_board, as_dict. split.
  - destruct (h !! self) as [[| | |b]|]; try discriminate.
    destruct (h !! castling b) as [[]|] eqn:E; intros [= <-]; eauto.
  - by intros (b & d & -> & -> & <-).
Qed.

(** Two references that hold objects of different classes differ. *)
Ltac differ l l' :=
  assert (l ≠ l') by (intros ?; congruence).

Lemma ep_is_row_closed self v : closed (row_write self) (ep_is self v).
Proof.
  intros h h' [b rows l cells i w Hb Hg Hl Hc] (b' & Hb' & Hv)%get_en_passant_Ok.
  apply get_en_passant_Ok. exists b'. split; [|done].
  differ l self. by rewrite list_lookup_insert_ne.
Qed.

Lemma ep_is_dict_closed self v : closed (dict_write self) (ep_is self v).
Proof.
  intros h h' [b d k Hb Hd] (b' & Hb' & Hv)%get_en_passant_Ok.
  apply get_en_passant_Ok. exists b'. split; [|done].
  differ (castling b) self. by rewrite list_lookup_insert_ne.
Qed.

Lemma flag_off_row_closed self k : closed (row_write self) (flag_off self k).
Proof.
  intros h h' [b rows l cells i w Hb Hg Hl Hc] (b' & d & Hb' & Hd & Hv)%get_castling_Ok.
  apply get_castling_Ok. exists b', d.
  differ l self. differ l (castling b').
  by rewrite !list_lookup_insert_ne.
Qed.

Lemma dict_set_false d k k' :
  dict_get d k = false → dict_get (dict_set d k' false) k = false.
Proof. by destruct d, k, k'. Qed.

Lemma flag_off_dict_closed self k : closed (dict_write self) (flag_off self k).
Proof.
  intros h h' [b d k' Hb Hd] (b' & d' & Hb' & Hd' & Hv)%get_castling_Ok.
  apply get_castling_Ok. simplify_eq.
  exists b, (dict_set d k' false). differ (castling b) self.
  rewrite list_lookup_insert_ne by done.
  rewrite list_lookup_insert_eq by (by eapply lookup_lt_Some).
  eauto using dict_set_false.
Qed.

Lemma flag_off_attr_closed self k : closed (attr_write self) (flag_off self k).
Proof.
  intros h h' [b t ep Hb] (b' & d & Hb' & Hd & Hv)%get_castling_Ok.
  apply get_castling_Ok. simplify_eq.
  eexists _, d. differ self (castling b).
  rewrite list_lookup_insert_eq by (by eapply lookup_lt_Some).
  split; [done|]. simpl. by rewrite list_lookup_insert_ne.
Qed.

#[local] Hint Resolve ep_is_row_closed ep_is_dict_closed
  flag_off_row_closed flag_off_dict_closed flag_off_attr_closed : pres.


Lemma preserves_run {A} I (m : st A) h r h' :
  preserves I m → I h → m h = (r, h') → I h'.
Proof. intros Hm Hh E. specialize (Hm h Hh). by rewrite E in Hm. Qed.

(** Carries the property [I] of the store before the run [H] over to
    the store after it. *)
Ltac carry I H :=
  match type of H with
  | ?m ?h = (_, _) =>
    let P := fresh "P" in
    assert (preserves I m) as P by (cbv zeta; pres);
    match goal with
    | Hprev : I h |- _ =>
      generalize (preserves_run I m h _ _ P Hprev H); clear P H Hprev; intros H
    end
  end.

(** ** Castling rights only go off *)

(** C8. Each of the four castling rights is monotone under [make_move]:
    a right that is [False] before the call is [False] after it, whether
    the call returns or raises. *)
Theorem castling_rights_monotone h self mv k :
  get_castling self k h = Ok false →
  get_castling self k (make_move self mv h).2 = Ok false.
Proof.
  assert (preserves (flag_off self k) (make_move self mv)) as Hkeep
    by (unfold make_move; pres).
  apply Hkeep.
Qed.

Lemma castling_rights_monotone_witness :
  get_castling first_board wK
    (make_move first_board (plain d5 d4)
       (after [plain e2 e4; plain d7 d5; plain e1 e2])).2 = Ok false.
Proof. apply castling_rights_monotone. vm_compute. reflexivity. Defined.

(** ** The en-passant target *)

Lemma set_en_passant_Ok self v h h' :
  set_en_passant self v h = (Ok tt, h') → ep_is self v h'.
Proof.
  unfold set_en_passant, mbind, st_bind, read, store. simpl.
  destruct (as_board self h) as [b|] eqn:Eb; [|discriminate].
  intros [= <-]. apply as_board_Ok in Eb.
  apply get_en_passant_Ok. eexists. split.
  - rewrite list_lookup_insert_eq; [done | by eapply lookup_lt_Some].
  - done.
Qed.

Lemma set_turn_ep_is self v t : preserves (ep_is self v) (set_turn self t).
Proof.
  intros h (b & Hb & Hv)%get_en_passant_Ok.
  unfold set_turn, mbind, st_bind, read, store. simpl.
  rewrite (proj2 (as_board_Ok _ _ _) Hb). simpl.
  apply get_en_passant_Ok. eexists. split.
  - rewrite list_lookup_insert_eq; [done | by eapply lookup_lt_Some].
  - done.
Qed.

Lemma make_move_en_passant h self mv moved h' :
  get_cell self (fr mv).1 (fr mv).2 h = Ok moved →
  make_move self mv h = (Ok tt, h') →
  if is_double_push moved mv then
    ∃ m, get_en_passant self h' = Ok (Some (m, (fr mv).2)) ∧
         ((fr mv).1 < m < (to mv).1 ∨ (to mv).1 < m < (fr mv).1)
  else get_en_passant self h' = Ok None.
Proof.
  intros Hsrc H. unfold make_move in H.
  destruct (fr mv) as [r1 c1] eqn:Efr, (to mv) as [r2 c2] eqn:Eto. simpl in *.
  apply st_bind_Ok in H as (piece & ? & [Hp ->]%read_Ok & H).
  rewrite Hsrc in Hp. injection Hp as <-.
  destruct moved as [|color p]; [discriminate|].
  apply st_bind_Ok in H as (dest & ? & [_ ->]%read_Ok & H).
  apply st_bind_Ok in H as ([] & h1 & Hep%set_en_passant_Ok & H).
  apply st_bind_Ok in H as ([] & h2 & H2 & H). carry (ep_is self None) H2.
  apply st_bind_Ok in H as ([] & h3 & H3 & H). carry (ep_is self None) H3.
  apply st_bind_Ok in H as ([] & h4 & H4 & H). carry (ep_is self None) H4.
  apply st_bind_Ok in H as ([] & h5 & H5 & H). carry (ep_is self None) H5.
  apply st_bind_Ok in H as ([] & h6 & H6 & H). carry (ep_is self None) H6.
  apply st_bind_Ok in H as ([] & h7 & H7 & H). carry (ep_is self None) H7.
  apply st_bind_Ok in H as ([] & h8 & H8 & H). carry (ep_is self None) H8.
  apply st_bind_Ok in H as ([] & h9 & H9 & H). carry (ep_is self None) H9.
  apply st_bind_Ok in H as ([] & h10 & H10 & H).
  apply st_bind_Ok in H as (t & ? & [_ ->]%read_Ok & H).
  assert (ep_is self (if is_double_push (Piece color p) mv
                      then Some ((r2 + r1) / 2, c1) else None) h10) as Hfin.
  { unfold is_double_push. rewrite Efr, Eto. simpl.
    apply when_Ok in H10 as [[Hc H10]|[Hc ->]].
    - apply andb_prop in Hc as [->%bool_decide_eq_true Hc]. rewrite Hc.
      by eapply set_en_passant_Ok.
    - destruct p; try done. simpl in Hc. by rewrite Hc. }
  eapply preserves_run in H; [| apply set_turn_ep_is | exact Hfin].
  destruct (is_double_push (Piece color p) mv) eqn:Edp; [|done].
  exists ((r2 + r1) / 2). split; [done|].
  unfold is_double_push in Edp. destruct p; try done.
  rewrite Efr, Eto in Edp. simpl in Edp. apply Z.eqb_eq in Edp.
  assert (r2 = r1 + 2 ∨ r2 = r1 - 2) as [->| ->] by lia.
  - replace (r1 + 2 + r1) with ((r1 + 1) * 2) by lia. rewrite Z.div_mul by done. lia.
  - replace (r1 - 2 + r1) with ((r1 - 1) * 2) by lia. rewrite Z.div_mul by done. lia.
Qed.

(** C6. After [make_move] has applied a move, [en_passant] is the
    square passed over when the move was a pawn double push, the one on
    the source file and on the row between source and destination, and
    [None] after every other move, whatever it was before. *)
Theorem en_passant_window h self mv moved h' :
  get_cell self (fr mv).1 (fr mv).2 h = Ok moved →
  make_move self mv h = (Ok tt, h') →
  if is_double_push moved mv then
    ∃ m, get_en_passant self h' = Ok (Some (m, (fr mv).2)) ∧
         ((fr mv).1 < m < (to mv).1 ∨ (to mv).1 < m < (fr mv).1)
  else get_en_passant self h' = Ok None.
Proof. apply make_move_en_passant. Qed.

Lemma en_passant_window_witness :
  ∃ m, get_en_passant first_board
         (make_move first_board (plain e2 e4) (after [])).2 = Ok (Some (m, 4)) ∧
       (6 < m < 4 ∨ 4 < m < 6).
Proof.
  apply (en_passant_window (after []) first_board (plain e2 e4) (Piece WHITE Pawn)
           (make_move first_board (plain e2 e4) (after [])).2);
    vm_compute; reflexivity.
Defined.

(** ** Cells of a well-formed board *)

Lemma py_getitem_nat {A} (l : list A) i x :
  0 ≤ i → l !! Z.to_nat i = Some x → py_getitem l i = Ok x.
Proof.
  intros Hi Hx. unfold py_getitem, py_index.
  pose proof (lookup_lt_Some _ _ _ Hx).
  rewrite (proj2 (Z.leb_le 0 i)), (proj2 (Z.ltb_lt i _)) by lia. simpl.
  by rewrite Hx.
Qed.

Lemma py_setitem_nat {A} (l : list A) i x :
  0 ≤ i < Z.of_nat (length l) → py_setitem l i x = Ok (<[Z.to_nat i := x]> l).
Proof.
  intros Hi. unfold py_setitem, py_index.
  by rewrite (proj2 (Z.leb_le 0 i)), (proj2 (Z.ltb_lt i _)) by lia.
Qed.

Lemma in_bounds_true r c : in_bounds r c = true ↔ (0 ≤ r < 8 ∧ 0 ≤ c < 8).
Proof. unfold in_bounds. rewrite !andb_true_iff. lia. Qed.

Lemma get_cell_intro self r c h b rows l cells v :
  h !! self = Some (OBoard b) →
  h !! board b = Some (OGrid rows) →
  py_getitem rows r = Ok l →
  h !! l = Some (ORow cells) →
  py_getitem cells c = Ok v →
  get_cell self r c h = Ok v.
Proof.
  intros Hb Hg Hl Hc Hv.
  unfold get_cell, mbind, rd_bind, lift, as_board, as_grid, as_row.
  by rewrite Hb, Hg, Hl, Hc.
Qed.

Lemma get_cell_elim self r c h v :
  get_cell self r c h = Ok v →
  ∃ b rows l cells,
    h !! self = Some (OBoard b) ∧ h !! board b = Some (OGrid rows) ∧
    py_getitem rows r = Ok l ∧ h !! l = Some (ORow cells) ∧
    py_getitem cells c = Ok v.
Proof.
  intros H.
  apply rd_bind_Ok in H as (b & Hb%as_board_Ok & H).
  apply rd_bind_Ok in H as (rows & Hg%as_grid_Ok & H).
  apply rd_bind_Ok in H as (l & Hl & H).
  apply rd_bind_Ok in H as (cells & Hc%as_row_Ok & H).
  by exists b, rows, l, cells.
Qed.

(** The row of a well-formed board that holds the cells of row [r]. *)
Lemma shape_row h self b rows r :
  shape_ok h self →
  h !! self = Some (OBoard b) → h !! board b = Some (OGrid rows) →
  0 ≤ r < 8 →
  ∃ l cells, rows !! Z.to_nat r = Some l ∧ h !! l = Some (ORow cells) ∧
             length cells = 8%nat.
Proof.
  intros (b' & rows' & d & Hb & Hg & Hd & Hlen & Hnd & Hall) Hb' Hg' Hr.
  assert (b' = b) as -> by congruence.
  assert (rows' = rows) as -> by congruence.
  destruct (lookup_lt_is_Some_2 rows (Z.to_nat r)) as [l Hl]; [lia|].
  destruct (Forall_lookup_1 _ _ _ _ Hall Hl) as (cells & Hc & Hlc).
  eauto.
Qed.

Lemma get_cell_total h self r c :
  shape_ok h self → in_bounds r c = true → ∃ v, get_cell self r c h = Ok v.
Proof.
  intros Hs [Hr Hc]%in_bounds_true.
  pose proof Hs as (b & rows & d & Hb & Hg & _).
  destruct (shape_row h self b rows r Hs Hb Hg Hr) as (l & cells & Hl & Hcs & Hlen).
  destruct (lookup_lt_is_Some_2 cells (Z.to_nat c)) as [v Hv]; [lia|].
  exists v. eapply get_cell_intro; eauto using py_getitem_nat with lia.
Qed.

(** ** Writes keep a board well-formed *)

Lemma well_shaped_row_closed self : closed (row_write self) (well_shaped self).
Proof.
  intros h h' [b rows l cells i w Hb Hg Hl Hc]
    (b' & rows' & d & Hb' & Hg' & Hd & Hlen & Hnd & Hall).
  assert (b' = b) as -> by congruence.
  assert (rows' = rows) as -> by congruence.
  exists b, rows, d.
  differ l self. differ l (board b). differ l (castling b).
  rewrite !list_lookup_insert_ne by done. repeat split; try done.
  apply Forall_lookup_2. intros j l' Hl'.
  destruct (Forall_lookup_1 _ _ _ _ Hall Hl') as (cells' & Hc' & Hlen').
  destruct (decide (l = l')) as [<-|Hne].
  - simplify_eq. eexists. rewrite list_lookup_insert_eq by (by eapply lookup_lt_Some).
    split; [done|]. by rewrite length_insert.
  - exists cells'. by rewrite list_lookup_insert_ne.
Qed.

Lemma well_shaped_dict_closed self : closed (dict_write self) (well_shaped self).
Proof.
  intros h h' [b d k Hb Hd]
    (b' & rows' & d' & Hb' & Hg' & Hd' & Hlen & Hnd & Hall).
  assert (b' = b) as -> by congruence.
  exists b, rows', (dict_set d k false).
  differ (castling b) self. differ (castling b) (board b).
  rewrite !list_lookup_insert_ne by done.
  rewrite list_lookup_insert_eq by (by eapply lookup_lt_Some).
  repeat split; try done.
  apply Forall_lookup_2. intros j l' Hl'.
  destruct (Forall_lookup_1 _ _ _ _ Hall Hl') as (cells' & Hc' & Hlen').
  differ (castling b) l'. exists cells'. by rewrite list_lookup_insert_ne.
Qed.

Lemma well_shaped_attr_closed self : closed (attr_write self) (well_shaped self).
Proof.
  intros h h' [b t ep Hb]
    (b' & rows' & d' & Hb' & Hg' & Hd' & Hlen & Hnd & Hall).
  assert (b' = b) as -> by congruence.
  eexists _, rows', d'.
  differ self (castling b). differ self (board b).
  rewrite list_lookup_insert_eq by (by eapply lookup_lt_Some).
  split; [done|]. simpl.
  rewrite !list_lookup_insert_ne by done. repeat split; try done.
  apply Forall_lookup_2. intros j l' Hl'.
  destruct (Forall_lookup_1 _ _ _ _ Hall Hl') as (cells' & Hc' & Hlen').
  differ self l'. exists cells'. by rewrite list_lookup_insert_ne.
Qed.

#[local] Hint Resolve well_shaped_row_closed well_shaped_dict_closed
  well_shaped_attr_closed : pres.

(** [make_move] keeps a board well-formed, whatever the move. *)
Lemma make_move_well_shaped self mv : preserves (well_shaped self) (make_move self mv).
Proof. unfold make_move. pres. Qed.

(** ** Reading a cell after a write *)

Lemma cell_is_dict_closed self r c v : closed (dict_write self) (cell_is self r c v).
Proof.
  intros h h' [b d k Hb Hd] (b' & rows & l & cells & Hb' & Hg & Hl & Hc & Hv)%get_cell_elim.
  assert (b' = b) as -> by congruence.
  differ (castling b) self. differ (castling b) (board b). differ (castling b) l.
  eapply get_cell_intro; eauto; by rewrite list_lookup_insert_ne.
Qed.

Lemma cell_is_attr_closed self r c v : closed (attr_write self) (cell_is self r c v).
Proof.
  intros h h' [b t ep Hb] (b' & rows & l & cells & Hb' & Hg & Hl & Hc & Hv)%get_cell_elim.
  assert (b' = b) as -> by congruence.
  differ self (board b). differ self l.
  eapply get_cell_intro; eauto.
  - by rewrite list_lookup_insert_eq by (by eapply lookup_lt_Some).
  - simpl. by rewrite list_lookup_insert_ne.
  - by rewrite list_lookup_insert_ne.
Qed.

#[local] Hint Resolve cell_is_dict_closed cell_is_attr_closed : pres.

(** The assignment [self.board[r][c] = v] on a well-formed board, for a
    square of the board: it returns, the board stays well-formed, the
    cell holds [v], and the other 63 cells keep their content. *)
Lemma set_cell_spec h self r c v :
  shape_ok h self → in_bounds r c = true →
  ∃ h', set_cell self r c v h = (Ok tt, h') ∧
        shape_ok h' self ∧
        get_cell self r c h' = Ok v ∧
        ∀ r' c', in_bounds r' c' = true → (r', c') ≠ (r, c) →
                 get_cell self r' c' h' = get_cell self r' c' h.
Proof.
  intros Hs [Hr Hc]%in_bounds_true.
  pose proof Hs as (b & rows & d & Hb & Hg & Hd & Hlen & Hnd & Hall).
  destruct (shape_row h self b rows r Hs Hb Hg Hr) as (l & cells & Hl & Hcs & Hlc).
  exists (<[l := ORow (<[Z.to_nat c := v]> cells)]> h).
  assert (py_getitem rows r = Ok l) as Hgl by (apply py_getitem_nat; [lia|done]).
  assert (row_write self h (<[l := ORow (<[Z.to_nat c := v]> cells)]> h)) as W.
  { econstructor; eauto. by eapply list_elem_of_lookup_2. }
  differ l self. differ l (board b).
  split; [|split; [|split]].
  - unfold set_cell, mbind, st_bind, read, lift, store, as_board, as_grid, as_row.
    simpl. rewrite Hb. simpl. rewrite Hg. simpl. rewrite Hgl. simpl.
    rewrite Hcs. simpl. rewrite py_setitem_nat by lia. done.
  - eapply well_shaped_row_closed; eauto.
  - eapply get_cell_intro; eauto; try by rewrite list_lookup_insert_ne.
    + by rewrite list_lookup_insert_eq by (by eapply lookup_lt_Some).
    + apply py_getitem_nat; [lia|]. apply list_lookup_insert_eq. lia.
  - intros r' c' [Hr' Hc']%in_bounds_true Hne.
    destruct (shape_row h self b rows r' Hs Hb Hg Hr') as (l' & cells' & Hl' & Hcs' & Hlc').
    destruct (lookup_lt_is_Some_2 cells' (Z.to_nat c')) as [w Hw]; [lia|].
    transitivity (Ok w); [|symmetry].
    2:{ eapply get_cell_intro; eauto using py_getitem_nat with lia. }
    destruct (decide (l' = l)) as [->|Hll].
    + assert (Z.to_nat r' = Z.to_nat r) by (eapply NoDup_lookup; eauto).
      assert (r' = r) as -> by lia. simplify_eq.
      eapply get_cell_intro; eauto; try by rewrite list_lookup_insert_ne.
      * by rewrite list_lookup_insert_eq by (by eapply lookup_lt_Some).
      * apply py_getitem_nat; [lia|]. rewrite list_lookup_insert_ne; [done|].
        intros ?. apply Hne. f_equal. lia.
    + eapply get_cell_intro; eauto using py_getitem_nat with lia;
        by rewrite list_lookup_insert_ne.
Qed.

(** The same, read from a run of [set_cell] that is given. *)
Lemma set_cell_inv h self r c v res h' :
  shape_ok h self → in_bounds r c = true →
  set_cell self r c v h = (res, h') →
  shape_ok h' self ∧ get_cell self r c h' = Ok v ∧
  ∀ r' c', in_bounds r' c' = true → (r', c') ≠ (r, c) →
           get_cell self r' c' h' = get_cell self r' c' h.
Proof.
  intros Hs Hb E.
  destruct (set_cell_spec h self r c v Hs Hb) as (h'' & E' & ?).
  rewrite E in E'. by simplify_eq.
Qed.

Lemma kept_dict_closed self h0 : closed (dict_write self) (kept self h0).
Proof.
  intros h h' W [Hs Hg]. split.
  - by eapply well_shaped_dict_closed.
  - intros r c v Hv. eapply cell_is_dict_closed; [done|]. by apply Hg.
Qed.

Lemma kept_attr_closed self h0 : closed (attr_write self) (kept self h0).
Proof.
  intros h h' W [Hs Hg]. split.
  - by eapply well_shaped_attr_closed.
  - intros r c v Hv. eapply cell_is_attr_closed; [done|]. by apply Hg.
Qed.

#[local] Hint Resolve kept_dict_closed kept_attr_closed : pres.

Lemma kept_refl self h : shape_ok h self → kept self h h.
Proof. intros Hs. split; [done|]. by intros r c v Hv. Qed.

(** Cells of the board read the same in [h] as in [h0]. *)
Lemma kept_get_cell self h0 h r c :
  shape_ok h0 self → kept self h0 h → in_bounds r c = true →
  get_cell self r c h = get_cell self r c h0.
Proof.
  intros Hs0 [Hs Hg] Hb.
  destruct (get_cell_total h0 self r c Hs0 Hb) as [v Hv].
  rewrite Hv. by apply Hg.
Qed.

(** ** A move that only moves a piece *)

(** C10. A move between two distinct squares of the board, from an
    occupied square, that is not flagged as a castle or an en-passant
    capture and does not bring a pawn to row 0 or 7, changes two cells:
    the source becomes empty, the destination holds the piece that
    stood on the source, and the other 62 cells keep their content. *)
Theorem plain_move_changes_two_cells h self mv color p h' :
  shape_ok h self →
  in_bounds (fr mv).1 (fr mv).2 = true →
  in_bounds (to mv).1 (to mv).2 = true →
  fr mv ≠ to mv →
  get_cell self (fr mv).1 (fr mv).2 h = Ok (Piece color p) →
  is_castle mv = false →
  is_en_passant mv = false →
  (p = Pawn → last_row (to mv).1 = false) →
  make_move self mv h = (Ok tt, h') →
  get_cell self (fr mv).1 (fr mv).2 h' = Ok Empty ∧
  get_cell self (to mv).1 (to mv).2 h' = Ok (Piece color p) ∧
  ∀ r c, in_bounds r c = true → (r, c) ≠ fr mv → (r, c) ≠ to mv →
         get_cell self r c h' = get_cell self r c h.
Proof.
  intros Hs Hbf Hbt Hne Hsrc Hcastle Hep Hpromo H. unfold make_move in H.
  rewrite Hcastle, Hep in H.
  destruct (fr mv) as [r1 c1] eqn:Efr, (to mv) as [r2 c2] eqn:Eto. simpl in *.
  apply st_bind_Ok in H as (piece & ? & [Hp ->]%read_Ok & H).
  rewrite Hsrc in Hp. injection Hp as <-.
  apply st_bind_Ok in H as (dest & ? & [_ ->]%read_Ok & H).
  pose proof (kept_refl self h Hs) as K.
  apply st_bind_Ok in H as ([] & h1 & H1 & H). carry (kept self h) H1.
  apply st_bind_Ok in H as ([] & h2 & H2 & H). carry (kept self h) H2.
  apply st_bind_Ok in H as ([] & h3 & H3 & H). carry (kept self h) H3.
  apply st_bind_Ok in H as ([] & h4 & H4 & H). carry (kept self h) H4.
  apply st_bind_Ok in H as ([] & ? & [= <-] & H).
  apply st_bind_Ok in H as ([] & h5 & H5 & H).
  apply set_cell_inv in H5 as (Hs5 & Hfr5 & Hoth5); [|apply H4|done].
  apply st_bind_Ok in H as ([] & h6 & H6 & H).
  apply set_cell_inv in H6 as (Hs6 & Hto6 & Hoth6); [|done..].
  assert ((bool_decide (p = Pawn) && last_row r2) = false) as Hnp.
  { destruct (decide (p = Pawn)) as [->|Hnp].
    - by rewrite Hpromo, andb_false_r.
    - by rewrite bool_decide_eq_false_2. }
  rewrite Hnp in H.
  apply st_bind_Ok in H as ([] & ? & [= <-] & H).
  apply st_bind_Ok in H as ([] & ? & [= <-] & H).
  pose proof (kept_refl self h6 Hs6) as K6.
  apply st_bind_Ok in H as ([] & h7 & H7 & H). carry (kept self h6) H7.
  apply st_bind_Ok in H as (t & ? & [_ ->]%read_Ok & H).
  carry (kept self h6) H.
  rewrite !(kept_get_cell self h6 h') by done.
  split; [|split].
  - rewrite Hoth6; [done..|]. congruence.
  - done.
  - intros r c Hb Hnf Hnt.
    rewrite (kept_get_cell self h6 h'), Hoth6, Hoth5 by done.
    by apply (kept_get_cell self h h4).
Qed.

Lemma shape_okb_sound h self : shape_okb h self = true → shape_ok h self.
Proof.
  unfold shape_okb, shape_ok.
  destruct (h !! self) as [[| | |b]|] eqn:Eb; try discriminate.
  destruct (h !! board b) as [[|rows| |]|] eqn:Eg; try discriminate.
  destruct (h !! castling b) as [[| |d|]|] eqn:Ed; try discriminate.
  rewrite !andb_true_iff, !bool_decide_eq_true, forallb_forall.
  intros [[Hlen Hnd] Hall]. exists b, rows, d. repeat split; try done.
  apply Forall_lookup_2. intros j l Hl.
  specialize (Hall l). rewrite <- list_elem_of_In in Hall.
  specialize (Hall (list_elem_of_lookup_2 _ _ _ Hl)).
  destruct (h !! l) as [[cells| | |]|]; try discriminate.
  apply bool_decide_eq_true in Hall. eauto.
Qed.

Lemma plain_move_changes_two_cells_witness :
  get_cell first_board 6 4 (make_move first_board (plain e2 e4) (after [])).2 = Ok Empty ∧
  get_cell first_board 4 4 (make_move first_board (plain e2 e4) (after [])).2
    = Ok (Piece WHITE Pawn) ∧
  ∀ r c, in_bounds r c = true → (r, c) ≠ e2 → (r, c) ≠ e4 →
         get_cell first_board r c (make_move first_board (plain e2 e4) (after [])).2
         = get_cell first_board r c (after []).
Proof.
  apply (plain_move_changes_two_cells (after []) first_board (plain e2 e4) WHITE Pawn).
  - apply shape_okb_sound. vm_compute. reflexivity.
  - reflexivity.
  - reflexivity.
  - discriminate.
  - vm_compute. reflexivity.
  - reflexivity.
  - reflexivity.
  - reflexivity.
  - vm_compute. reflexivity.
Defined.

(** ** [make_move] returns *)

Lemma safe_ret {A} I (a : A) : safe I (mret a).
Proof. intros h Hh. by exists a, h. Qed.

Lemma safe_bind {A B} I (m : st A) (f : A → st B) :
  safe I m → (∀ a, safe I (f a)) → safe I (m ≫= f).
Proof.
  intros Hm Hf h Hh. destruct (Hm h Hh) as (a & h1 & E & H1).
  destruct (Hf a h1 H1) as (b & h2 & E2 & H2).
  exists b, h2. split; [|done]. unfold mbind, st_bind. by rewrite E.
Qed.

Lemma safe_read {A} I (m : rd A) :
  (∀ h, I h → ∃ a, m h = Ok a) → safe I (read m).
Proof.
  intros Hm h Hh. destruct (Hm h Hh) as [a E].
  exists a, h. unfold read. by rewrite E.
Qed.

Lemma safe_when I b m : (b = true → safe I m) → safe I (when b m).
Proof. destruct b; [auto | intros _; apply safe_ret]. Qed.

Lemma safe_set_cell self r c v :
  in_bounds r c = true → safe (well_shaped self) (set_cell self r c v).
Proof.
  intros Hb h Hs. destruct (set_cell_spec h self r c v Hs Hb) as (h' & E & Hs' & _).
  by exists tt, h'.
Qed.

Lemma safe_primitive {A} self (m : st A) :
  preserves (well_shaped self) m →
  (∀ h, shape_ok h self → ∃ a, (m h).1 = Ok a) →
  safe (well_shaped self) m.
Proof.
  intros Hp Ht h Hs. destruct (Ht h Hs) as [a E]. specialize (Hp h Hs).
  destruct (m h) as [r h'] eqn:Em. simpl in *. subst. by exists a, h'.
Qed.

Lemma safe_set_castling self k :
  safe (well_shaped self) (set_castling self k false).
Proof.
  apply safe_primitive; [pres|].
  intros h (b & rows & d & Hb & Hg & Hd & _).
  unfold set_castling, mbind, st_bind, read, store, as_board, as_dict. simpl.
  rewrite Hb. simpl. rewrite Hd. simpl. eauto.
Qed.

Lemma safe_set_en_passant self v :
  safe (well_shaped self) (set_en_passant self v).
Proof.
  apply safe_primitive; [pres|].
  intros h (b & rows & d & Hb & Hg & Hd & _).
  unfold set_en_passant, mbind, st_bind, read, store, as_board. simpl.
  rewrite Hb. simpl. eauto.
Qed.

Lemma safe_set_turn self v : safe (well_shaped self) (set_turn self v).
Proof.
  apply safe_primitive; [pres|].
  intros h (b & rows & d & Hb & Hg & Hd & _).
  unfold set_turn, mbind, st_bind, read, store, as_board. simpl.
  rewrite Hb. simpl. eauto.
Qed.

Lemma safe_get_cell self r c :
  in_bounds r c = true → safe (well_shaped self) (read (get_cell self r c)).
Proof. intros Hb. apply safe_read. intros h Hs. by apply get_cell_total. Qed.

Lemma safe_get_turn self : safe (well_shaped self) (read (get_turn self)).
Proof.
  apply safe_read. intros h (b & rows & d & Hb & _).
  exists (turn b). apply get_turn_Ok. eauto.
Qed.

Create HintDb safe discriminated.
#[local] Hint Resolve safe_ret safe_set_castling safe_set_en_passant
  safe_set_turn safe_get_turn : safe.
#[local] Hint Extern 1 (safe _ (set_cell _ _ _ _)) =>
  apply safe_set_cell; first [reflexivity | solve [auto]] : safe.
#[local] Hint Extern 1 (safe _ (read (get_cell _ _ _))) =>
  apply safe_get_cell; first [reflexivity | solve [auto]] : safe.

Ltac safe_step :=
  match goal with
  | |- safe _ (_ ≫= _) => apply safe_bind; [| intros ?]
  | |- safe _ (when ?b _) => apply safe_when; intros ?
  | |- safe _ (if bool_decide (?x = ?y) then _ else _) =>
    let E := fresh "E" in
    destruct (decide (x = y)) as [E|E];
    [rewrite (bool_decide_eq_true_2 _ E); try (injection E as -> ->)
    |rewrite (bool_decide_eq_false_2 _ E)]
  | |- safe _ (if ?b then _ else _) => destruct b
  | |- safe _ _ => solve [eauto with safe]
  end.

(** [make_move] returns on a well-formed board when the move goes from
    an occupied square of the board to a square of the board and, if it
    is flagged as an en-passant capture, the square of the captured
    pawn is on the board. *)
Lemma make_move_returns h self mv color p :
  shape_ok h self →
  in_bounds (fr mv).1 (fr mv).2 = true →
  in_bounds (to mv).1 (to mv).2 = true →
  get_cell self (fr mv).1 (fr mv).2 h = Ok (Piece color p) →
  (is_en_passant mv = true →
   in_bounds ((to mv).1 + if decide (color = WHITE) then 1 else -1) (to mv).2 = true) →
  ∃ h', make_move self mv h = (Ok tt, h') ∧ shape_ok h' self.
Proof.
  intros Hs Hbf Hbt Hsrc Hep. unfold make_move.
  destruct (fr mv) as [r1 c1], (to mv) as [r2 c2]. simpl in *.
  unfold mbind at 1, st_bind at 1, read at 1. rewrite Hsrc.
  match goal with |- ∃ h', ?m h = _ ∧ _ =>
    assert (safe (well_shaped self) m) as S end.
  { cbv zeta. repeat safe_step. }
  destruct (S h Hs) as ([] & h' & E & Hs'). eauto.
Qed.

(** ** Promotion *)

Lemma placed_dict_closed self r c v : closed (dict_write self) (placed self r c v).
Proof.
  intros h h' W [Hs Hv]. split.
  - by eapply well_shaped_dict_closed.
  - by eapply cell_is_dict_closed.
Qed.

Lemma placed_attr_closed self r c v : closed (attr_write self) (placed self r c v).
Proof.
  intros h h' W [Hs Hv]. split.
  - by eapply well_shaped_attr_closed.
  - by eapply cell_is_attr_closed.
Qed.

Lemma placed_set_cell_other self r c v r' c' w :
  in_bounds r c = true → in_bounds r' c' = true → (r, c) ≠ (r', c') →
  preserves (placed self r c v) (set_cell self r' c' w).
Proof.
  intros Hb Hb' Hne h [Hs Hv].
  destruct (set_cell self r' c' w h) as [res h'] eqn:E.
  apply set_cell_inv in E as (Hs' & _ & Hoth); [|done..].
  split; [done|]. simpl. by rewrite Hoth.
Qed.

#[local] Hint Resolve placed_dict_closed placed_attr_closed : pres.
#[local] Hint Extern 1 (preserves (placed _ _ _ _) (set_cell _ _ _ _)) =>
  apply placed_set_cell_other; [assumption | reflexivity | congruence] : pres.

Lemma last_row_far_row color : last_row (far_row color) = true.
Proof. by destruct color. Qed.

(** On a well-formed board, [make_move] of a pawn to row 0 or 7 leaves
    on the destination the piece named by [promotion], a queen when
    [promotion] is [None], in the colour of the pawn. *)
Lemma make_move_promotes h self mv color h' :
  shape_ok h self →
  in_bounds (to mv).1 (to mv).2 = true →
  get_cell self (fr mv).1 (fr mv).2 h = Ok (Piece color Pawn) →
  last_row (to mv).1 = true →
  make_move self mv h = (Ok tt, h') →
  get_cell self (to mv).1 (to mv).2 h'
  = Ok (Piece color (default Queen (promotion mv))).
Proof.
  intros Hs Hbt Hsrc Hlast H. unfold make_move in H.
  destruct (fr mv) as [r1 c1] eqn:Efr, (to mv) as [r2 c2] eqn:Eto. simpl in *.
  apply st_bind_Ok in H as (piece & ? & [Hp ->]%read_Ok & H).
  rewrite Hsrc in Hp. injection Hp as <-.
  apply st_bind_Ok in H as (dest & ? & [_ ->]%read_Ok & H).
  change (well_shaped self h) in Hs.
  apply st_bind_Ok in H as ([] & h1 & H1 & H). carry (well_shaped self) H1.
  apply st_bind_Ok in H as ([] & h2 & H2 & H). carry (well_shaped self) H2.
  apply st_bind_Ok in H as ([] & h3 & H3 & H). carry (well_shaped self) H3.
  apply st_bind_Ok in H as ([] & h4 & H4 & H). carry (well_shaped self) H4.
  apply st_bind_Ok in H as ([] & h5 & H5 & H). carry (well_shaped self) H5.
  apply st_bind_Ok in H as ([] & h6 & H6 & H). carry (well_shaped self) H6.
  apply st_bind_Ok in H as ([] & h7 & H7 & H). carry (well_shaped self) H7.
  rewrite Hlast, bool_decide_eq_true_2 in H by done. simpl in H.
  apply st_bind_Ok in H as ([] & h8 & H8 & H).
  apply set_cell_inv in H8 as (Hs8 & Hto8 & _); [|done..].
  assert (placed self r2 c2 (Piece color (default Queen (promotion mv))) h8) as K
    by done.
  apply st_bind_Ok in H as ([] & h9 & H9 & H). carry (placed self r2 c2 (Piece color (default Queen (promotion mv)))) H9.
  apply st_bind_Ok in H as ([] & h10 & H10 & H). carry (placed self r2 c2 (Piece color (default Queen (promotion mv)))) H10.
  apply st_bind_Ok in H as (t & ? & [_ ->]%read_Ok & H).
  carry (placed self r2 c2 (Piece color (default Queen (promotion mv)))) H.
  apply H.
Qed.

(** ** The moves that [generate_pseudo] emits *)

Lemma rd_bind_eq {A B} (m : rd A) (f : A → rd B) h a :
  m h = Ok a → (m ≫= f) h = f a h.
Proof. intros E. unfold mbind, rd_bind. by rewrite E. Qed.

Lemma collect_rd_Forall {A B} (Q : B → Prop) (f : A → rd (list B)) l h ys :
  (∀ x zs, f x h = Ok zs → Forall Q zs) →
  collect_rd f l h = Ok ys → Forall Q ys.
Proof.
  intros Hf. revert ys. induction l as [|x l IH]; simpl; intros ys H.
  - injection H as <-. constructor.
  - apply rd_bind_Ok in H as (zs & Hz & H).
    apply rd_bind_Ok in H as (ws & Hw & H). injection H as <-.
    apply Forall_app. eauto.
Qed.

Lemma collect_rd_elem {A B} (f : A → rd (list B)) l h ys y :
  collect_rd f l h = Ok ys → y ∈ ys →
  ∃ x zs, x ∈ l ∧ f x h = Ok zs ∧ y ∈ zs.
Proof.
  revert ys. induction l as [|x l IH]; simpl; intros ys H Hy.
  - injection H as <-. by apply elem_of_nil in Hy.
  - apply rd_bind_Ok in H as (zs & Hz & H).
    apply rd_bind_Ok in H as (ws & Hw & H). injection H as <-.
    apply elem_of_app in Hy as [Hy|Hy].
    + exists x, zs. split; [left|done].
    + destruct (IH ws Hw Hy) as (x' & zs' & ? & ? & ?).
      exists x', zs'. split; [by right|done].
Qed.

Lemma collect_rd_filter {A B} (P : B → Prop) `{∀ y, Decision (P y)}
    (f : A → rd (list B)) (g : A → list B) l h ys :
  (∀ x zs, x ∈ l → f x h = Ok zs → filter P zs = g x) →
  collect_rd f l h = Ok ys → filter P ys = concat (g <$> l).
Proof.
  revert ys. induction l as [|x l IH]; simpl; intros ys Hf H'.
  - by injection H' as <-.
  - apply rd_bind_Ok in H' as (zs & Hz & H').
    apply rd_bind_Ok in H' as (ws & Hw & H'). injection H' as <-.
    rewrite list.filter_app. f_equal.
    + apply Hf; [left|done].
    + apply IH; [|done]. intros x' zs' Hx'. apply Hf. by right.
Qed.

Lemma knight_moves_from self color r c h zs :
  knight_moves self color r c h = Ok zs → Forall (from_or_castle color (r, c)) zs.
Proof.
  apply collect_rd_Forall. intros [dr dc] ws H.
  apply rd_bind_Ok in H as (ok & _ & H). injection H as <-.
  destruct ok; constructor; [by left | constructor].
Qed.

Lemma slide_from n self color r c rr cc dr dc h zs :
  slide n self color r c rr cc dr dc h = Ok zs →
  Forall (from_or_castle color (r, c)) zs.
Proof.
  revert rr cc zs. induction n as [|n IH]; simpl; intros rr cc zs H.
  - destruct (in_bounds rr cc); [discriminate|]. injection H as <-. constructor.
  - destruct (in_bounds rr cc); [|injection H as <-; constructor].
    apply rd_bind_Ok in H as (e & _ & H). destruct e.
    + apply rd_bind_Ok in H as (rest & Hr & H). injection H as <-.
      constructor; [by left | eauto].
    + apply rd_bind_Ok in H as (ok & _ & H). injection H as <-.
      destruct ok; constructor; [by left | constructor].
Qed.

Lemma slider_moves_from self color p r c h zs :
  slider_moves self color p r c h = Ok zs →
  Forall (from_or_castle color (r, c)) zs.
Proof.
  apply collect_rd_Forall. intros [dr dc] ws H. by eapply slide_from.
Qed.

Lemma castle_from self color k row empties a1 a2 dest by_color a h zs :
  row = castle_row color →
  castle self k row empties a1 a2 dest by_color h = Ok zs →
  Forall (from_or_castle color a) zs.
Proof.
  intros -> H. unfold castle in H.
  apply rd_bind_Ok in H as (ok & _ & H). destruct ok.
  - apply rd_bind_Ok in H as (safe & _ & H). injection H as <-.
    destruct safe; constructor; [by right | constructor].
  - injection H as <-. constructor.
Qed.

Lemma king_moves_from self color r c h zs :
  king_moves self color r c h = Ok zs → Forall (from_or_castle color (r, c)) zs.
Proof.
  intros H. unfold king_moves in H.
  apply rd_bind_Ok in H as (steps & Hsteps & H).
  apply rd_bind_Ok in H as (chk & _ & H).
  apply rd_bind_Ok in H as (castles & Hc & H). injection H as <-.
  apply Forall_app. split.
  - eapply collect_rd_Forall; [|exact Hsteps]. intros [dr dc] ws H.
    apply rd_bind_Ok in H as (ok & _ & H). injection H as <-.
    destruct ok; constructor; [by left | constructor].
  - destruct chk; [injection Hc as <-; constructor|].
    destruct (decide (color = WHITE)) as [->|Hb].
    + apply rd_bind_Ok in Hc as (ks & Hk & Hc).
      apply rd_bind_Ok in Hc as (qs & Hq & Hc). injection Hc as <-.
      apply Forall_app; split; eapply castle_from; eauto.
    + apply rd_bind_Ok in Hc as (ks & Hk & Hc).
      apply rd_bind_Ok in Hc as (qs & Hq & Hc). injection Hc as <-.
      assert (0 = castle_row color) by (unfold castle_row; by destruct color).
      apply Forall_app; split; eapply castle_from; eauto.
Qed.

(** The moves of a pawn, listed: the pushes, the captures to the left
    and to the right, the en-passant capture. *)
Lemma pawn_moves_shape self color r c h zs :
  pawn_moves self color r c h = Ok zs →
  let dir := if decide (color = WHITE) then -1 else 1 in
  let rr := r + dir in
  let arrive cc := if last_row rr then promotions (r, c) (rr, cc)
                   else [plain (r, c) (rr, cc)] in
  ∃ pushes capl capr ep,
    zs = pushes ++ (capl ++ capr ++ []) ++
         match ep with
         | Some (er, ec) =>
           if (er =? rr) && (Z.abs (ec - c) =? 1)
           then [mkMove (r, c) (er, ec) None false true] else []
         | None => []
         end ∧
    get_en_passant self h = Ok ep ∧
    (pushes = [] ∨ pushes = arrive c ∨
     (pushes = arrive c ++ [plain (r, c) (r + 2 * dir, c)] ∧
      (r = 6 ∧ color = WHITE ∨ r = 1 ∧ color = BLACK))) ∧
    (capl = [] ∨ capl = arrive (c + -1)) ∧
    (capr = [] ∨ capr = arrive (c + 1)).
Proof.
  intros H. unfold pawn_moves in H. cbv zeta in H.
  apply rd_bind_Ok in H as (free & _ & H).
  apply rd_bind_Ok in H as (pushes & Hpush & H).
  apply rd_bind_Ok in H as (caps & Hcaps & H).
  apply rd_bind_Ok in H as (ep & Hep & H). injection H as <-.
  simpl in Hcaps.
  apply rd_bind_Ok in Hcaps as (capl & Hl & Hcaps).
  apply rd_bind_Ok in Hcaps as (rest & Hr & Hcaps). injection Hcaps as <-.
  apply rd_bind_Ok in Hr as (capr & Hr & Hrest).
  apply rd_bind_Ok in Hrest as (nil & Hnil & Hrest).
  injection Hnil as <-. injection Hrest as <-.
  exists pushes, capl, capr, ep. simpl. repeat split; try done.
  - destruct free; [|injection Hpush as <-; by left].
    destruct ((r =? 6) && bool_decide (color = WHITE)
              || (r =? 1) && bool_decide (color = BLACK)) eqn:E.
    + apply rd_bind_Ok in Hpush as (e & _ & Hpush). injection Hpush as <-.
      destruct e; [|rewrite app_nil_r; by right; left].
      right; right. split; [done|].
      apply orb_prop in E as [E|E]; apply andb_prop in E as [E1 E2];
        apply Z.eqb_eq in E1; apply bool_decide_eq_true in E2; auto.
    + injection Hpush as <-. by right; left.
  - apply rd_bind_Ok in Hl as (hit & _ & Hl). injection Hl as <-.
    destruct hit; auto.
  - apply rd_bind_Ok in Hr as (hit & _ & Hr). injection Hr as <-.
    destruct hit; auto.
Qed.

Lemma elem_of_promotions m a b : m ∈ promotions a b → fr m = a ∧ to m = b.
Proof.
  unfold promotions. simpl. rewrite !elem_of_cons, elem_of_nil.
  intros [->|[->|[->|[->|[]]]]]; done.
Qed.

Lemma filter_promotions a b b' :
  filter (same_squares a b) (promotions a b')
  = if decide (b' = b) then promotions a b' else [].
Proof.
  unfold promotions. simpl. rewrite !filter_cons, filter_nil.
  unfold same_squares. simpl.
  destruct (decide (b' = b)) as [->|Hne]; repeat case_decide; try done; tauto.
Qed.

Lemma far_row_cases color : far_row color = 0 ∧ color = WHITE ∨ far_row color = 7 ∧ color = BLACK.
Proof. destruct color; [left|right]; done. Qed.

(** A pawn move to the farthest rank comes with its three siblings:
    among the moves of the pawn, those between the same two squares are
    the four promotions, once each. *)
Lemma pawn_moves_promotions self color r c h zs mv :
  ep_ok h self →
  pawn_moves self color r c h = Ok zs →
  mv ∈ zs → (to mv).1 = far_row color →
  fr mv = (r, c) ∧
  filter (same_squares (r, c) (to mv)) zs = promotions (r, c) (to mv).
Proof.
  intros Hep H Hmv Hfar.
  destruct (pawn_moves_shape _ _ _ _ _ _ H)
    as (pushes & capl & capr & ep & -> & Hget & Hp & Hl & Hr).
  cbv zeta in *.
  set (dir := if decide (color = WHITE) then -1 else 1) in *.
  assert (dir = -1 ∧ color = WHITE ∨ dir = 1 ∧ color = BLACK) as Hdir
    by (unfold dir; destruct color; [left|right]; done).
  pose proof (far_row_cases color) as Hfc.
  unfold ep_ok in Hep. rewrite Hget in Hep.
  (* the pawn stands next to its farthest rank *)
  assert (r + dir = far_row color) as Hrr.
  { rewrite !elem_of_app in Hmv.
    destruct Hmv as [Hmv|[[Hmv|[Hmv|Hmv]]|Hmv]].
    - destruct Hp as [->|[->|[-> Hstart]]].
      + by apply elem_of_nil in Hmv.
      + destruct (last_row _);
          [apply elem_of_promotions in Hmv as [_ E]
          |apply list_elem_of_singleton in Hmv as ->; simpl in Hfar; lia].
        rewrite E in Hfar. simpl in Hfar. lia.
      + apply elem_of_app in Hmv as [Hmv|Hmv].
        * destruct (last_row _);
            [apply elem_of_promotions in Hmv as [_ E]; rewrite E in Hfar
            |apply list_elem_of_singleton in Hmv as ->]; simpl in Hfar; lia.
        * apply list_elem_of_singleton in Hmv as ->. simpl in Hfar. lia.
    - destruct Hl as [->| ->]; [by apply elem_of_nil in Hmv|].
      destruct (last_row _);
        [apply elem_of_promotions in Hmv as [_ E]; rewrite E in Hfar
        |apply list_elem_of_singleton in Hmv as ->]; simpl in Hfar; lia.
    - destruct Hr as [->| ->]; [by apply elem_of_nil in Hmv|].
      destruct (last_row _);
        [apply elem_of_promotions in Hmv as [_ E]; rewrite E in Hfar
        |apply list_elem_of_singleton in Hmv as ->]; simpl in Hfar; lia.
    - by apply elem_of_nil in Hmv.
    - destruct ep as [[er ec]|]; [|by apply elem_of_nil in Hmv].
      destruct ((er =? r + dir) && (Z.abs (ec - c) =? 1)) eqn:E;
        [|by apply elem_of_nil in Hmv].
      apply list_elem_of_singleton in Hmv as ->. simpl in Hfar.
      apply andb_prop in E as [E%Z.eqb_eq _]. lia. }
  rewrite Hrr in *. rewrite last_row_far_row in *.
  (* no en-passant capture onto the farthest rank, no double push *)
  assert (match ep with
          | Some (er, ec) =>
            if (er =? far_row color) && (Z.abs (ec - c) =? 1)
            then [mkMove (r, c) (er, ec) None false true] else []
          | None => []
          end = []) as Hnoep.
  { destruct ep as [[er ec]|]; [|done].
    destruct (er =? far_row color) eqn:E; [|done].
    apply Z.eqb_eq in E. lia. }
  rewrite Hnoep in *. rewrite !app_nil_r in *.
  assert (pushes = [] ∨ pushes = promotions (r, c) (far_row color, c)) as Hp'.
  { destruct Hp as [->|[->|[-> Hstart]]]; auto. exfalso.
    destruct Hstart as [[? ->]|[? ->]], Hdir as [[? ?]|[? ?]], Hfc as [[? ?]|[? ?]];
      try discriminate; lia. }
  clear Hp Hnoep Hep Hget.
  (* the move is one of at most three groups of four *)
  assert (∃ cc, (cc = c ∨ cc = c + -1 ∨ cc = c + 1) ∧
                mv ∈ promotions (r, c) (far_row color, cc)) as (cc & Hcc & Hin).
  { rewrite !elem_of_app in Hmv. destruct Hmv as [Hmv|[Hmv|Hmv]].
    - destruct Hp' as [->| ->]; [by apply elem_of_nil in Hmv|]. eauto.
    - destruct Hl as [->| ->]; [by apply elem_of_nil in Hmv|]. eauto 6.
    - destruct Hr as [->| ->]; [by apply elem_of_nil in Hmv|]. eauto 6. }
  pose proof (elem_of_promotions _ _ _ Hin) as [Hfr Hto].
  split; [done|]. rewrite Hto.
  assert (∀ X cc', (X = [] ∨ X = promotions (r, c) (far_row color, cc')) →
            mv ∈ X ∨ cc' ≠ cc →
            filter (same_squares (r, c) (far_row color, cc)) X
            = if decide (cc' = cc) then promotions (r, c) (far_row color, cc) else [])
    as Hgroup.
  { intros X cc' [->| ->] Hor.
    - case_decide; [|done]. subst. destruct Hor as [Hor|?]; [|done].
      by apply elem_of_nil in Hor.
    - rewrite filter_promotions. repeat case_decide; try done; congruence. }
  assert (∀ X cc', (X = [] ∨ X = promotions (r, c) (far_row color, cc')) →
            mv ∈ X → cc = cc') as Hwhere.
  { intros X cc' [->| ->] Hx; [by apply elem_of_nil in Hx|].
    apply elem_of_promotions in Hx as [_ E]. rewrite Hto in E. by injection E. }
  rewrite !elem_of_app in Hmv.
  assert (mv ∈ pushes ∨ c ≠ cc) as H1.
  { destruct Hmv as [?|[Hmv|Hmv]]; [by left|right..];
      [rewrite (Hwhere _ _ Hl Hmv) | rewrite (Hwhere _ _ Hr Hmv)]; lia. }
  assert (mv ∈ capl ∨ c + -1 ≠ cc) as H2.
  { destruct Hmv as [Hmv|[?|Hmv]]; [right|by left|right];
      [rewrite (Hwhere _ _ Hp' Hmv) | rewrite (Hwhere _ _ Hr Hmv)]; lia. }
  assert (mv ∈ capr ∨ c + 1 ≠ cc) as H3.
  { destruct Hmv as [Hmv|[Hmv|?]]; [right|right|by left];
      [rewrite (Hwhere _ _ Hp' Hmv) | rewrite (Hwhere _ _ Hl Hmv)]; lia. }
  rewrite !list.filter_app.
  rewrite (Hgroup pushes c Hp' H1), (Hgroup capl _ Hl H2), (Hgroup capr _ Hr H3).
  destruct Hcc as [->|[->| ->]]; repeat case_decide; try lia;
    by rewrite ?app_nil_r.
Qed.

Lemma pawn_moves_from self color r c h zs :
  pawn_moves self color r c h = Ok zs → Forall (from_or_castle color (r, c)) zs.
Proof.
  intros H.
  destruct (pawn_moves_shape _ _ _ _ _ _ H)
    as (pushes & capl & capr & ep & -> & _ & Hp & Hl & Hr).
  cbv zeta in *.
  assert (∀ b, Forall (from_or_castle color (r, c)) (promotions (r, c) b)) as Hpro
    by (intros b; repeat constructor).
  assert (∀ b, Forall (from_or_castle color (r, c)) [plain (r, c) b]) as Hpl
    by (intros b; repeat constructor).
  rewrite !Forall_app. repeat split.
  - destruct Hp as [->|[->|[-> _]]]; [constructor|..];
      rewrite ?Forall_app; repeat split; destruct (last_row _); auto.
  - destruct Hl as [->| ->]; [constructor|]. destruct (last_row _); auto.
  - destruct Hr as [->| ->]; [constructor|]. destruct (last_row _); auto.
  - constructor.
  - destruct ep as [[er ec]|]; [|constructor].
    destruct (_ && _); repeat constructor.
Qed.

Lemma moves_from_from self color r c h zs :
  moves_from self color r c h = Ok zs → Forall (from_or_castle color (r, c)) zs.
Proof.
  intros H. unfold moves_from in H.
  apply rd_bind_Ok in H as (col & _ & H).
  destruct (bool_decide _); [injection H as <-; constructor|].
  apply rd_bind_Ok in H as (v & _ & H).
  destruct v as [|col' k]; [discriminate|].
  destruct k; eauto using pawn_moves_from, knight_moves_from, king_moves_from,
    slider_moves_from.
Qed.

Lemma filter_none {A} (P : A → Prop) `{∀ x, Decision (P x)} (l : list A) :
  Forall (λ x, ¬ P x) l → filter P l = [].
Proof.
  induction 1 as [|x l Hx _ IH]; [done|]. by rewrite filter_cons_False.
Qed.

Lemma concat_at_square (a : square) (X : list Move) :
  a.1 ∈ range8 → a.2 ∈ range8 →
  concat ((λ r, concat ((λ c, if decide ((r, c) = a) then X else []) <$> range8))
          <$> range8) = X.
Proof.
  destruct a as [r c]. unfold range8. simpl fst. simpl snd.
  rewrite !elem_of_cons, !elem_of_nil. intros Hr Hc.
  repeat (destruct Hr as [->|Hr]; [|]); try done;
    repeat (destruct Hc as [->|Hc]; [|]); try done;
    cbv -[app]; simpl; by rewrite ?app_nil_r.
Qed.

Lemma moves_from_pawn self color r c h :
  get_cell self r c h = Ok (Piece color Pawn) →
  moves_from self color r c h = pawn_moves self color r c h.
Proof.
  intros Hv. unfold moves_from, color_at, piece.
  rewrite (rd_bind_eq _ _ h (Some color)).
  - rewrite bool_decide_eq_false_2 by (intros Hne; by apply Hne).
    by rewrite (rd_bind_eq _ _ h _ Hv).
  - by rewrite (rd_bind_eq _ _ h _ (rd_bind_eq _ _ h _ Hv)).
Qed.

Lemma castle_row_not_far color : castle_row color ≠ far_row color.
Proof. by destruct color. Qed.

(** Among all pseudo-legal moves, those between the squares of a pawn
    move to the farthest rank are the four promotions, once each. *)
Lemma generate_pseudo_promotions self color h ms mv :
  ep_ok h self →
  generate_pseudo self color h = Ok ms →
  mv ∈ ms →
  get_cell self (fr mv).1 (fr mv).2 h = Ok (Piece color Pawn) →
  (to mv).1 = far_row color →
  filter (same_squares (fr mv) (to mv)) ms = promotions (fr mv) (to mv).
Proof.
  intros Hep Hgen Hmv Hsrc Hfar.
  pose proof (castle_row_not_far color) as Hrows.
  (* the square that the move was generated from is its source *)
  destruct (collect_rd_elem _ _ _ _ _ Hgen Hmv) as (r0 & zr & Hr0 & Hzr & Hmv1).
  destruct (collect_rd_elem _ _ _ _ _ Hzr Hmv1) as (c0 & zs0 & Hc0 & Hzs0 & Hmv0).
  pose proof (moves_from_from _ _ _ _ _ _ Hzs0) as Hfrom.
  rewrite list.Forall_forall in Hfrom.
  destruct (Hfrom mv Hmv0) as [Hfr|Hcr]; [|congruence].
  rewrite Hfr in *. simpl in Hsrc.
  rewrite (moves_from_pawn _ _ _ _ _ Hsrc) in Hzs0.
  destruct (pawn_moves_promotions _ _ _ _ _ _ _ Hep Hzs0 Hmv0 Hfar) as [_ Hfour].
  (* square by square *)
  transitivity
    (concat ((λ r, concat ((λ c, if decide ((r, c) = (r0, c0))
                                 then promotions (r0, c0) (to mv) else [])
                           <$> range8)) <$> range8));
    [|by apply concat_at_square].
  eapply collect_rd_filter; [|exact Hgen]. intros r zr' Hr Hzr'. cbv beta in *.
  eapply (collect_rd_filter _ _
            (λ c, if decide ((r, c) = (r0, c0))
                  then promotions (r0, c0) (to mv) else [])); [|exact Hzr'].
  intros c zs Hc Hzs. cbv beta in *.
  destruct (decide ((r, c) = (r0, c0))) as [[= -> ->]|Hne].
  - rewrite (moves_from_pawn _ _ _ _ _ Hsrc), Hzs0 in Hzs. by injection Hzs as <-.
  - apply filter_none.
    eapply Forall_impl; [|exact (moves_from_from _ _ _ _ _ _ Hzs)].
    intros m [Hm|Hm] [Hs1 Hs2]; [congruence|]. rewrite Hs2 in Hm. congruence.
Qed.

(** ** Promotion is complete *)

(** C7. On a well-formed board, take a move of a pawn of [color] to
    the farthest rank. If [generate_pseudo] emits it, then the moves it
    emits between the same two squares are exactly the four promotions
    to queen, rook, bishop and knight, each once. And [make_move]
    applied to it leaves on the destination a piece of [color] of the
    kind [promotion], a queen when [promotion] is [None]. *)
Theorem promotion_complete h self color mv :
  board_ok h self →
  get_cell self (fr mv).1 (fr mv).2 h = Ok (Piece color Pawn) →
  (to mv).1 = far_row color →
  (∀ ms, generate_pseudo self color h = Ok ms → mv ∈ ms →
         filter (same_squares (fr mv) (to mv)) ms = promotions (fr mv) (to mv)) ∧
  (∀ h', in_bounds (to mv).1 (to mv).2 = true →
         make_move self mv h = (Ok tt, h') →
         get_cell self (to mv).1 (to mv).2 h'
         = Ok (Piece color (default Queen (promotion mv)))).
Proof.
  intros [Hs Hep] Hsrc Hfar. split.
  - intros ms Hgen Hmv. by eapply generate_pseudo_promotions.
  - intros h' Hb H. eapply make_move_promotes; eauto.
    rewrite Hfar. apply last_row_far_row.
Qed.

Lemma promotion_complete_witness :
  ∃ ms h',
    let h := after [plain (6,7) (4,7); plain a7 a6; plain (4,7) (3,7);
                    plain a6 (3,0); plain (3,7) (2,7); plain (3,0) (4,0);
                    plain (2,7) (1,6); plain (4,0) (5,0)] in
    let mv := mkMove (1,6) (0,7) (Some Knight) false false in
    generate_pseudo first_board WHITE h = Ok ms ∧ mv ∈ ms ∧
    make_move first_board mv h = (Ok tt, h') ∧
    filter (same_squares (1,6) (0,7)) ms = promotions (1,6) (0,7) ∧
    get_cell first_board 0 7 h' = Ok (Piece WHITE Knight).
Proof.
  eexists _, _. cbv zeta.
  split; [vm_compute; reflexivity|].
  split; [apply (bool_decide_unpack _); vm_compute; exact I|].
  split; [vm_compute; reflexivity|].
  match goal with |- filter _ ?ms = _ ∧ get_cell _ _ _ ?h' = _ =>
    destruct (promotion_complete
      (after [plain (6,7) (4,7); plain a7 a6; plain (4,7) (3,7);
              plain a6 (3,0); plain (3,7) (2,7); plain (3,0) (4,0);
              plain (2,7) (1,6); plain (4,0) (5,0)])
      first_board WHITE (mkMove (1,6) (0,7) (Some Knight) false false))
      as [Hgen Hmove]
  end.
  - split; [apply shape_okb_sound; vm_compute; reflexivity | vm_compute; lia].
  - vm_compute. reflexivity.
  - reflexivity.
  - split.
    + apply Hgen; [vm_compute; reflexivity|].
      apply (bool_decide_unpack _). vm_compute. exact I.
    + apply Hmove; [reflexivity | vm_compute; reflexivity].
Defined.

(** * The engine on given games *)

(** C5. On the board that [Board()] builds, with white to move, the
    four castling rights set and no en-passant target, [legal_moves] for
    white returns 20 moves. *)
Theorem initial_position_has_20_moves :
  ∃ self h ms,
    Board_new [] = (Ok self, h) ∧
    get_turn self h = Ok WHITE ∧
    (∀ k, get_castling self k h = Ok true) ∧
    get_en_passant self h = Ok None ∧
    (legal_moves self WHITE h).1 = Ok ms ∧
    length ms = 20%nat.
Proof.
  eexists _, _, _.
  split; [vm_compute; reflexivity|].
  split; [vm_compute; reflexivity|].
  split; [intros []; vm_compute; reflexivity|].
  split; [vm_compute; reflexivity|].
  split; [vm_compute; reflexivity|].
  reflexivity.
Qed.

(** C4. The moves f2f3, e7e5, g2g4, d8h4 are legal from the initial
    position, and after [make_move] has applied them white has no legal
    move and is in check. *)
Theorem fools_mate :
  legal_game [plain f2 f3; plain e7 e5; plain g2 g4; plain d8 h4] = true ∧
  ∃ self h,
    game [plain f2 f3; plain e7 e5; plain g2 g4; plain d8 h4] [] = (Ok self, h) ∧
    (legal_moves self WHITE h).1 = Ok [] ∧
    in_check self WHITE h = Ok true.
Proof.
  split; [vm_compute; reflexivity|].
  eexists _, _.
  split; [vm_compute; reflexivity|].
  split; vm_compute; reflexivity.
Qed.

(** C1 fails on the code. After the legal moves e2e4, a7a6, e4e5 the
    white pawn on e5 stands one rank behind d6 on an adjacent file, and
    [is_attacked] answers [False] for d6; it stands in front of d4, not
    behind it, and the pawn clause fires for d4. *)
Theorem pawn_clause_looks_the_wrong_way :
  legal_game [plain e2 e4; plain a7 a6; plain e4 e5] = true ∧
  ∃ self h,
    game [plain e2 e4; plain a7 a6; plain e4 e5] [] = (Ok self, h) ∧
    get_cell self 3 4 h = Ok (Piece WHITE Pawn) ∧
    spec_pawn_attack self 2 3 WHITE h = Ok true ∧
    is_attacked self 2 3 WHITE h = Ok false ∧
    spec_pawn_attack self 4 3 WHITE h = Ok false ∧
    pawn_clause self 4 3 WHITE h = Ok true ∧
    is_attacked self 4 3 WHITE h = Ok true.
Proof.
  split; [vm_compute; reflexivity|].
  eexists _, _.
  split; [vm_compute; reflexivity|].
  repeat split; vm_compute; reflexivity.
Qed.

(** C2 fails on the code. After the legal moves e2e4, d7d5, e1e2, d5d4
    the list [legal_moves] for white has the king move e2e3, and after
    it the white king stands on e3 where the black pawn on d4 attacks
    it. *)
Theorem legal_move_into_pawn_check :
  legal_game [plain e2 e4; plain d7 d5; plain e1 e2; plain d5 d4] = true ∧
  ∃ self h ms h',
    game [plain e2 e4; plain d7 d5; plain e1 e2; plain d5 d4] [] = (Ok self, h) ∧
    (legal_moves self WHITE h).1 = Ok ms ∧
    plain e2 e3 ∈ ms ∧
    make_move self (plain e2 e3) h = (Ok tt, h') ∧
    king_pos self WHITE h' = Ok (Some e3) ∧
    get_cell self 4 3 h' = Ok (Piece BLACK Pawn) ∧
    spec_pawn_attack self 5 4 BLACK h' = Ok true ∧
    in_check self WHITE h' = Ok false.
Proof.
  split; [vm_compute; reflexivity|].
  eexists _, _, _, _.
  split; [vm_compute; reflexivity|].
  split; [vm_compute; reflexivity|].
  split; [apply (bool_decide_unpack _); vm_compute; exact I|].
  split; [vm_compute; reflexivity|].
  repeat split; vm_compute; reflexivity.
Qed.

(** C3 fails on the code. After the legal moves g1f3, h7h5, e2e4, h5h4,
    f1e2, h4h3, a2a3, h3g2 white still has the king-side castling right,
    the black pawn on g2 attacks f1, the square the white king passes
    through, and [legal_moves] for white has the king-side castling
    move. *)
Theorem castling_through_pawn_attack :
  legal_game [plain g1 f3; plain h7 h5; plain e2 e4; plain h5 h4;
              plain f1 e2; plain h4 h3; plain a2 a3; plain h3 g2] = true ∧
  ∃ self h ms,
    game [plain g1 f3; plain h7 h5; plain e2 e4; plain h5 h4;
          plain f1 e2; plain h4 h3; plain a2 a3; plain h3 g2] [] = (Ok self, h) ∧
    get_cell self 6 6 h = Ok (Piece BLACK Pawn) ∧
    spec_pawn_attack self 7 5 BLACK h = Ok true ∧
    is_attacked self 7 5 BLACK h = Ok false ∧
    (legal_moves self WHITE h).1 = Ok ms ∧
    mkMove e1 g1 None true false ∈ ms.
Proof.
  split; [vm_compute; reflexivity|].
  eexists _, _, _.
  split; [vm_compute; reflexivity|].
  split; [vm_compute; reflexivity|].
  split; [vm_compute; reflexivity|].
  split; [vm_compute; reflexivity|].
  split; [vm_compute; reflexivity|].
  apply (bool_decide_unpack _). vm_compute. exact I.
Qed.

(** * Clones *)

(** ** Computations that stay clear of the objects of an earlier store *)

Lemma apart_start h : apart (length h) h h.
Proof.
  split; [apply firstn_all|]. split; [done|].
  intros l o Hl Ho. apply lookup_lt_Some in Ho. lia.
Qed.

Lemma apart_length n h0 h : apart n h0 h → (n ≤ length h)%nat.
Proof.
  intros (Ht & Hn & _). rewrite <- Hn, <- Ht, length_take. lia.
Qed.

Lemma apart_prefix n h0 h : apart n h0 h → h0 `prefix_of` h.
Proof. intros (<- & _). exists (drop n h). by rewrite take_drop. Qed.

Lemma confined_ret {A} n h0 (a : A) (Q : A → Prop) : Q a → confined n h0 (mret a) Q.
Proof. intros HQ h Hh. split; [done|]. by intros ? [= <-]. Qed.

Lemma confined_read {A} n h0 (m : rd A) : confined n h0 (read m) (λ _, True).
Proof. intros h Hh. done. Qed.

Lemma confined_bind {A B} n h0 (m : st A) (f : A → st B) Q R :
  confined n h0 m Q → (∀ a, Q a → confined n h0 (f a) R) →
  confined n h0 (m ≫= f) R.
Proof.
  intros Hm Hf h Hh. destruct (Hm h Hh) as [H1 HQ].
  unfold mbind, st_bind. destruct (m h) as [[a|e] h1]; simpl in *.
  - by apply Hf; auto.
  - split; [done|]. by intros ? [=].
Qed.

Lemma confined_preserves {A} n h0 (m : st A) :
  preserves (apart n h0) m → confined n h0 m (λ _, True).
Proof. intros Hm h Hh. split; [by apply Hm|done]. Qed.

Lemma confined_alloc n h0 o :
  refs_from n o → confined n h0 (alloc o) (λ l, (n ≤ l)%nat).
Proof.
  intros Ho h Hh. pose proof (apart_length _ _ _ Hh) as Hlen.
  destruct Hh as (Ht & Hn & Hrefs). unfold alloc. simpl. split.
  - split; [by rewrite take_app_le|]. split; [done|].
    intros l o' Hl [Hlo|[Hlo Heq]]%lookup_app_Some; [eauto|].
    apply list_lookup_singleton_Some in Heq as [_ <-]. done.
  - by intros a [= <-].
Qed.

Lemma confined_map_st {A} n h0 (f : A → st loc) l :
  (∀ x, confined n h0 (f x) (λ y, (n ≤ y)%nat)) →
  confined n h0 (map_st f l) (Forall (λ y, (n ≤ y)%nat)).
Proof.
  intros Hf. induction l as [|x l IH]; simpl.
  - by apply confined_ret.
  - eapply confined_bind; [apply Hf|]. intros y Hy.
    eapply confined_bind; [apply IH|]. intros ys Hys.
    apply confined_ret. by constructor.
Qed.

(** A write to an added object, by an object that refers to added
    objects only. *)
Lemma apart_insert n h0 h l o :
  (n ≤ l)%nat → refs_from n o → apart n h0 h → apart n h0 (<[l := o]> h).
Proof.
  intros Hl Ho (Ht & Hn & Hrefs). split; [by rewrite take_insert_ge|].
  split; [done|]. intros l' o' Hl' Hlook.
  apply list_lookup_insert_Some in Hlook as [(-> & <- & _)|[_ ?]]; eauto.
Qed.

Lemma apart_row_closed n h0 self :
  (n ≤ self)%nat → closed (row_write self) (apart n h0).
Proof.
  intros Hself h h' [b rows l cells i w Hb Hg Hl Hc] Hh.
  pose proof Hh as (_ & _ & Hrefs).
  destruct (Hrefs _ _ Hself Hb) as [Hgn _].
  pose proof (Hrefs _ _ Hgn Hg) as Hrows. simpl in Hrows.
  rewrite list.Forall_forall in Hrows.
  apply apart_insert; [by apply Hrows | done | done].
Qed.

Lemma apart_dict_closed n h0 self :
  (n ≤ self)%nat → closed (dict_write self) (apart n h0).
Proof.
  intros Hself h h' [b d k Hb Hd] Hh.
  pose proof Hh as (_ & _ & Hrefs).
  destruct (Hrefs _ _ Hself Hb) as [_ Hdn].
  by apply apart_insert.
Qed.

Lemma apart_attr_closed n h0 self :
  (n ≤ self)%nat → closed (attr_write self) (apart n h0).
Proof.
  intros Hself h h' [b t ep Hb] Hh.
  pose proof Hh as (_ & _ & Hrefs).
  apply apart_insert; [done | | done]. apply (Hrefs _ _ Hself Hb).
Qed.

#[local] Hint Resolve apart_row_closed apart_dict_closed apart_attr_closed : pres.

(** [make_move] on an added board leaves the earlier store alone. *)
Lemma make_move_apart n h0 self mv :
  (n ≤ self)%nat → preserves (apart n h0) (make_move self mv).
Proof. intros Hself. unfold make_move. pres. Qed.

Lemma set_cell_apart n h0 self r c v :
  (n ≤ self)%nat → preserves (apart n h0) (set_cell self r c v).
Proof. intros Hself. pres. Qed.

Lemma set_ref_apart n h0 self (mk : BoardObj → BoardObj) :
  (n ≤ self)%nat → (∀ b, refs_from n (OBoard b) → refs_from n (OBoard (mk b))) →
  preserves (apart n h0) (b ← read (as_board self); store self (OBoard (mk b))).
Proof.
  intros Hself Hmk h Hh. unfold mbind, st_bind, read, store. simpl.
  destruct (as_board self h) as [b|] eqn:Eb; [|done]. simpl.
  apply as_board_Ok in Eb. pose proof Hh as (_ & _ & Hrefs).
  apply apart_insert; [done| |done]. apply Hmk, (Hrefs _ _ Hself Eb).
Qed.

Lemma Board_new_confined n h0 :
  confined n h0 Board_new (λ self, (n ≤ self)%nat).
Proof.
  unfold Board_new.
  eapply confined_bind;
    [apply confined_map_st; intros; by apply confined_alloc|]. intros rows Hrows.
  eapply confined_bind; [by apply confined_alloc|]. intros g Hg.
  eapply confined_bind; [by apply confined_alloc|]. intros d Hd.
  eapply confined_bind; [by apply confined_alloc|]. intros self Hself.
  eapply confined_bind; [|intros _ _; by apply confined_ret].
  apply confined_preserves. unfold _setup.
  pose proof (set_cell_apart n h0 self) as Hset. pres.
Qed.

(** [clone] adds objects and writes to added objects only; the clone
    is one of them. *)
Lemma clone_confined n h0 self :
  confined n h0 (clone self) (λ b, (n ≤ b)%nat).
Proof.
  unfold clone.
  eapply confined_bind; [apply Board_new_confined|]. intros b Hb.
  eapply confined_bind; [apply confined_read|]. intros src _.
  eapply confined_bind; [apply confined_read|]. intros rows _.
  eapply confined_bind.
  { apply confined_map_st. intros l.
    eapply confined_bind; [apply confined_read|]. intros cells _.
    by apply confined_alloc. }
  intros rows' Hrows'.
  eapply confined_bind; [by apply confined_alloc|]. intros g Hg.
  eapply confined_bind.
  { apply confined_preserves, (set_ref_apart n h0 b
      (λ o, mkBoard g (turn o) (castling o) (en_passant o))); [done|].
    intros o [_ ?]. by split. }
  intros _ _.
  eapply confined_bind; [apply confined_read|]. intros t _.
  eapply confined_bind; [apply confined_preserves; pres|]. intros _ _.
  eapply confined_bind; [apply confined_read|]. intros src' _.
  eapply confined_bind; [apply confined_read|]. intros d _.
  eapply confined_bind; [by apply confined_alloc|]. intros d' Hd'.
  eapply confined_bind.
  { apply confined_preserves, (set_ref_apart n h0 b
      (λ o, mkBoard (board o) (turn o) d' (en_passant o))); [done|].
    intros o [? _]. by split. }
  intros _ _.
  eapply confined_bind; [apply confined_read|]. intros ep _.
  eapply confined_bind; [apply confined_preserves; pres|]. intros _ _.
  by apply confined_ret.
Qed.

(** The loop of [legal_moves] leaves the objects of the store it starts
    from as they are: it only adds objects. *)
Lemma legal_loop_grows self color pseudo out h :
  h `prefix_of` (legal_loop self color pseudo out h).2.
Proof.
  revert out h. induction pseudo as [|mv pseudo IH]; intros out h; simpl.
  - done.
  - pose proof (apart_start h) as Hh. set (n := length h) in *.
    destruct (clone_confined n h self h Hh) as [H1 Hb].
    unfold mbind at 1, st_bind at 1.
    destruct (clone self h) as [[b|e] h1]; simpl in *;
      [|by eapply apart_prefix].
    specialize (Hb b eq_refl).
    pose proof (make_move_apart n h b mv Hb h1 H1) as H2.
    unfold mbind at 1, st_bind at 1.
    destruct (make_move b mv h1) as [[[]|e] h2]; simpl in *;
      [|by eapply apart_prefix].
    unfold mbind at 1, st_bind at 1, read at 1.
    destruct (in_check b color h2) as [chk|e]; simpl;
      [|by eapply apart_prefix].
    etrans; [by eapply apart_prefix | apply IH].
Qed.

Lemma legal_moves_grows self color h :
  h `prefix_of` (legal_moves self color h).2.
Proof.
  unfold legal_moves, mbind, st_bind, read.
  destruct (generate_pseudo self color h) as [pseudo|e]; simpl; [|done].
  apply legal_loop_grows.
Qed.

(** ** What a board reads in a store that has grown *)

Lemma get_cell_grown h ext self r c :
  shape_ok h self → get_cell self r c (h ++ ext) = get_cell self r c h.
Proof.
  intros (b & rows & d & Hb & Hg & Hd & Hlen & Hnd & Hall).
  unfold get_cell, mbind, rd_bind, lift, as_board, as_grid, as_row.
  rewrite (lookup_app_l_Some _ _ _ _ Hb), Hb.
  rewrite (lookup_app_l_Some _ _ _ _ Hg), Hg.
  destruct (py_getitem rows r) as [l|e] eqn:El; [|done].
  apply py_getitem_elem_of in El. rewrite list.Forall_forall in Hall.
  destruct (Hall l El) as (cells & Hc & _).
  by rewrite (lookup_app_l_Some _ _ _ _ Hc), Hc.
Qed.

Lemma get_castling_grown h ext self k :
  shape_ok h self → get_castling self k (h ++ ext) = get_castling self k h.
Proof.
  intros (b & rows & d & Hb & Hg & Hd & _).
  unfold get_castling, mbind, rd_bind, as_board, as_dict.
  rewrite (lookup_app_l_Some _ _ _ _ Hb), Hb.
  by rewrite (lookup_app_l_Some _ _ _ _ Hd), Hd.
Qed.

Lemma as_board_grown h ext self :
  shape_ok h self → as_board self (h ++ ext) = as_board self h.
Proof.
  intros (b & rows & d & Hb & _). unfold as_board.
  by rewrite (lookup_app_l_Some _ _ _ _ Hb), Hb.
Qed.

(** ** [legal_moves] leaves the board as it is *)

(** C9. A call of [legal_moves] on a well-formed board, whether it
    returns or raises, leaves every object of the store as it was and
    only adds objects, the clones; the board reads as before: every
    cell of the grid, the side to move, the four castling rights and
    the en-passant target. *)
Theorem legal_moves_leaves_board_unchanged h self color :
  shape_ok h self →
  let h' := (legal_moves self color h).2 in
  h `prefix_of` h' ∧
  (∀ r c, get_cell self r c h' = get_cell self r c h) ∧
  get_turn self h' = get_turn self h ∧
  (∀ k, get_castling self k h' = get_castling self k h) ∧
  get_en_passant self h' = get_en_passant self h.
Proof.
  intros Hs h'. pose proof (legal_moves_grows self color h) as Hgrow.
  fold h' in Hgrow. split; [done|]. destruct Hgrow as [ext ->].
  split; [|split; [|split]].
  - intros r c. by apply get_cell_grown.
  - unfold get_turn, mbind, rd_bind. by rewrite as_board_grown.
  - intros k. by apply get_castling_grown.
  - unfold get_en_passant, mbind, rd_bind. by rewrite as_board_grown.
Qed.

Lemma legal_moves_leaves_board_unchanged_witness :
  let h := after [plain e2 e4; plain e7 e5] in
  let h' := (legal_moves first_board WHITE h).2 in
  h `prefix_of` h' ∧
  (∀ r c, get_cell first_board r c h' = get_cell first_board r c h) ∧
  get_turn first_board h' = get_turn first_board h ∧
  (∀ k, get_castling first_board k h' = get_castling first_board k h) ∧
  get_en_passant first_board h' = get_en_passant first_board h.
Proof.
  apply legal_moves_leaves_board_unchanged.
  apply shape_okb_sound. vm_compute. reflexivity.
Defined.

(** * The invariant of [Board] *)

(** [make_move] keeps [board_ok] for every move between squares of the
    board. *)
Lemma make_move_board_ok h self mv h' :
  board_ok h self →
  in_bounds (fr mv).1 (fr mv).2 = true →
  in_bounds (to mv).1 (to mv).2 = true →
  make_move self mv h = (Ok tt, h') →
  board_ok h' self.
Proof.
  intros [Hs _] Hbf Hbt H. split.
  - exact (preserves_run (well_shaped self) _ _ _ _
             (make_move_well_shaped self mv) Hs H).
  - destruct (get_cell_total h self _ _ Hs Hbf) as [moved Hsrc].
    pose proof (make_move_en_passant _ _ _ _ _ Hsrc H) as Hep.
    apply in_bounds_true in Hbf, Hbt. unfold ep_ok.
    destruct (is_double_push moved mv).
    + destruct Hep as (m & -> & Hm). lia.
    + by rewrite Hep.
Qed.

Lemma map_st_alloc {A} (o : A → obj) l h :
  map_st (λ x, alloc (o x)) l h
  = (Ok (seq (length h) (length l)), h ++ (o <$> l)).
Proof.
  revert h. induction l as [|x l IH]; intros h; simpl.
  - by rewrite app_nil_r.
  - unfold mbind at 1, st_bind at 1, alloc at 1.
    unfold mbind at 1, st_bind at 1. rewrite IH.
    rewrite length_app, Nat.add_1_r, <- app_assoc. done.
Qed.

Lemma setup_returns self : safe (well_shaped self) (_setup self).
Proof. unfold _setup, back, range8. simpl. repeat safe_step. Qed.

Lemma setup_en_passant self v : preserves (ep_is self v) (_setup self).
Proof. unfold _setup. pres. Qed.

(** [Board()] returns on every store, with a board that is [board_ok]. *)
Lemma Board_new_board_ok h :
  ∃ self h', Board_new h = (Ok self, h') ∧ board_ok h' self.
Proof.
  set (n := length h).
  set (rows := seq n 8).
  set (tail := ((λ _ : Z, ORow (replicate 8 Empty)) <$> range8) ++
               [OGrid rows; ODict (mkCastling true true true true);
                OBoard (mkBoard (n + 8) WHITE (n + 9) None)]).
  assert (∀ k, (h ++ tail) !! (n + k)%nat = tail !! k) as Hlook.
  { intros k. rewrite lookup_app_r by (unfold n; lia). f_equal. unfold n. lia. }
  assert (shape_ok (h ++ tail) (n + 10)) as Hs.
  { exists (mkBoard (n + 8) WHITE (n + 9) None), rows,
      (mkCastling true true true true).
    simpl. rewrite !Hlook. repeat split; try done.
    - apply NoDup_seq.
    - apply Forall_lookup_2. intros i l Hl.
      apply lookup_seq in Hl as [-> Hi]. rewrite Hlook.
      exists (replicate 8 Empty). split; [|done].
      do 8 (destruct i as [|i]; [done|]). lia. }
  assert (ep_is (n + 10) None (h ++ tail)) as Hep.
  { apply get_en_passant_Ok. eexists. by rewrite Hlook. }
  destruct (setup_returns (n + 10) _ Hs) as ([] & h' & E & Hs').
  exists (n + 10)%nat, h'. split.
  - unfold Board_new. unfold mbind at 1, st_bind at 1.
    rewrite (map_st_alloc (λ _, ORow (replicate 8 Empty))).
    unfold mbind, st_bind, alloc. simpl.
    rewrite !length_app. simpl.
    replace (length h + 8 + 1 + 1)%nat with (n + 10)%nat by (unfold n; lia).
    replace (length h + 8 + 1)%nat with (n + 9)%nat by (unfold n; lia).
    replace (length h + 8)%nat with (n + 8)%nat by (unfold n; lia).
    rewrite <- !app_assoc. simpl.
    fold n.
    unfold tail, rows in E. simpl in E. rewrite E. done.
  - split; [done|].
    pose proof (preserves_run _ _ _ _ _ (setup_en_passant (n + 10) None) Hep E) as Hep'.
    unfold ep_ok. by rewrite Hep'.
Qed.

(** * The move generator returns *)

Lemma returns_ret {A} h (a : A) : returns h (mret a).
Proof. by exists a. Qed.

Lemma returns_bind {A B} h (m : rd A) (f : A → rd B) :
  returns h m → (∀ a, returns h (f a)) → returns h (m ≫= f).
Proof.
  intros [a Ha] Hf. destruct (Hf a) as [b Hb].
  exists b. by rewrite (rd_bind_eq _ _ _ _ Ha).
Qed.

Lemma returns_any_rd {A} h (f : A → rd bool) l :
  (∀ x, returns h (f x)) → returns h (any_rd f l).
Proof.
  intros Hf. induction l as [|x l IH]; simpl; [apply returns_ret|].
  apply returns_bind; [done|]. intros []; [apply returns_ret | done].
Qed.

Lemma returns_first_rd {A B} h (f : A → rd (option B)) l :
  (∀ x, returns h (f x)) → returns h (first_rd f l).
Proof.
  intros Hf. induction l as [|x l IH]; simpl; [apply returns_ret|].
  apply returns_bind; [done|]. intros [y|]; [apply returns_ret | done].
Qed.

Lemma returns_collect_rd {A B} h (f : A → rd (list B)) l :
  (∀ x, x ∈ l → returns h (f x)) → returns h (collect_rd f l).
Proof.
  induction l as [|x l IH]; intros Hf; simpl; [apply returns_ret|].
  apply returns_bind; [apply Hf; left|]. intros ys.
  apply returns_bind; [apply IH; intros; apply Hf; by right|]. intros zs.
  apply returns_ret.
Qed.

Lemma returns_and_rd h (a b : rd bool) :
  returns h a → (a h = Ok true → returns h b) → returns h (and_rd a b).
Proof.
  intros [x Hx] Hb.
  destruct x; [destruct (Hb Hx) as [y Hy]; exists y | exists false];
    unfold and_rd; by rewrite (rd_bind_eq _ _ _ _ Hx).
Qed.

Section on_a_board.
Context (h : heap) (self : loc) (Hs : shape_ok h self).

Lemma returns_get_cell r c : in_bounds r c = true → returns h (get_cell self r c).
Proof. by apply get_cell_total. Qed.

Lemma returns_is_empty r c : in_bounds r c = true → returns h (is_empty self r c).
Proof.
  intros Hb. apply returns_bind; [by apply returns_get_cell|].
  intros v. apply returns_ret.
Qed.

Lemma returns_color_at r c : in_bounds r c = true → returns h (color_at self r c).
Proof.
  intros Hb. apply returns_bind; [|intros; apply returns_ret].
  apply returns_bind; [by apply returns_get_cell | intros; apply returns_ret].
Qed.

Lemma returns_not_own r c color :
  in_bounds r c = true → returns h (not_own self r c color).
Proof.
  intros Hb. apply returns_bind; [by apply returns_color_at|].
  intros v. apply returns_ret.
Qed.

Lemma returns_holds rr cc v : returns h (holds self rr cc v).
Proof.
  unfold holds. destruct (in_bounds rr cc) eqn:Hb; [|apply returns_ret].
  apply returns_bind; [by apply returns_get_cell | intros; apply returns_ret].
Qed.

Lemma returns_get_en_passant : returns h (get_en_passant self).
Proof.
  destruct Hs as (b & rows & d & Hb & _). exists (en_passant b).
  apply get_en_passant_Ok. eauto.
Qed.

Lemma returns_get_castling k : returns h (get_castling self k).
Proof.
  destruct Hs as (b & rows & d & Hb & Hg & Hd & _). exists (dict_get d k).
  apply get_castling_Ok. eauto.
Qed.

(** A square of the board has room for at least one step, and a step
    uses up one. *)
Lemma room_step rr cc dr dc (n : nat) :
  unit_step dr dc → in_bounds rr cc = true →
  room rr cc dr dc ≤ Z.of_nat n →
  ∃ n', n = S n' ∧
        (in_bounds (rr + dr) (cc + dc) = true →
         room (rr + dr) (cc + dc) dr dc ≤ Z.of_nat n').
Proof.
  intros Hd [Hr Hc]%in_bounds_true Hn. unfold room in *.
  destruct n as [|n'].
  - exfalso. destruct Hd as [->|[->|[-> [->| ->]]]]; simpl in Hn; lia.
  - exists n'. split; [done|]. intros _.
    destruct Hd as [->|[->|[-> [->| ->]]]]; simpl in *; lia.
Qed.

Lemma room_start rr cc dr dc :
  unit_step dr dc → in_bounds rr cc = true →
  room rr cc dr dc ≤ Z.of_nat ray_bound.
Proof.
  intros Hd [Hr Hc]%in_bounds_true. unfold room, ray_bound.
  destruct Hd as [->|[->|[-> [->| ->]]]]; simpl; lia.
Qed.

(** The rays never use up their iteration bound. *)
Lemma returns_attack_ray n by_color k1 k2 rr cc dr dc :
  unit_step dr dc →
  (in_bounds rr cc = true → room rr cc dr dc ≤ Z.of_nat n) →
  returns h (attack_ray n self by_color k1 k2 rr cc dr dc).
Proof.
  intros Hd. revert rr cc. induction n as [|n IH]; intros rr cc Hn.
  - simpl. destruct (in_bounds rr cc) eqn:Hb; [|apply returns_ret].
    destruct (room_step _ _ _ _ _ Hd Hb (Hn eq_refl)) as (n' & [=] & _).
  - simpl. destruct (in_bounds rr cc) eqn:Hb; [|apply returns_ret].
    destruct (room_step _ _ _ _ _ Hd Hb (Hn eq_refl)) as (n' & [= <-] & Hn').
    apply returns_bind; [by apply returns_get_cell|]. intros v.
    destruct (bool_decide _); [apply returns_ret | by apply IH].
Qed.

Lemma returns_slide n color r c rr cc dr dc :
  unit_step dr dc →
  (in_bounds rr cc = true → room rr cc dr dc ≤ Z.of_nat n) →
  returns h (slide n self color r c rr cc dr dc).
Proof.
  intros Hd. revert rr cc. induction n as [|n IH]; intros rr cc Hn.
  - simpl. destruct (in_bounds rr cc) eqn:Hb; [|apply returns_ret].
    destruct (room_step _ _ _ _ _ Hd Hb (Hn eq_refl)) as (n' & [=] & _).
  - simpl. destruct (in_bounds rr cc) eqn:Hb; [|apply returns_ret].
    destruct (room_step _ _ _ _ _ Hd Hb (Hn eq_refl)) as (n' & [= <-] & Hn').
    apply returns_bind; [by apply returns_is_empty|]. intros [].
    + apply returns_bind; [by apply IH | intros; apply returns_ret].
    + apply returns_bind; [by apply returns_not_own | intros; apply returns_ret].
Qed.

Lemma unit_step_diagonals d : d ∈ diagonals → unit_step d.1 d.2.
Proof.
  unfold diagonals, unit_step. rewrite !elem_of_cons, elem_of_nil.
  intros [->|[->|[->|[->|[]]]]]; simpl; auto.
Qed.

Lemma unit_step_orthogonals d : d ∈ orthogonals → unit_step d.1 d.2.
Proof.
  unfold orthogonals, unit_step. rewrite !elem_of_cons, elem_of_nil.
  intros [->|[->|[->|[->|[]]]]]; simpl; auto.
Qed.

Lemma returns_any_rd_in {A} (f : A → rd bool) l :
  (∀ x, x ∈ l → returns h (f x)) → returns h (any_rd f l).
Proof.
  induction l as [|x l IH]; intros Hf; simpl; [apply returns_ret|].
  apply returns_bind; [apply Hf; left|]. intros []; [apply returns_ret|].
  apply IH. intros. apply Hf. by right.
Qed.

(** [is_attacked] returns for every square, on the board or off it. *)
Lemma returns_is_attacked r c by_color : returns h (is_attacked self r c by_color).
Proof.
  unfold is_attacked, pawn_clause.
  apply returns_bind; [apply returns_any_rd; intros; apply returns_holds|].
  intros []; [apply returns_ret|].
  apply returns_bind;
    [apply returns_any_rd; intros []; apply returns_holds|].
  intros []; [apply returns_ret|].
  apply returns_bind.
  { apply returns_any_rd_in. intros [dr dc] Hd%unit_step_diagonals.
    apply returns_attack_ray; [done|]. by apply room_start. }
  intros []; [apply returns_ret|].
  apply returns_bind.
  { apply returns_any_rd_in. intros [dr dc] Hd%unit_step_orthogonals.
    apply returns_attack_ray; [done|]. by apply room_start. }
  intros []; [apply returns_ret|].
  apply returns_bind;
    [apply returns_any_rd; intros []; apply returns_holds|].
  intros []; apply returns_ret.
Qed.
End on_a_board.

Lemma elem_of_range8 x : x ∈ range8 ↔ 0 ≤ x < 8.
Proof.
  unfold range8. rewrite !elem_of_cons, elem_of_nil. lia.
Qed.

Lemma in_bounds_range8 r c : r ∈ range8 → c ∈ range8 → in_bounds r c = true.
Proof. rewrite !elem_of_range8, in_bounds_true. done. Qed.

Lemma returns_first_rd_in {A B} h (f : A → rd (option B)) l :
  (∀ x, x ∈ l → returns h (f x)) → returns h (first_rd f l).
Proof.
  induction l as [|x l IH]; intros Hf; simpl; [apply returns_ret|].
  apply returns_bind; [apply Hf; left|]. intros [y|]; [apply returns_ret|].
  apply IH. intros. apply Hf. by right.
Qed.

(** A [for] loop that returns from its body at [x0] returns a value. *)
Lemma first_rd_finds {A B} h (f : A → rd (option B)) l x0 :
  (∀ x, x ∈ l → returns h (f x)) → x0 ∈ l →
  (∃ y, f x0 h = Ok (Some y)) → ∃ y, first_rd f l h = Ok (Some y).
Proof.
  induction l as [|x l IH]; intros Hf Hx0 Hy; [by apply elem_of_nil in Hx0|].
  simpl. destruct (Hf x) as [[y|] Hx]; [left| |].
  - exists y. by rewrite (rd_bind_eq _ _ _ _ Hx).
  - rewrite (rd_bind_eq _ _ _ _ Hx).
    apply elem_of_cons in Hx0 as [->|Hx0].
    + destruct Hy as [y Hy]. congruence.
    + apply IH; [|done..]. intros. apply Hf. by right.
Qed.

Section generator.
Context (h : heap) (self : loc) (Hs : shape_ok h self).

(** A board with a king of [color] has a [king_pos] for [color]. *)
Lemma king_pos_finds color r c :
  r ∈ range8 → c ∈ range8 →
  get_cell self r c h = Ok (Piece color King) →
  ∃ sq, king_pos self color h = Ok (Some sq).
Proof.
  intros Hr Hc Hk. unfold king_pos.
  assert (∀ r' c', r' ∈ range8 → c' ∈ range8 →
            returns h (v ← get_cell self r' c';
                       mret (if bool_decide (v ≠ Empty) &&
                                bool_decide (v = Piece color King)
                             then Some (r', c') else None))) as Hcell.
  { intros r' c' Hr' Hc'.
    apply returns_bind; [|intros; apply returns_ret].
    apply returns_get_cell; auto using in_bounds_range8. }
  apply (first_rd_finds h _ range8 r); [|done|].
  - intros r' Hr'. apply returns_first_rd_in. auto.
  - apply (first_rd_finds h _ range8 c); [auto|done|].
    exists (r, c). rewrite (rd_bind_eq _ _ _ _ Hk).
    by rewrite bool_decide_eq_true_2, bool_decide_eq_true_2.
Qed.

Lemma returns_guarded_not_own rr cc color :
  returns h (and_rd (mret (in_bounds rr cc)) (not_own self rr cc color)).
Proof.
  apply returns_and_rd; [apply returns_ret|].
  intros [= Hb]. by apply returns_not_own.
Qed.

Lemma returns_knight_moves color r c : returns h (knight_moves self color r c).
Proof.
  apply returns_collect_rd. intros [dr dc] _.
  apply returns_bind; [apply returns_guarded_not_own|].
  intros; apply returns_ret.
Qed.

Lemma returns_slider_moves color p r c :
  returns h (slider_moves self color p r c).
Proof.
  unfold slider_moves. apply returns_collect_rd. intros [dr dc] Hd.
  assert (unit_step dr dc) as Hu.
  { apply elem_of_app in Hd as [Hd|Hd].
    - destruct (_ || _); [|by apply elem_of_nil in Hd].
      by apply (unit_step_diagonals (dr, dc)).
    - destruct (_ || _); [|by apply elem_of_nil in Hd].
      by apply (unit_step_orthogonals (dr, dc)). }
  apply returns_slide; [done..|]. by apply room_start.
Qed.

Lemma returns_pawn_moves color r c :
  in_bounds r c = true → returns h (pawn_moves self color r c).
Proof.
  intros [Hr Hc]%in_bounds_true. unfold pawn_moves. cbv zeta.
  apply returns_bind.
  { apply returns_and_rd; [apply returns_ret|].
    intros [= Hb]. by apply returns_is_empty. }
  intros free. apply returns_bind.
  { destruct free; [|apply returns_ret].
    destruct ((r =? 6) && bool_decide (color = WHITE)
              || (r =? 1) && bool_decide (color = BLACK)) eqn:E;
      [|apply returns_ret].
    apply returns_bind; [|intros; apply returns_ret].
    apply returns_is_empty; [done|]. apply in_bounds_true.
    apply orb_prop in E as [E|E]; apply andb_prop in E as [E1 E2];
      apply Z.eqb_eq in E1; apply bool_decide_eq_true in E2; subst; simpl; lia. }
  intros pushes. apply returns_bind.
  { apply returns_collect_rd. intros dc _. cbv zeta.
    apply returns_bind; [|intros; apply returns_ret].
    apply returns_and_rd; [apply returns_ret|]. intros [= Hb].
    apply returns_and_rd.
    - apply returns_bind; [by apply returns_is_empty|].
      intros; apply returns_ret.
    - intros _. by apply returns_not_own. }
  intros captures. apply returns_bind; [by apply returns_get_en_passant|].
  intros ep. apply returns_ret.
Qed.

Lemma returns_castle k row empties a1 a2 dest by_color :
  (∀ cc, cc ∈ empties → in_bounds row cc = true) →
  returns h (castle self k row empties a1 a2 dest by_color).
Proof.
  intros Hempties. unfold castle. apply returns_bind.
  { apply returns_and_rd; [by apply returns_get_castling|]. intros _.
    induction empties as [|cc empties IH]; simpl; [apply returns_ret|].
    apply returns_and_rd.
    - apply returns_is_empty; [done|]. apply Hempties. left.
    - intros _. apply IH. intros. apply Hempties. by right. }
  intros []; [|apply returns_ret].
  apply returns_bind; [|intros; apply returns_ret].
  apply returns_and_rd.
  - apply returns_bind; [by apply returns_is_attacked|].
    intros; apply returns_ret.
  - intros _. apply returns_bind; [by apply returns_is_attacked|].
    intros; apply returns_ret.
Qed.

Lemma returns_king_moves color r c :
  r ∈ range8 → c ∈ range8 →
  get_cell self r c h = Ok (Piece color King) →
  returns h (king_moves self color r c).
Proof.
  intros Hr Hc Hk. unfold king_moves.
  apply returns_bind.
  { apply returns_collect_rd. intros [dr dc] _.
    apply returns_bind; [apply returns_guarded_not_own|].
    intros; apply returns_ret. }
  intros steps. apply returns_bind.
  { destruct (king_pos_finds color r c Hr Hc Hk) as [[kr kc] Hpos].
    destruct (returns_is_attacked h self Hs kr kc (other color)) as [a Ha].
    exists a. unfold in_check. by rewrite (rd_bind_eq _ _ _ _ Hpos). }
  intros chk. apply returns_bind; [|intros; apply returns_ret].
  destruct chk; [apply returns_ret|].
  assert (∀ row l, row ∈ range8 → Forall (λ cc, cc ∈ range8) l →
            ∀ cc, cc ∈ l → in_bounds row cc = true) as Hin.
  { intros row l Hrow Hl cc Hcc. rewrite list.Forall_forall in Hl.
    auto using in_bounds_range8. }
  assert (7 ∈ range8 ∧ 0 ∈ range8) as [H7 H0]
    by (rewrite !elem_of_range8; lia).
  assert (Forall (λ cc, cc ∈ range8) [5; 6] ∧
          Forall (λ cc, cc ∈ range8) [1; 2; 3]) as [Hks Hqs]
    by (split; repeat constructor; apply elem_of_range8; lia).
  destruct (decide (color = WHITE)).
  - apply returns_bind; [apply returns_castle; eauto|]. intros ks.
    apply returns_bind; [apply returns_castle; eauto|]. intros qs.
    apply returns_ret.
  - apply returns_bind; [apply returns_castle; eauto|]. intros ks.
    apply returns_bind; [apply returns_castle; eauto|]. intros qs.
    apply returns_ret.
Qed.

Lemma returns_moves_from color r c :
  r ∈ range8 → c ∈ range8 → returns h (moves_from self color r c).
Proof.
  intros Hr Hc. pose proof (in_bounds_range8 r c Hr Hc) as Hb.
  destruct (get_cell_total h self r c Hs Hb) as [v Hv].
  assert (color_at self r c h
          = Ok (match v with Empty => None | Piece col _ => Some col end)) as Hcol.
  { unfold color_at, piece.
    rewrite (rd_bind_eq _ _ _ _ (rd_bind_eq _ _ _ _ Hv)).
    by destruct v. }
  unfold returns, moves_from. rewrite (rd_bind_eq _ _ _ _ Hcol).
  destruct v as [|col k]; [by eexists|].
  destruct (decide (col = color)) as [->|Hne].
  - rewrite bool_decide_eq_false_2 by (intros Hne; by apply Hne).
    rewrite (rd_bind_eq _ _ _ _ Hv).
    destruct k;
      [by apply returns_king_moves
      |apply returns_slider_moves..
      |apply returns_knight_moves
      |by apply returns_pawn_moves].
  - rewrite bool_decide_eq_true_2 by congruence. by eexists.
Qed.

(** [generate_pseudo] returns on every well-formed board: no read
    leaves the grid, the king whose moves are generated is found by
    [in_check], and no ray uses up its iteration bound. *)
Lemma generate_pseudo_returns color :
  ∃ ms, generate_pseudo self color h = Ok ms.
Proof.
  apply returns_collect_rd. intros r Hr.
  apply returns_collect_rd. intros c Hc.
  by apply returns_moves_from.
Qed.
End generator.

(** * Further properties of the engine *)

(** ** Indices *)

Lemma py_getitem_range {A} (l : list A) i :
  length l = 8%nat →
  (-8 ≤ i < 8 → ∃ x, py_getitem l i = Ok x ∧ l !! Z.to_nat (i mod 8) = Some x) ∧
  (¬ (-8 ≤ i < 8) → py_getitem l i = Raise IndexError).
Proof.
  intros Hlen. unfold py_getitem, py_index. rewrite Hlen. split.
  - intros Hi. destruct (decide (0 ≤ i)) as [Hpos|Hneg].
    + rewrite (proj2 (Z.leb_le 0 i)), (proj2 (Z.ltb_lt i _)) by lia. simpl.
      rewrite Z.mod_small by lia.
      destruct (lookup_lt_is_Some_2 l (Z.to_nat i)) as [x Hx]; [lia|].
      rewrite Hx. eauto.
    + rewrite (proj2 (Z.leb_gt 0 i)) by lia. simpl.
      rewrite (proj2 (Z.leb_le _ i)), (proj2 (Z.ltb_lt i 0)) by lia. simpl.
      replace (i mod 8) with (8 + i)
        by (apply (Z.mod_unique _ _ (-1)); lia).
      change (Z.of_nat 8) with 8.
      destruct (lookup_lt_is_Some_2 l (Z.to_nat (8 + i))) as [x Hx]; [lia|].
      rewrite Hx. eauto.
  - intros Hi. destruct (decide (0 ≤ i)) as [Hpos|Hneg].
    + rewrite (proj2 (Z.leb_le 0 i)), (proj2 (Z.ltb_ge i _)) by lia. simpl.
      by rewrite (proj2 (Z.ltb_ge i 0)), andb_false_r by lia.
    + rewrite (proj2 (Z.leb_gt 0 i)) by lia. simpl.
      by rewrite (proj2 (Z.leb_gt _ i)) by lia.
Qed.

(** X1. Reading a cell of a well-formed board follows Python's
    indexing: rows and columns from -8 to 7 are accepted, a negative
    index reads the cell 8 further, and any other row or column raises
    [IndexError]. The grid itself does not reject a square off the
    board: that is left to [in_bounds]. *)
Theorem get_cell_index_range h self r c :
  shape_ok h self →
  (-8 ≤ r < 8 ∧ -8 ≤ c < 8 →
   ∃ v, get_cell self r c h = Ok v ∧ get_cell self (r mod 8) (c mod 8) h = Ok v) ∧
  (¬ (-8 ≤ r < 8 ∧ -8 ≤ c < 8) → get_cell self r c h = Raise IndexError).
Proof.
  intros (b & rows & d & Hb & Hg & Hd & Hlen & Hnd & Hall).
  destruct (py_getitem_range rows r Hlen) as [Hrin Hrout].
  split.
  - intros [Hr Hc]. destruct (Hrin Hr) as (l & Hl & Hl').
    destruct (Forall_lookup_1 _ _ _ _ Hall Hl') as (cells & Hcells & Hlc).
    destruct (py_getitem_range cells c Hlc) as [Hcin _].
    destruct (Hcin Hc) as (v & Hv & Hv'). exists v. split.
    + eapply get_cell_intro; eauto.
    + eapply get_cell_intro; eauto;
        apply py_getitem_nat; try done; apply Z.mod_pos_bound; lia.
  - intros Hout.
    unfold get_cell, mbind, rd_bind, lift, as_board, as_grid, as_row.
    rewrite Hb, Hg.
    destruct (decide (-8 ≤ r < 8)) as [Hr|Hr]; [|by rewrite (Hrout Hr)].
    destruct (Hrin Hr) as (l & Hl & Hl'). rewrite Hl.
    destruct (Forall_lookup_1 _ _ _ _ Hall Hl') as (cells & Hcells & Hlc).
    rewrite Hcells.
    destruct (py_getitem_range cells c Hlc) as [_ Hcout].
    apply Hcout. tauto.
Qed.

Lemma get_cell_index_range_witness :
  (∃ v, get_cell first_board (-1) (-8) (after []) = Ok v ∧
        get_cell first_board ((-1) mod 8) ((-8) mod 8) (after []) = Ok v) ∧
  get_cell first_board 8 0 (after []) = Raise IndexError.
Proof.
  destruct (get_cell_index_range (after []) first_board (-1) (-8)) as [Hin _];
    [apply shape_okb_sound; vm_compute; reflexivity|].
  destruct (get_cell_index_range (after []) first_board 8 0) as [_ Hout];
    [apply shape_okb_sound; vm_compute; reflexivity|].
  split; [apply Hin; lia | apply Hout; lia].
Defined.

(** ** When [make_move] returns *)

(** X2. On a well-formed board, for a move between two squares of the
    board: from an empty square [make_move] raises [ValueError] before
    it writes anything, the store is left as it was; from an occupied
    square it returns, provided that the square of the captured pawn is
    on the board when the move is flagged as an en-passant capture, and
    the board is well-formed afterwards, with its en-passant target off
    the edge rows. *)
Theorem make_move_outcome h self mv :
  shape_ok h self →
  in_bounds (fr mv).1 (fr mv).2 = true →
  in_bounds (to mv).1 (to mv).2 = true →
  (get_cell self (fr mv).1 (fr mv).2 h = Ok Empty →
   make_move self mv h = (Raise ValueError, h)) ∧
  (∀ color p,
     get_cell self (fr mv).1 (fr mv).2 h = Ok (Piece color p) →
     (is_en_passant mv = true →
      in_bounds ((to mv).1 + if decide (color = WHITE) then 1 else -1) (to mv).2
      = true) →
     ∃ h', make_move self mv h = (Ok tt, h') ∧ board_ok h' self).
Proof.
  intros Hs Hbf Hbt. split.
  - intros E. unfold make_move.
    destruct (fr mv) as [r1 c1], (to mv) as [r2 c2]. simpl in *.
    unfold mbind at 1, st_bind at 1, read at 1. by rewrite E.
  - intros color p Hsrc Hep.
    destruct (make_move_returns h self mv color p Hs Hbf Hbt Hsrc Hep)
      as (h' & E & Hs').
    exists h'. split; [done|]. split; [done|].
    pose proof (make_move_en_passant _ _ _ _ _ Hsrc E) as Hwin.
    apply in_bounds_true in Hbf, Hbt. unfold ep_ok.
    destruct (is_double_push _ mv).
    + destruct Hwin as (m & -> & Hm). lia.
    + by rewrite Hwin.
Qed.

Lemma make_move_outcome_witness :
  make_move first_board (plain e4 e5) (after []) = (Raise ValueError, after []) ∧
  ∃ h', make_move first_board (plain e2 e4) (after []) = (Ok tt, h') ∧
        board_ok h' first_board.
Proof.
  destruct (make_move_outcome (after []) first_board (plain e4 e5)) as [Hempty _];
    [apply shape_okb_sound; vm_compute; reflexivity | reflexivity..|].
  destruct (make_move_outcome (after []) first_board (plain e2 e4)) as [_ Hpiece];
    [apply shape_okb_sound; vm_compute; reflexivity | reflexivity..|].
  split.
  - apply Hempty. vm_compute. reflexivity.
  - apply (Hpiece WHITE Pawn); [vm_compute; reflexivity | discriminate].
Defined.

(** ** The side to move *)

Lemma turn_is_row_closed self t : closed (row_write self) (turn_is self t).
Proof.
  intros h h' [b rows l cells i w Hb Hg Hl Hc] (b' & Hb' & Hv)%get_turn_Ok.
  apply get_turn_Ok. exists b'. split; [|done].
  differ l self. by rewrite list_lookup_insert_ne.
Qed.

Lemma turn_is_dict_closed self t : closed (dict_write self) (turn_is self t).
Proof.
  intros h h' [b d k Hb Hd] (b' & Hb' & Hv)%get_turn_Ok.
  apply get_turn_Ok. exists b'. split; [|done].
  differ (castling b) self. by rewrite list_lookup_insert_ne.
Qed.

Lemma turn_is_set_en_passant self t v :
  preserves (turn_is self t) (set_en_passant self v).
Proof.
  intros h (b & Hb & Hv)%get_turn_Ok.
  unfold set_en_passant, mbind, st_bind, read, store. simpl.
  rewrite (proj2 (as_board_Ok _ _ _) Hb). simpl.
  apply get_turn_Ok. eexists. split.
  - rewrite list_lookup_insert_eq; [done | by eapply lookup_lt_Some].
  - done.
Qed.

Lemma set_turn_Ok self v h h' :
  set_turn self v h = (Ok tt, h') → turn_is self v h'.
Proof.
  unfold set_turn, mbind, st_bind, read, store. simpl.
  destruct (as_board self h) as [b|] eqn:Eb; [|discriminate].
  intros [= <-]. apply as_board_Ok in Eb.
  apply get_turn_Ok. eexists. split.
  - rewrite list_lookup_insert_eq; [done | by eapply lookup_lt_Some].
  - done.
Qed.

#[local] Hint Resolve turn_is_row_closed turn_is_dict_closed
  turn_is_set_en_passant : pres.

(** X3. Whenever [make_move] returns, the side to move is the other
    one: the turn flips once, at the end, whatever the move was. *)
Theorem make_move_flips_turn h self mv t h' :
  get_turn self h = Ok t →
  make_move self mv h = (Ok tt, h') →
  get_turn self h' = Ok (other t).
Proof.
  intros Ht H. unfold make_move in H.
  destruct (fr mv) as [r1 c1], (to mv) as [r2 c2].
  apply st_bind_Ok in H as (piece & ? & [Hp ->]%read_Ok & H).
  destruct piece as [|color p]; [discriminate|].
  apply st_bind_Ok in H as (dest & ? & [_ ->]%read_Ok & H).
  change (turn_is self t h) in Ht.
  apply st_bind_Ok in H as ([] & h1 & H1 & H). carry (turn_is self t) H1.
  apply st_bind_Ok in H as ([] & h2 & H2 & H). carry (turn_is self t) H2.
  apply st_bind_Ok in H as ([] & h3 & H3 & H). carry (turn_is self t) H3.
  apply st_bind_Ok in H as ([] & h4 & H4 & H). carry (turn_is self t) H4.
  apply st_bind_Ok in H as ([] & h5 & H5 & H). carry (turn_is self t) H5.
  apply st_bind_Ok in H as ([] & h6 & H6 & H). carry (turn_is self t) H6.
  apply st_bind_Ok in H as ([] & h7 & H7 & H). carry (turn_is self t) H7.
  apply st_bind_Ok in H as ([] & h8 & H8 & H). carry (turn_is self t) H8.
  apply st_bind_Ok in H as ([] & h9 & H9 & H). carry (turn_is self t) H9.
  apply st_bind_Ok in H as ([] & h10 & H10 & H). carry (turn_is self t) H10.
  apply st_bind_Ok in H as (t' & ? & [Ht' ->]%read_Ok & H).
  unfold turn_is in H10. rewrite H10 in Ht'. injection Ht' as <-.
  by apply set_turn_Ok in H.
Qed.

Lemma make_move_flips_turn_witness :
  get_turn first_board (make_move first_board (plain e2 e4) (after [])).2
  = Ok (other WHITE).
Proof.
  apply (make_move_flips_turn (after []) first_board (plain e2 e4) WHITE);
    vm_compute; reflexivity.
Defined.

(** ** The bookkeeping of the castling rights *)

Lemma flag_is_row_closed self k v : closed (row_write self) (flag_is self k v).
Proof.
  intros h h' [b rows l cells i w Hb Hg Hl Hc] (b' & d & Hb' & Hd & Hv)%get_castling_Ok.
  apply get_castling_Ok. exists b', d.
  differ l self. differ l (castling b').
  by rewrite !list_lookup_insert_ne.
Qed.

Lemma flag_is_attr_closed self k v : closed (attr_write self) (flag_is self k v).
Proof.
  intros h h' [b t ep Hb] (b' & d & Hb' & Hd & Hv)%get_castling_Ok.
  apply get_castling_Ok. assert (b' = b) as -> by congruence.
  eexists _, d. differ self (castling b).
  rewrite list_lookup_insert_eq by (by eapply lookup_lt_Some).
  split; [done|]. simpl. by rewrite list_lookup_insert_ne.
Qed.

#[local] Hint Resolve flag_is_row_closed flag_is_attr_closed : pres.

Lemma dict_get_set d k k' v :
  dict_get (dict_set d k' v) k = if decide (k = k') then v else dict_get d k.
Proof. by destruct d, k, k'. Qed.

(** One conditional assignment [if b: self.castling[k'] = False]. *)
Lemma when_set_castling self k k' v b h h' :
  flag_is self k v h →
  when b (set_castling self k' false) h = (Ok tt, h') →
  flag_is self k (v && negb (b && bool_decide (k = k'))) h'.
Proof.
  intros (bo & d & Hb & Hd & Hv)%get_castling_Ok H.
  destruct b; simpl in H.
  - unfold set_castling, mbind, st_bind, read, store, as_board, as_dict in H.
    simpl in H. rewrite Hb in H. simpl in H. rewrite Hd in H. simpl in H.
    injection H as <-. apply get_castling_Ok.
    exists bo, (dict_set d k' false). differ (castling bo) self.
    rewrite list_lookup_insert_ne by done.
    rewrite list_lookup_insert_eq by (by eapply lookup_lt_Some).
    split; [done|]. split; [done|]. rewrite dict_get_set, Hv. simpl.
    case_decide; [by rewrite bool_decide_eq_true_2, andb_false_r
                 |by rewrite bool_decide_eq_false_2, andb_true_r].
  - injection H as <-. rewrite andb_true_r.
    apply get_castling_Ok. eauto.
Qed.

(** The three groups of assignments to [castling] in [make_move]. *)
Lemma king_group self k v color p h h' :
  flag_is self k v h →
  when (bool_decide (p = King))
    (if decide (color = WHITE)
     then set_castling self wK false;; set_castling self wQ false
     else set_castling self bK false;; set_castling self bQ false) h
  = (Ok tt, h') →
  flag_is self k (v && negb (bool_decide (p = King) && bool_decide (color = side k))) h'.
Proof.
  intros Hv H. apply when_Ok in H as [[-> H]|[-> ->]];
    [|by rewrite andb_true_r].
  destruct (decide (color = WHITE)) as [->|Hc].
  - apply st_bind_Ok in H as ([] & h1 & H1 & H).
    apply (when_set_castling self k wK v true) in H1; [|done].
    eapply (when_set_castling self k wQ _ true) in H; [|exact H1].
    destruct k, v; exact H.
  - assert (color = BLACK) as -> by (by destruct color).
    apply st_bind_Ok in H as ([] & h1 & H1 & H).
    apply (when_set_castling self k bK v true) in H1; [|done].
    eapply (when_set_castling self k bQ _ true) in H; [|exact H1].
    destruct k, v; exact H.
Qed.

Lemma corner_group self k v b (sq : square) h h' :
  flag_is self k v h →
  when b
    (when (bool_decide (sq = (7, 0))) (set_castling self wQ false);;
     when (bool_decide (sq = (7, 7))) (set_castling self wK false);;
     when (bool_decide (sq = (0, 0))) (set_castling self bQ false);;
     when (bool_decide (sq = (0, 7))) (set_castling self bK false)) h
  = (Ok tt, h') →
  flag_is self k (v && negb (b && bool_decide (sq = corner k))) h'.
Proof.
  intros Hv H. apply when_Ok in H as [[-> H]|[-> ->]];
    [|by rewrite andb_true_r].
  apply st_bind_Ok in H as ([] & h1 & H1 & H).
  apply (when_set_castling self k wQ v) in H1; [|done].
  apply st_bind_Ok in H as ([] & h2 & H2 & H).
  eapply (when_set_castling self k wK) in H2; [|exact H1].
  apply st_bind_Ok in H as ([] & h3 & H3 & H).
  eapply (when_set_castling self k bQ) in H3; [|exact H2].
  eapply (when_set_castling self k bK) in H; [|exact H3].
  destruct k; simpl in *;
    destruct v, (bool_decide (sq = (7, 0))), (bool_decide (sq = (7, 7))),
      (bool_decide (sq = (0, 0))), (bool_decide (sq = (0, 7))); exact H.
Qed.

(** X4. The castling rights after [make_move]: a right is set
    afterwards exactly when it was set before and the move did not take
    it away, which it does by moving the king of that side, by moving a
    rook from the corner of that right, or by landing on that corner
    when it is occupied. No other step of [make_move] touches the
    rights. *)
Theorem castling_rights_after h self mv moved dest k v h' :
  get_cell self (fr mv).1 (fr mv).2 h = Ok moved →
  get_cell self (to mv).1 (to mv).2 h = Ok dest →
  get_castling self k h = Ok v →
  make_move self mv h = (Ok tt, h') →
  get_castling self k h' = Ok (v && negb (clears k moved dest mv)).
Proof.
  intros Hsrc Hdst Hv H. unfold make_move in H. unfold clears.
  destruct (fr mv) as [r1 c1], (to mv) as [r2 c2]. simpl in *.
  apply st_bind_Ok in H as (piece & ? & [Hp ->]%read_Ok & H).
  rewrite Hsrc in Hp. injection Hp as <-.
  destruct moved as [|color p]; [discriminate|].
  apply st_bind_Ok in H as (dest' & ? & [Hd ->]%read_Ok & H).
  rewrite Hdst in Hd. injection Hd as <-.
  change (flag_is self k v h) in Hv.
  apply st_bind_Ok in H as ([] & h1 & H1 & H). carry (flag_is self k v) H1.
  apply st_bind_Ok in H as ([] & h2 & H2 & H).
  eapply (king_group self k v) in H2; [|exact H1].
  apply st_bind_Ok in H as ([] & h3 & H3 & H).
  eapply (corner_group self k _ _ (r1, c1)) in H3; [|exact H2].
  apply st_bind_Ok in H as ([] & h4 & H4 & H).
  eapply (corner_group self k _ _ (r2, c2)) in H4; [|exact H3].
  set (v' := v && negb (bool_decide (p = King) && bool_decide (color = side k))
             && negb (bool_decide (p = Rook) && bool_decide ((r1, c1) = corner k))
             && negb (bool_decide (dest ≠ Empty) && bool_decide ((r2, c2) = corner k))).
  change (flag_is self k v' h4) in H4.
  apply st_bind_Ok in H as ([] & h5 & H5 & H). carry (flag_is self k v') H5.
  apply st_bind_Ok in H as ([] & h6 & H6 & H). carry (flag_is self k v') H6.
  apply st_bind_Ok in H as ([] & h7 & H7 & H). carry (flag_is self k v') H7.
  apply st_bind_Ok in H as ([] & h8 & H8 & H). carry (flag_is self k v') H8.
  apply st_bind_Ok in H as ([] & h9 & H9 & H). carry (flag_is self k v') H9.
  apply st_bind_Ok in H as ([] & h10 & H10 & H). carry (flag_is self k v') H10.
  apply st_bind_Ok in H as (t & ? & [_ ->]%read_Ok & H).
  carry (flag_is self k v') H.
  unfold flag_is in H. rewrite H. f_equal. unfold v'.
  by rewrite !negb_orb, !andb_assoc.
Qed.

Lemma castling_rights_after_witness :
  get_castling first_board wK
    (make_move first_board (plain e1 e2)
       (after [plain e2 e4; plain e7 e5])).2
  = Ok (true && negb (clears wK (Piece WHITE King) Empty (plain e1 e2))).
Proof.
  apply (castling_rights_after (after [plain e2 e4; plain e7 e5]) first_board
           (plain e1 e2) (Piece WHITE King) Empty wK true);
    vm_compute; reflexivity.
Defined.

(** ** Castling and en-passant captures on the grid *)

(** X5. A move flagged as castling, of a piece that is not a pawn from
    column 4 of row 0 or 7 to column 6 or 2 of that row, also moves
    what stands on the corner of that side, the rook in a game, to the
    square that the king has passed over, and empties the corner; the
    other 60 cells keep their content. *)
Theorem castling_moves_the_rook h self mv color p row tc a b h' :
  shape_ok h self →
  row = 7 ∨ row = 0 →
  tc = 6 ∧ a = 7 ∧ b = 5 ∨ tc = 2 ∧ a = 0 ∧ b = 3 →
  fr mv = (row, 4) → to mv = (row, tc) →
  is_castle mv = true → is_en_passant mv = false →
  get_cell self row 4 h = Ok (Piece color p) → p ≠ Pawn →
  make_move self mv h = (Ok tt, h') →
  ∃ rook,
    get_cell self row a h = Ok rook ∧
    get_cell self row 4 h' = Ok Empty ∧
    get_cell self row tc h' = Ok (Piece color p) ∧
    get_cell self row b h' = Ok rook ∧
    get_cell self row a h' = Ok Empty ∧
    ∀ r c, in_bounds r c = true →
           (r, c) ≠ (row, 4) → (r, c) ≠ (row, tc) →
           (r, c) ≠ (row, b) → (r, c) ≠ (row, a) →
           get_cell self r c h' = get_cell self r c h.
Proof.
  intros Hs Hrow Hside Efr Eto Hcastle Hep Hsrc Hp H. unfold make_move in H.
  rewrite Hcastle, Hep, Efr, Eto in H.
  assert (in_bounds row 4 = true ∧ in_bounds row tc = true ∧
          in_bounds row a = true ∧ in_bounds row b = true) as (B4 & Bt & Ba & Bb)
    by (destruct Hrow as [->| ->], Hside as [(-> & -> & ->)|(-> & -> & ->)]; done).
  destruct (get_cell_total h self row a Hs Ba) as [rook Hrook].
  exists rook. split; [done|].
  apply st_bind_Ok in H as (piece & ? & [Hpc ->]%read_Ok & H).
  rewrite Hsrc in Hpc. injection Hpc as <-.
  apply st_bind_Ok in H as (dest & ? & [_ ->]%read_Ok & H).
  pose proof (kept_refl self h Hs) as K.
  apply st_bind_Ok in H as ([] & h1 & H1 & H). carry (kept self h) H1.
  apply st_bind_Ok in H as ([] & h2 & H2 & H). carry (kept self h) H2.
  apply st_bind_Ok in H as ([] & h3 & H3 & H). carry (kept self h) H3.
  apply st_bind_Ok in H as ([] & h4 & H4 & H). carry (kept self h) H4.
  apply st_bind_Ok in H as ([] & ? & [= <-] & H).
  apply st_bind_Ok in H as ([] & h5 & H5 & H).
  apply set_cell_inv in H5 as (Hs5 & Hfr5 & Hoth5); [|apply H4|done].
  apply st_bind_Ok in H as ([] & h6 & H6 & H).
  apply set_cell_inv in H6 as (Hs6 & Hto6 & Hoth6); [|done..].
  rewrite (bool_decide_eq_false_2 (p = Pawn)) in H by done.
  apply st_bind_Ok in H as ([] & ? & [= <-] & H).
  apply st_bind_Ok in H as ([] & h8 & H8 & H).
  assert (∃ h7, set_cell self row b rook h6 = (Ok tt, h7) ∧
                set_cell self row a Empty h7 = (Ok tt, h8)) as (h7 & H7 & H8').
  { assert (get_cell self row a h6 = Ok rook) as Hrook6.
    { rewrite Hoth6, Hoth5, (kept_get_cell self h h4); try done;
        destruct Hrow as [->| ->], Hside as [(-> & -> & ->)|(-> & -> & ->)];
        done. }
    simpl in H8.
    destruct Hrow as [->| ->], Hside as [(-> & -> & ->)|(-> & -> & ->)];
      simpl in H8;
      apply st_bind_Ok in H8 as (v & ? & [Hv ->]%read_Ok & H8);
      rewrite Hrook6 in Hv; injection Hv as <-;
      apply st_bind_Ok in H8 as ([] & h7 & H7 & H8); eauto. }
  clear H8.
  apply set_cell_inv in H7 as (Hs7 & Hb7 & Hoth7); [|done..].
  apply set_cell_inv in H8' as (Hs8 & Ha8 & Hoth8); [|done..].
  pose proof (kept_refl self h8 Hs8) as K8.
  apply st_bind_Ok in H as ([] & h9 & H9 & H). carry (kept self h8) H9.
  apply st_bind_Ok in H as (t & ? & [_ ->]%read_Ok & H).
  carry (kept self h8) H.
  rewrite !(kept_get_cell self h8 h') by done.
  assert ((row, 4) ≠ (row, tc) ∧ (row, 4) ≠ (row, b) ∧ (row, 4) ≠ (row, a) ∧
          (row, tc) ≠ (row, b) ∧ (row, tc) ≠ (row, a) ∧ (row, b) ≠ (row, a))
    as (N1 & N2 & N3 & N4 & N5 & N6)
    by (destruct Hside as [(-> & -> & ->)|(-> & -> & ->)];
        repeat split; intros [=]).
  split; [|split; [|split; [|split]]].
  - by rewrite Hoth8, Hoth7, Hoth6.
  - by rewrite Hoth8, Hoth7.
  - by rewrite Hoth8.
  - done.
  - intros r c Hb Hn4 Hnt Hnb Hna.
    rewrite (kept_get_cell self h8 h'), Hoth8, Hoth7, Hoth6, Hoth5 by done.
    by apply (kept_get_cell self h h4).
Qed.

Lemma castling_moves_the_rook_witness :
  let h := after [plain g1 f3; plain h7 h5; plain e2 e4; plain h5 h4;
                  plain f1 e2; plain h4 h3] in
  let h' := (make_move first_board (mkMove e1 g1 None true false) h).2 in
  ∃ rook,
    get_cell first_board 7 7 h = Ok rook ∧
    get_cell first_board 7 4 h' = Ok Empty ∧
    get_cell first_board 7 6 h' = Ok (Piece WHITE King) ∧
    get_cell first_board 7 5 h' = Ok rook ∧
    get_cell first_board 7 7 h' = Ok Empty ∧
    ∀ r c, in_bounds r c = true →
           (r, c) ≠ (7, 4) → (r, c) ≠ (7, 6) →
           (r, c) ≠ (7, 5) → (r, c) ≠ (7, 7) →
           get_cell first_board r c h' = get_cell first_board r c h.
Proof.
  apply (castling_moves_the_rook _ first_board
           (mkMove e1 g1 None true false) WHITE King 7 6 7 5);
    try reflexivity; try discriminate; auto.
  apply shape_okb_sound. vm_compute. reflexivity.
Defined.

(** X6. A move flagged as an en-passant capture empties, besides its
    source, the square beside the destination on the side the mover
    came from (one row down for white, one row up for black), where
    the captured pawn stands, and puts the moving piece on the
    destination; the other cells keep their content. *)
Theorem en_passant_removes_the_pawn h self mv color p h' :
  let cap_r := (to mv).1 + (if decide (color = WHITE) then 1 else -1) in
  shape_ok h self →
  in_bounds (fr mv).1 (fr mv).2 = true →
  in_bounds (to mv).1 (to mv).2 = true →
  in_bounds cap_r (to mv).2 = true →
  fr mv ≠ to mv →
  get_cell self (fr mv).1 (fr mv).2 h = Ok (Piece color p) →
  is_en_passant mv = true →
  is_castle mv = false →
  (p = Pawn → last_row (to mv).1 = false) →
  make_move self mv h = (Ok tt, h') →
  get_cell self cap_r (to mv).2 h' = Ok Empty ∧
  get_cell self (fr mv).1 (fr mv).2 h' = Ok Empty ∧
  get_cell self (to mv).1 (to mv).2 h' = Ok (Piece color p) ∧
  ∀ r c, in_bounds r c = true →
         (r, c) ≠ (cap_r, (to mv).2) → (r, c) ≠ fr mv → (r, c) ≠ to mv →
         get_cell self r c h' = get_cell self r c h.
Proof.
  intros cap_r Hs Hbf Hbt Hbc Hne Hsrc Hep Hcastle Hpromo H.
  unfold make_move in H. rewrite Hcastle, Hep in H. subst cap_r.
  destruct (fr mv) as [r1 c1] eqn:Efr, (to mv) as [r2 c2] eqn:Eto. simpl in *.
  set (cap_r := r2 + (if decide (color = WHITE) then 1 else -1)) in *.
  assert ((cap_r, c2) ≠ (r2, c2)) as Hcap
    by (unfold cap_r; intros [=]; destruct (decide _); lia).
  apply st_bind_Ok in H as (piece & ? & [Hp ->]%read_Ok & H).
  rewrite Hsrc in Hp. injection Hp as <-.
  apply st_bind_Ok in H as (dest & ? & [_ ->]%read_Ok & H).
  pose proof (kept_refl self h Hs) as K.
  apply st_bind_Ok in H as ([] & h1 & H1 & H). carry (kept self h) H1.
  apply st_bind_Ok in H as ([] & h2 & H2 & H). carry (kept self h) H2.
  apply st_bind_Ok in H as ([] & h3 & H3 & H). carry (kept self h) H3.
  apply st_bind_Ok in H as ([] & h4 & H4 & H). carry (kept self h) H4.
  apply st_bind_Ok in H as ([] & hc & Hc & H). simpl in Hc.
  apply set_cell_inv in Hc as (Hsc & Hcc & Hothc); [|apply H4|done].
  apply st_bind_Ok in H as ([] & h5 & H5 & H).
  apply set_cell_inv in H5 as (Hs5 & Hfr5 & Hoth5); [|done..].
  apply st_bind_Ok in H as ([] & h6 & H6 & H).
  apply set_cell_inv in H6 as (Hs6 & Hto6 & Hoth6); [|done..].
  assert ((bool_decide (p = Pawn) && last_row r2) = false) as Hnp.
  { destruct (decide (p = Pawn)) as [->|Hnp].
    - by rewrite Hpromo, andb_false_r.
    - by rewrite bool_decide_eq_false_2. }
  rewrite Hnp in H.
  apply st_bind_Ok in H as ([] & ? & [= <-] & H).
  apply st_bind_Ok in H as ([] & ? & [= <-] & H).
  pose proof (kept_refl self h6 Hs6) as K6.
  apply st_bind_Ok in H as ([] & h7 & H7 & H). carry (kept self h6) H7.
  apply st_bind_Ok in H as (t & ? & [_ ->]%read_Ok & H).
  carry (kept self h6) H.
  rewrite !(kept_get_cell self h6 h') by done.
  split; [|split; [|split]].
  - rewrite Hoth6 by done.
    destruct (decide ((cap_r, c2) = (r1, c1))) as [[= -> ->]|Hcf]; [done|].
    by rewrite Hoth5.
  - rewrite Hoth6; [done..|]. congruence.
  - done.
  - intros r c Hb Hnc Hnf Hnt.
    rewrite (kept_get_cell self h6 h'), Hoth6, Hoth5, Hothc by done.
    by apply (kept_get_cell self h h4).
Qed.

Lemma en_passant_removes_the_pawn_witness :
  let h := after [plain e2 e4; plain a7 a6; plain e4 e5; plain d7 d5] in
  let h' := (make_move first_board (mkMove e5 (2, 3) None false true) h).2 in
  get_cell first_board 3 3 h' = Ok Empty ∧
  get_cell first_board 3 4 h' = Ok Empty ∧
  get_cell first_board 2 3 h' = Ok (Piece WHITE Pawn) ∧
  ∀ r c, in_bounds r c = true →
         (r, c) ≠ (3, 3) → (r, c) ≠ e5 → (r, c) ≠ (2, 3) →
         get_cell first_board r c h' = get_cell first_board r c h.
Proof.
  apply (en_passant_removes_the_pawn _ first_board
           (mkMove e5 (2, 3) None false true) WHITE Pawn);
    try reflexivity; try discriminate; auto.
  apply shape_okb_sound. vm_compute. reflexivity.
Defined.

(** ** The king's square *)

Lemma first_rd_Some {A B} (f : A → rd (option B)) l h y :
  first_rd f l h = Ok (Some y) → ∃ x, x ∈ l ∧ f x h = Ok (Some y).
Proof.
  induction l as [|x l IH]; simpl; intros H; [discriminate|].
  apply rd_bind_Ok in H as ([z|] & Hx & H).
  - injection H as ->. exists x. split; [left|done].
  - destruct (IH H) as (x' & ? & ?). exists x'. split; [by right|done].
Qed.

Lemma first_rd_None {A B} (f : A → rd (option B)) l h :
  first_rd f l h = Ok None → ∀ x, x ∈ l → f x h = Ok None.
Proof.
  induction l as [|x l IH]; simpl; intros H x' Hx'; [by apply elem_of_nil in Hx'|].
  apply rd_bind_Ok in H as ([z|] & Hx & H); [discriminate|].
  apply elem_of_cons in Hx' as [->|Hx']; auto.
Qed.

Lemma king_test self color r c h o :
  (v ← get_cell self r c;
   mret (if bool_decide (v ≠ Empty) && bool_decide (v = Piece color King)
         then Some (r, c) else None)) h = Ok o →
  match o with
  | Some sq => sq = (r, c) ∧ get_cell self r c h = Ok (Piece color King)
  | None => get_cell self r c h ≠ Ok (Piece color King)
  end.
Proof.
  intros H. apply rd_bind_Ok in H as (v & Hv & H). injection H as <-.
  rewrite Hv. destruct (decide (v = Piece color King)) as [->|Hne].
  - by rewrite bool_decide_eq_true_2, bool_decide_eq_true_2.
  - rewrite (bool_decide_eq_false_2 (v = _)), andb_false_r by done. congruence.
Qed.

Lemma king_pos_finds_the_king_aux h self color :
  shape_ok h self →
  ∃ res, king_pos self color h = Ok res ∧
    match res with
    | Some (r, c) =>
      in_bounds r c = true ∧ get_cell self r c h = Ok (Piece color King)
    | None =>
      ∀ r c, in_bounds r c = true → get_cell self r c h ≠ Ok (Piece color King)
    end.
Proof.
  intros Hs.
  assert (returns h (king_pos self color)) as [res Hres].
  { apply returns_first_rd_in. intros r Hr.
    apply returns_first_rd_in. intros c Hc.
    apply returns_bind; [|intros; apply returns_ret].
    apply returns_get_cell; auto using in_bounds_range8. }
  exists res. split; [done|]. unfold king_pos in Hres.
  destruct res as [[r c]|].
  - apply first_rd_Some in Hres as (r' & Hr' & Hres).
    apply first_rd_Some in Hres as (c' & Hc' & Hres).
    apply king_test in Hres as [[= <- <-] Hk].
    auto using in_bounds_range8.
  - intros r c [Hr Hc]%in_bounds_true.
    pose proof (first_rd_None _ _ _ Hres r (proj2 (elem_of_range8 r) Hr)) as Hrow.
    pose proof (first_rd_None _ _ _ Hrow c (proj2 (elem_of_range8 c) Hc)) as Hcell.
    by apply king_test in Hcell.
Qed.

(** X7. [king_pos] on a well-formed board returns: a square of the
    board that holds the king of [color] when it answers with a square,
    and [None] only when no square of the board holds that king. *)
Theorem king_pos_finds_the_king h self color :
  shape_ok h self →
  ∃ res, king_pos self color h = Ok res ∧
    match res with
    | Some (r, c) =>
      in_bounds r c = true ∧ get_cell self r c h = Ok (Piece color King)
    | None =>
      ∀ r c, in_bounds r c = true → get_cell self r c h ≠ Ok (Piece color King)
    end.
Proof. apply king_pos_finds_the_king_aux. Qed.

Lemma king_pos_finds_the_king_witness :
  ∃ res, king_pos first_board BLACK (after [plain e2 e4]) = Ok res ∧
    match res with
    | Some (r, c) =>
      in_bounds r c = true ∧
      get_cell first_board r c (after [plain e2 e4]) = Ok (Piece BLACK King)
    | None =>
      ∀ r c, in_bounds r c = true →
             get_cell first_board r c (after [plain e2 e4]) ≠ Ok (Piece BLACK King)
    end.
Proof.
  apply king_pos_finds_the_king. apply shape_okb_sound. vm_compute. reflexivity.
Defined.

(** X8. [in_check] on a well-formed board returns a boolean when a king
    of [color] stands on the board, and raises [TypeError] when none
    does. *)
Theorem in_check_needs_a_king h self color :
  shape_ok h self →
  ((∃ r c, in_bounds r c = true ∧ get_cell self r c h = Ok (Piece color King)) →
   ∃ b, in_check self color h = Ok b) ∧
  ((∀ r c, in_bounds r c = true → get_cell self r c h ≠ Ok (Piece color King)) →
   in_check self color h = Raise TypeError).
Proof.
  intros Hs. split.
  - intros (r & c & [Hr Hc]%in_bounds_true & Hk).
    destruct (king_pos_finds h self Hs color r c) as [[kr kc] Hpos];
      [by apply elem_of_range8..|done|].
    destruct (returns_is_attacked h self Hs kr kc (other color)) as [b Hb].
    exists b. unfold in_check. by rewrite (rd_bind_eq _ _ _ _ Hpos).
  - intros Hnone.
    destruct (king_pos_finds_the_king_aux h self color Hs) as (res & Hres & Hspec).
    unfold in_check. rewrite (rd_bind_eq _ _ _ _ Hres).
    destruct res as [[r c]|]; [|done].
    destruct Hspec as [Hb Hk]. by destruct (Hnone r c Hb).
Qed.

Lemma in_check_needs_a_king_witness :
  ∃ b, in_check first_board WHITE (after [plain e2 e4]) = Ok b.
Proof.
  destruct (in_check_needs_a_king (after [plain e2 e4]) first_board WHITE)
    as [Hking _]; [apply shape_okb_sound; vm_compute; reflexivity|].
  apply Hking. exists 7, 4. split; vm_compute; reflexivity.
Defined.

(** ** The legality filter *)

Lemma legal_loop_sublist self color pseudo out h ms h' :
  legal_loop self color pseudo out h = (Ok ms, h') →
  ∃ kept, kept `sublist_of` pseudo ∧ ms = out ++ kept.
Proof.
  revert out h. induction pseudo as [|mv pseudo IH]; intros out h H; simpl in H.
  - injection H as <- <-. exists []. by rewrite app_nil_r.
  - apply st_bind_Ok in H as (b & h1 & _ & H).
    apply st_bind_Ok in H as ([] & h2 & _ & H).
    apply st_bind_Ok in H as (chk & ? & [_ ->]%read_Ok & H).
    destruct (IH _ _ H) as (kept & Hsub & ->). destruct chk.
    + exists kept. split; [by apply sublist_cons|done].
    + exists (mv :: kept). split; [by apply sublist_skip|].
      by rewrite <- app_assoc.
Qed.

(** X9. What [legal_moves] returns is a selection of what
    [generate_pseudo] returns for the same board and colour, in the
    same order: the filter drops moves, it never adds or reorders
    them. *)
Theorem legal_moves_are_pseudo_legal h self color ms :
  (legal_moves self color h).1 = Ok ms →
  ∃ pseudo, generate_pseudo self color h = Ok pseudo ∧ ms `sublist_of` pseudo.
Proof.
  destruct (legal_moves self color h) as [res h'] eqn:H. simpl. intros ->.
  unfold legal_moves in H.
  apply st_bind_Ok in H as (pseudo & ? & [Hgen ->]%read_Ok & H).
  exists pseudo. split; [done|].
  by destruct (legal_loop_sublist _ _ _ _ _ _ _ H) as (kept & Hsub & ->).
Qed.

Lemma legal_moves_are_pseudo_legal_witness :
  ∃ pseudo,
    generate_pseudo first_board BLACK (after [plain f2 f3]) = Ok pseudo ∧
    value_or [] (legal_moves first_board BLACK (after [plain f2 f3])).1
    `sublist_of` pseudo.
Proof.
  apply (legal_moves_are_pseudo_legal (after [plain f2 f3]) first_board BLACK).
  vm_compute. reflexivity.
Defined.

(** ** The moves of [generate_pseudo], one by one *)

Lemma and_rd_true (a b : rd bool) h :
  and_rd a b h = Ok true → a h = Ok true ∧ b h = Ok true.
Proof.
  intros H. apply rd_bind_Ok in H as (x & Hx & H).
  destruct x; [done|discriminate].
Qed.

Lemma guard_true (b : bool) h : (mret b : rd bool) h = Ok true → b = true.
Proof. by intros [= ->]. Qed.

Lemma is_empty_true self r c h :
  is_empty self r c h = Ok true → get_cell self r c h = Ok Empty.
Proof.
  intros H. apply rd_bind_Ok in H as (v & Hv & H). injection H as H.
  apply bool_decide_eq_true in H. by subst.
Qed.

Lemma is_empty_false self r c h :
  (e ← is_empty self r c; mret (negb e)) h = Ok true →
  ∃ v, get_cell self r c h = Ok v ∧ v ≠ Empty.
Proof.
  intros H. apply rd_bind_Ok in H as (e & He & H). injection H as H.
  apply rd_bind_Ok in He as (v & Hv & He). injection He as <-.
  exists v. split; [done|]. apply negb_true_iff, bool_decide_eq_false in H. done.
Qed.

Lemma color_at_cell self r c h v :
  get_cell self r c h = Ok v →
  color_at self r c h
  = Ok (match v with Empty => None | Piece col _ => Some col end).
Proof.
  intros Hv. unfold color_at, piece.
  rewrite (rd_bind_eq _ _ _ _ (rd_bind_eq _ _ _ _ Hv)). by destruct v.
Qed.

Lemma lands_on_empty self color h r c :
  in_bounds r c = true → is_empty self r c h = Ok true →
  lands_ok self color h (r, c).
Proof.
  intros Hb He%is_empty_true%color_at_cell. split; [done|].
  exists None. by split.
Qed.

Lemma lands_on_other self color h r c :
  in_bounds r c = true → not_own self r c color h = Ok true →
  lands_ok self color h (r, c).
Proof.
  intros Hb H. apply rd_bind_Ok in H as (col & Hcol & H). injection H as H.
  apply bool_decide_eq_true in H. split; [done|]. by exists col.
Qed.

Lemma holds_other self color h r c :
  (e ← is_empty self r c; mret (negb e)) h = Ok true →
  not_own self r c color h = Ok true →
  ∃ k, get_cell self r c h = Ok (Piece (other color) k).
Proof.
  intros (v & Hv & Hne)%is_empty_false H.
  apply rd_bind_Ok in H as (col & Hcol & H). injection H as H.
  apply bool_decide_eq_true in H.
  rewrite (color_at_cell _ _ _ _ _ Hv) in Hcol. injection Hcol as <-.
  destruct v as [|col k]; [done|]. exists k.
  by destruct col, color.
Qed.

Lemma collect_rd_Forall_in {A B} (Q : B → Prop) (f : A → rd (list B)) l h ys :
  (∀ x zs, x ∈ l → f x h = Ok zs → Forall Q zs) →
  collect_rd f l h = Ok ys → Forall Q ys.
Proof.
  revert ys. induction l as [|x l IH]; simpl; intros ys Hf H.
  - injection H as <-. constructor.
  - apply rd_bind_Ok in H as (zs & Hz & H).
    apply rd_bind_Ok in H as (ws & Hw & H). injection H as <-.
    apply Forall_app. split.
    + eapply Hf; [by left | done].
    + apply IH; [|done]. intros y zs' Hy. apply Hf. by right.
Qed.

Lemma gen_ok_plain self color h a p b :
  p ≠ Pawn ∨ last_row b.1 = false →
  lands_ok self color h b → pattern self color h a p b →
  gen_ok self color h a p (plain a b).
Proof.
  intros Hp Hb Hpat. split; [done|]. split; [done|]. split; [done|]. split.
  - by intros [x [=]].
  - intros [-> Hl]. simpl in Hl. destruct Hp; congruence.
Qed.

Lemma gen_ok_promotions self color h a b :
  last_row b.1 = true →
  lands_ok self color h b → pattern self color h a Pawn b →
  Forall (gen_ok self color h a Pawn) (promotions a b).
Proof.
  intros Hl Hb Hpat.
  assert (∀ q, gen_ok self color h a Pawn (mkMove a b (Some q) false false)) as Hq.
  { intros q. split; [done|]. split; [done|]. split; [done|]. split.
    - by intros _.
    - intros _. by exists q. }
  unfold promotions. simpl. repeat (constructor; [apply Hq|]). constructor.
Qed.

Lemma gen_ok_arrive self color h a rr cc :
  lands_ok self color h (rr, cc) → pattern self color h a Pawn (rr, cc) →
  Forall (gen_ok self color h a Pawn)
         (if last_row rr then promotions a (rr, cc) else [plain a (rr, cc)]).
Proof.
  intros Hb Hpat. destruct (last_row rr) eqn:E; [by apply gen_ok_promotions|].
  constructor; [|constructor]. apply gen_ok_plain; auto.
Qed.

Lemma guarded_step_ok self color h r c p dr dc zs :
  p ≠ Pawn →
  pattern self color h (r, c) p (r + dr, c + dc) →
  (ok ← and_rd (mret (in_bounds (r + dr) (c + dc)))
               (not_own self (r + dr) (c + dc) color);
   mret (if ok : bool then [plain (r, c) (r + dr, c + dc)] else [])) h = Ok zs →
  Forall (gen_ok self color h (r, c) p) zs.
Proof.
  intros Hp Hpat H. apply rd_bind_Ok in H as (ok & Hok & H). injection H as <-.
  destruct ok; [|constructor].
  apply and_rd_true in Hok as [Hb%guard_true Hn].
  constructor; [|constructor]. apply gen_ok_plain; auto.
  by apply lands_on_other.
Qed.

Lemma knight_moves_ok self color r c h zs :
  knight_moves self color r c h = Ok zs →
  Forall (gen_ok self color h (r, c) Knight) zs.
Proof.
  apply collect_rd_Forall_in. intros [dr dc] ws Hin H.
  eapply guarded_step_ok; [done| |exact H]. by exists (dr, dc).
Qed.

Lemma slide_ok n self color p r c d j h zs :
  p ≠ Pawn →
  (∀ k b, reaches self h (r, c) d k b → pattern self color h (r, c) p b) →
  1 ≤ j →
  (∀ i, 1 ≤ i < j → get_cell self (r + i * d.1) (c + i * d.2) h = Ok Empty) →
  slide n self color r c (r + j * d.1) (c + j * d.2) d.1 d.2 h = Ok zs →
  Forall (gen_ok self color h (r, c) p) zs.
Proof.
  intros Hp Hpat. revert j zs. induction n as [|n IH]; simpl; intros j zs Hj Hfree H.
  - destruct (in_bounds _ _); [discriminate|]. injection H as <-. constructor.
  - destruct (in_bounds _ _) eqn:Hb; [|injection H as <-; constructor].
    assert (pattern self color h (r, c) p (r + j * d.1, c + j * d.2)) as Hhere.
    { apply (Hpat j). by repeat split. }
    apply rd_bind_Ok in H as (e & He & H). destruct e.
    + apply rd_bind_Ok in H as (rest & Hr & H). injection H as <-.
      constructor.
      * apply gen_ok_plain; auto. by apply lands_on_empty.
      * replace (r + j * d.1 + d.1) with (r + (j + 1) * d.1) in Hr by lia.
        replace (c + j * d.2 + d.2) with (c + (j + 1) * d.2) in Hr by lia.
        apply (IH (j + 1)); [lia| |done]. intros i Hi.
        destruct (decide (i = j)) as [->|]; [by apply is_empty_true|].
        apply Hfree. lia.
    + apply rd_bind_Ok in H as (ok & Hok & H). injection H as <-.
      destruct ok; constructor; [|constructor].
      apply gen_ok_plain; auto. by apply lands_on_other.
Qed.

Lemma slider_moves_ok self color p r c h zs :
  p ≠ Pawn → p ≠ Knight → p ≠ King →
  slider_moves self color p r c h = Ok zs →
  Forall (gen_ok self color h (r, c) p) zs.
Proof.
  intros Hp Hn Hk. apply collect_rd_Forall_in. intros [dr dc] ws Hin H.
  replace (r + dr) with (r + 1 * (dr, dc).1) in H by (simpl; lia).
  replace (c + dc) with (c + 1 * (dr, dc).2) in H by (simpl; lia).
  apply (slide_ok ray_bound self color p r c (dr, dc) 1 h ws Hp);
    [|lia|intros; lia|exact H].
  intros k b Hreach. destruct p; try done; by exists (dr, dc), k.
Qed.

Lemma pawn_moves_ok self color r c h zs :
  pawn_moves self color r c h = Ok zs →
  Forall (gen_ok self color h (r, c) Pawn) zs.
Proof.
  intros H. unfold pawn_moves in H. cbv zeta in H.
  change (if decide (color = WHITE) then -1 else 1) with (forward color) in H.
  apply rd_bind_Ok in H as (free & Hfree & H).
  apply rd_bind_Ok in H as (pushes & Hpush & H).
  apply rd_bind_Ok in H as (caps & Hcaps & H).
  apply rd_bind_Ok in H as (ep & Hep & H). injection H as <-.
  rewrite !Forall_app. repeat split.
  - destruct free; [|injection Hpush as <-; constructor].
    apply and_rd_true in Hfree as [Hb%guard_true He].
    pose proof (lands_on_empty self color h _ _ Hb He) as Hone.
    apply is_empty_true in He.
    assert (Forall (gen_ok self color h (r, c) Pawn)
              (if last_row (r + forward color)
               then promotions (r, c) (r + forward color, c)
               else [plain (r, c) (r + forward color, c)])) as Hfirst.
    { apply gen_ok_arrive; [done|]. by left. }
    destruct ((r =? 6) && bool_decide (color = WHITE)
              || (r =? 1) && bool_decide (color = BLACK)) eqn:E.
    + apply rd_bind_Ok in Hpush as (e & He2 & Hpush). injection Hpush as <-.
      apply Forall_app. split; [done|].
      destruct e; constructor; [|constructor].
      assert (r = start_row color ∧ last_row (r + 2 * forward color) = false
              ∧ in_bounds (r + 2 * forward color) c = true) as (Hr & Hl & Hb2).
      { apply in_bounds_true in Hb.
        apply orb_prop in E as [E|E]; apply andb_prop in E as [E1 E2];
          apply Z.eqb_eq in E1; apply bool_decide_eq_true in E2; subst;
          (split; [done|]); (split; [done|]); apply in_bounds_true;
          unfold forward in *; simpl in *; lia. }
      apply gen_ok_plain; [by right | by apply lands_on_empty |].
      right. left. apply is_empty_true in He2. done.
    + by injection Hpush as <-.
  - eapply collect_rd_Forall_in; [|exact Hcaps]. intros dc ws Hdc Hw.
    cbv zeta in Hw.
    apply rd_bind_Ok in Hw as (hit & Hhit & Hw). injection Hw as <-.
    destruct hit; [|constructor].
    apply and_rd_true in Hhit as [Hb%guard_true Hhit].
    apply and_rd_true in Hhit as [Hne Hn].
    apply gen_ok_arrive; [by apply lands_on_other|].
    right. right. split; [done|]. split.
    + simpl. apply elem_of_cons in Hdc as [->|Hdc]; [lia|].
      apply elem_of_cons in Hdc as [->|Hdc]; [lia|]. by apply elem_of_nil in Hdc.
    + by apply holds_other.
  - destruct ep as [[er ec]|]; [|constructor].
    destruct ((er =? _) && (Z.abs (ec - c) =? 1)) eqn:E; [|constructor].
    apply andb_prop in E as [E1%Z.eqb_eq E2%Z.eqb_eq].
    constructor; [|constructor]. by repeat split.
Qed.

Lemma castle_ok self color k h zs :
  side k = color →
  castle self k (corner k).1 (between k)
    (match k with wK | bK => 5 | wQ | bQ => 3 end)
    (match k with wK | bK => 6 | wQ | bQ => 2 end)
    (match k with wK | bK => 6 | wQ | bQ => 2 end) (other color) h = Ok zs →
  in_check self color h = Ok false →
  ∀ a, Forall (gen_ok self color h a King) zs.
Proof.
  intros Hside H Hchk a. unfold castle in H.
  apply rd_bind_Ok in H as (ok & Hok & H). destruct ok.
  2:{ injection H as <-. constructor. }
  apply rd_bind_Ok in H as (safe & Hsafe & H). injection H as <-.
  destruct safe; [|constructor]. constructor; [|constructor].
  split; [done|]. exists k. split; [done|]. split; [by destruct k|].
  apply and_rd_true in Hok as [Hflag Hempty].
  apply and_rd_true in Hsafe as [H1 H2].
  apply rd_bind_Ok in H1 as (x1 & Hx1 & [= E1]).
  apply rd_bind_Ok in H2 as (x2 & Hx2 & [= E2]).
  destruct x1, x2; try discriminate. subst color.
  split; [done|]. split; [|split; [done|]].
  - intros cc Hcc. apply is_empty_true.
    destruct k; unfold between in Hcc, Hempty; cbn [fold_right] in Hempty;
      repeat (apply and_rd_true in Hempty as [? Hempty]);
      repeat (apply elem_of_cons in Hcc as [->|Hcc]; [assumption|]);
      by apply elem_of_nil in Hcc.
  - intros cc Hcc.
    destruct k; unfold crossed in Hcc;
      repeat (apply elem_of_cons in Hcc as [->|Hcc]; [assumption|]);
      by apply elem_of_nil in Hcc.
Qed.

Lemma king_moves_ok self color r c h zs :
  king_moves self color r c h = Ok zs →
  Forall (gen_ok self color h (r, c) King) zs.
Proof.
  intros H. unfold king_moves in H.
  apply rd_bind_Ok in H as (steps & Hsteps & H).
  apply rd_bind_Ok in H as (chk & Hchk & H).
  apply rd_bind_Ok in H as (castles & Hc & H). injection H as <-.
  apply Forall_app. split.
  - eapply collect_rd_Forall_in; [|exact Hsteps]. intros [dr dc] ws Hin H.
    eapply guarded_step_ok; [done| |exact H]. by exists (dr, dc).
  - destruct chk; [injection Hc as <-; constructor|].
    destruct (decide (color = WHITE)) as [->|Hb].
    + apply rd_bind_Ok in Hc as (ks & Hk & Hc).
      apply rd_bind_Ok in Hc as (qs & Hq & Hc). injection Hc as <-.
      apply Forall_app; split;
        [apply (castle_ok self WHITE wK h ks) | apply (castle_ok self WHITE wQ h qs)];
        first [reflexivity | assumption].
    + assert (color = BLACK) as -> by (by destruct color).
      apply rd_bind_Ok in Hc as (ks & Hk & Hc).
      apply rd_bind_Ok in Hc as (qs & Hq & Hc). injection Hc as <-.
      apply Forall_app; split;
        [apply (castle_ok self BLACK bK h ks) | apply (castle_ok self BLACK bQ h qs)];
        first [reflexivity | assumption].
Qed.

Lemma moves_from_ok self color r c h zs :
  moves_from self color r c h = Ok zs →
  Forall (λ m, ∃ p, get_cell self r c h = Ok (Piece color p) ∧
                    gen_ok self color h (r, c) p m) zs.
Proof.
  intros H. unfold moves_from in H.
  apply rd_bind_Ok in H as (col & Hcol & H).
  destruct (bool_decide (col ≠ Some color)) eqn:E;
    [injection H as <-; constructor|].
  apply bool_decide_eq_false in E. apply dec_stable in E. subst col.
  apply rd_bind_Ok in H as (v & Hv & H).
  destruct v as [|col' k]; [discriminate|].
  rewrite (color_at_cell _ _ _ _ _ Hv) in Hcol. injection Hcol as ->.
  assert (Forall (gen_ok self color h (r, c) k) zs) as Hall.
  { destruct k;
      first [ by apply pawn_moves_ok | by apply knight_moves_ok
            | by apply king_moves_ok | by apply slider_moves_ok ]. }
  eapply Forall_impl; [|exact Hall]. intros m Hm. by exists k.
Qed.

Lemma generate_pseudo_ok self color h ms mv :
  generate_pseudo self color h = Ok ms → mv ∈ ms →
  ∃ a p, in_bounds a.1 a.2 = true ∧
         get_cell self a.1 a.2 h = Ok (Piece color p) ∧
         gen_ok self color h a p mv.
Proof.
  intros Hgen Hmv.
  destruct (collect_rd_elem _ _ _ _ _ Hgen Hmv) as (r & zr & Hr & Hzr & Hmv1).
  destruct (collect_rd_elem _ _ _ _ _ Hzr Hmv1) as (c & zs & Hc & Hzs & Hmv0).
  pose proof (in_bounds_range8 r c Hr Hc) as Hb.
  pose proof (moves_from_ok _ _ _ _ _ _ Hzs) as Hall.
  rewrite list.Forall_forall in Hall. destruct (Hall mv Hmv0) as (p & Hp & Hm).
  by exists (r, c), p.
Qed.

(** ** What [generate_pseudo] emits *)

(** X10. Every move that [generate_pseudo] emits for [color] joins two
    different squares and starts on the board. Unless it castles, its
    source holds a piece of [color]. Unless it is an en-passant move,
    its target is on the board and holds no piece of [color]. *)
Theorem pseudo_moves_stay_on_board h self color ms mv :
  generate_pseudo self color h = Ok ms → mv ∈ ms →
  fr mv ≠ to mv ∧
  in_bounds (fr mv).1 (fr mv).2 = true ∧
  (is_castle mv = false →
   color_at self (fr mv).1 (fr mv).2 h = Ok (Some color)) ∧
  (is_en_passant mv = false → lands_ok self color h (to mv)).
Proof.
  intros Hgen Hmv.
  destruct (generate_pseudo_ok _ _ _ _ _ Hgen Hmv) as (a & p & Hb & Hcell & Hm).
  unfold gen_ok in Hm. destruct (is_castle mv) eqn:Hc.
  - destruct Hm as (_ & k & _ & -> & Hflag & Hfree & _).
    split; [destruct k; by intros [=]|]. split; [by destruct k|].
    split; [done|]. intros _. split; [by destruct k|]. exists None.
    split; [|done]. apply (color_at_cell _ _ _ _ Empty), Hfree.
    destruct k; simpl; repeat first [by left | right].
  - destruct Hm as [<- Hm].
    pose proof (color_at_cell _ _ _ _ _ Hcell) as Hcol.
    destruct (is_en_passant mv).
    + destruct Hm as (_ & _ & _ & _ & Habs).
      split; [intros E; rewrite E in Habs; lia|]. done.
    + destruct Hm as (Hland & _).
      split; [|done]. intros E. destruct Hland as (_ & col & Hto & Hne).
      rewrite <- E, Hcol in Hto. by injection Hto as <-.
Qed.

Lemma pseudo_moves_stay_on_board_witness :
  e2 ≠ e4 ∧ in_bounds e2.1 e2.2 = true ∧
  (false = false → color_at first_board e2.1 e2.2 (after []) = Ok (Some WHITE)) ∧
  (false = false → lands_ok first_board WHITE (after []) e4).
Proof.
  apply (pseudo_moves_stay_on_board (after []) first_board WHITE
           (value_or [] (generate_pseudo first_board WHITE (after [])))
           (plain e2 e4)).
  - vm_compute. reflexivity.
  - apply (bool_decide_unpack _). vm_compute. exact I.
Defined.

(** X11. [generate_pseudo] emits a castling move for [color] only as
    the move of one of the two rights of [color], from the king's home
    square two columns towards the rook, and only when the right is
    still set, the squares between king and rook are empty, [in_check]
    answers no for [color], and [is_attacked] answers no for the other
    side on the square the king crosses and on the square it lands
    on. *)
Theorem castling_is_checked h self color ms mv :
  generate_pseudo self color h = Ok ms → mv ∈ ms → is_castle mv = true →
  ∃ k, side k = color ∧ mv = castling_move k ∧ castle_checked self h k.
Proof.
  intros Hgen Hmv Hc.
  destruct (generate_pseudo_ok _ _ _ _ _ Hgen Hmv) as (a & p & Hb & Hcell & Hm).
  unfold gen_ok in Hm. rewrite Hc in Hm. by destruct Hm as [_ Hm].
Qed.

Lemma castling_is_checked_witness :
  ∃ k, side k = WHITE ∧ castling_move wK = castling_move k ∧
       castle_checked first_board
         (after [plain g1 f3; plain g2 g4; plain f1 g2]) k.
Proof.
  apply (castling_is_checked (after [plain g1 f3; plain g2 g4; plain f1 g2])
           first_board WHITE
           (value_or [] (generate_pseudo first_board WHITE
                           (after [plain g1 f3; plain g2 g4; plain f1 g2])))
           (castling_move wK)).
  - vm_compute. reflexivity.
  - apply (bool_decide_unpack _). vm_compute. exact I.
  - reflexivity.
Defined.

(** X12. [generate_pseudo] emits an en-passant move for [color] only
    from a pawn of [color], to the square stored in [en_passant], which
    lies one row ahead of the pawn and one column beside it; the move
    neither promotes nor castles. *)
Theorem en_passant_move_shape h self color ms mv :
  generate_pseudo self color h = Ok ms → mv ∈ ms → is_en_passant mv = true →
  get_cell self (fr mv).1 (fr mv).2 h = Ok (Piece color Pawn) ∧
  get_en_passant self h = Ok (Some (to mv)) ∧
  (to mv).1 = (fr mv).1 + forward color ∧
  Z.abs ((to mv).2 - (fr mv).2) = 1 ∧
  promotion mv = None ∧ is_castle mv = false.
Proof.
  intros Hgen Hmv He.
  destruct (generate_pseudo_ok _ _ _ _ _ Hgen Hmv) as (a & p & Hb & Hcell & Hm).
  unfold gen_ok in Hm. destruct (is_castle mv) eqn:Hc.
  - destruct Hm as (_ & k & _ & -> & _). discriminate.
  - rewrite He in Hm. destruct Hm as (<- & -> & Hm). by destruct Hm as (? & ? & ? & ?).
Qed.

Lemma en_passant_move_shape_witness :
  get_cell first_board e5.1 e5.2
    (after [plain e2 e4; plain e4 e5; plain d7 d5]) = Ok (Piece WHITE Pawn) ∧
  get_en_passant first_board
    (after [plain e2 e4; plain e4 e5; plain d7 d5]) = Ok (Some (2, 3)) ∧
  2 = e5.1 + forward WHITE ∧ Z.abs (3 - e5.2) = 1 ∧
  @None Kind = None ∧ false = false.
Proof.
  apply (en_passant_move_shape (after [plain e2 e4; plain e4 e5; plain d7 d5])
           first_board WHITE
           (value_or [] (generate_pseudo first_board WHITE
                           (after [plain e2 e4; plain e4 e5; plain d7 d5])))
           (mkMove e5 (2, 3) None false true)).
  - vm_compute. reflexivity.
  - apply (bool_decide_unpack _). vm_compute. exact I.
  - reflexivity.
Defined.

(** X13. Castling and en passant apart, a move that [generate_pseudo]
    emits for [color] follows the pattern of the piece on its source:
    a pawn steps one row ahead onto an empty square, or two rows from
    its starting row over two empty squares, or one row ahead and one
    column aside onto a piece of the other side; a knight and a king
    move by one of their eight offsets; a bishop, rook or queen moves
    along one of its rays over empty squares only. The move carries a
    promotion exactly when a pawn arrives on row 0 or 7. *)
Theorem piece_moves_follow_pattern h self color ms mv :
  generate_pseudo self color h = Ok ms → mv ∈ ms →
  is_castle mv = false → is_en_passant mv = false →
  ∃ p, get_cell self (fr mv).1 (fr mv).2 h = Ok (Piece color p) ∧
       pattern self color h (fr mv) p (to mv) ∧
       (is_Some (promotion mv) ↔ p = Pawn ∧ last_row (to mv).1 = true).
Proof.
  intros Hgen Hmv Hc He.
  destruct (generate_pseudo_ok _ _ _ _ _ Hgen Hmv) as (a & p & Hb & Hcell & Hm).
  unfold gen_ok in Hm. rewrite Hc, He in Hm. destruct Hm as (<- & _ & Hpat & Hpr).
  by exists p.
Qed.

Lemma piece_moves_follow_pattern_witness :
  ∃ p, get_cell first_board g1.1 g1.2 (after []) = Ok (Piece WHITE p) ∧
       pattern first_board WHITE (after []) g1 p f3 ∧
       (is_Some (@None Kind) ↔ p = Pawn ∧ last_row f3.1 = true).
Proof.
  apply (piece_moves_follow_pattern (after []) first_board WHITE
           (value_or [] (generate_pseudo first_board WHITE (after [])))
           (plain g1 f3)).
  - vm_compute. reflexivity.
  - apply (bool_decide_unpack _). vm_compute. exact I.
  - reflexivity.
  - reflexivity.
Defined.

(** ** [clone] copies the board *)

Lemma st_bind_eq {A B} (m : st A) (f : A → st B) h a h1 :
  m h = (Ok a, h1) → (m ≫= f) h = f a h1.
Proof. intros E. unfold mbind, st_bind. by rewrite E. Qed.

Lemma read_eq {A} (m : rd A) h a : m h = Ok a → read m h = (Ok a, h).
Proof. intros E. unfold read. by rewrite E. Qed.

Lemma map_st_copy h rows h' :
  h `prefix_of` h' →
  Forall (λ l, ∃ cells, h !! l = Some (ORow cells)) rows →
  map_st (λ l, cells ← read (as_row l); alloc (ORow cells)) rows h'
  = (Ok (seq (length h') (length rows)), h' ++ (ORow ∘ row_of h <$> rows)).
Proof.
  revert h'. induction rows as [|l rows IH]; intros h' Hpre Hall; simpl.
  - by rewrite app_nil_r.
  - inversion Hall as [|? ? (cells & Hc) Hall']; subst.
    assert (as_row l h' = Ok cells) as Hrow.
    { destruct Hpre as [ext ->]. unfold as_row.
      by rewrite (lookup_app_l_Some _ _ _ _ Hc). }
    rewrite (st_bind_eq _ _ h' (length h') (h' ++ [ORow cells])).
    2:{ by rewrite (st_bind_eq _ _ _ _ _ (read_eq _ _ _ Hrow)). }
    rewrite (st_bind_eq _ _ _ _ _ (IH (h' ++ [ORow cells])
               (transitivity Hpre (prefix_app_r _ _ _ (reflexivity _))) Hall')).
    assert (row_of h l = cells) as Hl by (unfold row_of; by rewrite Hc).
    unfold mret, st_ret. rewrite length_app, Nat.add_1_r, <- app_assoc. simpl.
    by rewrite Hl.
Qed.

Lemma as_board_eq l h b : h !! l = Some (OBoard b) → as_board l h = Ok b.
Proof. intros E. unfold as_board. by rewrite E. Qed.

Lemma set_board_eq self g h b :
  h !! self = Some (OBoard b) →
  set_board self g h
  = (Ok tt, <[self := OBoard (mkBoard g (turn b) (castling b) (en_passant b))]> h).
Proof.
  intros E. unfold set_board.
  by rewrite (st_bind_eq _ _ _ _ _ (read_eq _ _ _ (as_board_eq _ _ _ E))).
Qed.

Lemma set_turn_eq self t h b :
  h !! self = Some (OBoard b) →
  set_turn self t h
  = (Ok tt, <[self := OBoard (mkBoard (board b) t (castling b) (en_passant b))]> h).
Proof.
  intros E. unfold set_turn.
  by rewrite (st_bind_eq _ _ _ _ _ (read_eq _ _ _ (as_board_eq _ _ _ E))).
Qed.

Lemma set_castling_ref_eq self d h b :
  h !! self = Some (OBoard b) →
  set_castling_ref self d h
  = (Ok tt, <[self := OBoard (mkBoard (board b) (turn b) d (en_passant b))]> h).
Proof.
  intros E. unfold set_castling_ref.
  by rewrite (st_bind_eq _ _ _ _ _ (read_eq _ _ _ (as_board_eq _ _ _ E))).
Qed.

Lemma set_en_passant_eq self ep h b :
  h !! self = Some (OBoard b) →
  set_en_passant self ep h
  = (Ok tt, <[self := OBoard (mkBoard (board b) (turn b) (castling b) ep)]> h).
Proof.
  intros E. unfold set_en_passant.
  by rewrite (st_bind_eq _ _ _ _ _ (read_eq _ _ _ (as_board_eq _ _ _ E))).
Qed.

(** The store that [clone] leaves: the store [h1] of [Board()], the
    copies of the eight rows, the new outer list, the copy of the
    dictionary, and the new board object in the place of the one that
    [Board()] made. *)
Lemma clone_store h self b0 rows d :
  h !! self = Some (OBoard b0) →
  h !! board b0 = Some (OGrid rows) →
  h !! castling b0 = Some (ODict d) →
  Forall (λ l, ∃ cells, h !! l = Some (ORow cells)) rows →
  ∃ nb h1,
    Board_new h = (Ok nb, h1) ∧ (length h ≤ nb < length h1)%nat ∧
    h `prefix_of` h1 ∧
    clone self h
    = (Ok nb,
       <[nb := OBoard (mkBoard (length h1 + length rows) (turn b0)
                               (length h1 + length rows + 1) (en_passant b0))]>
         (h1 ++ (ORow ∘ row_of h <$> rows)
             ++ [OGrid (seq (length h1) (length rows)); ODict d])).
Proof.
  intros Hself Hgrid Hdict Hrows.
  destruct (Board_new_board_ok h) as (nb & h1 & HB & (B1 & g1 & d1 & HB1 & _) & _).
  destruct (Board_new_confined (length h) h h (apart_start h)) as [Hap Hnb].
  rewrite HB in Hap, Hnb. simpl in Hap, Hnb. specialize (Hnb nb eq_refl).
  pose proof (apart_prefix _ _ _ Hap) as Hpre.
  pose proof (lookup_lt_Some _ _ _ HB1) as Hlt.
  exists nb, h1. split; [done|]. split; [lia|]. split; [done|].
  assert (∀ l o, h !! l = Some o → h1 !! l = Some o) as Hold.
  { intros l o Hl. destruct Hpre as [ext ->]. by apply lookup_app_l_Some. }
  assert (∀ l o, h !! l = Some o → l ≠ nb) as Hne.
  { intros l o Hl%lookup_lt_Some. lia. }
  set (copies := ORow ∘ row_of h <$> rows).
  set (m := length h1).
  unfold clone. rewrite (st_bind_eq _ _ _ _ _ HB).
  rewrite (st_bind_eq _ _ _ _ _ (read_eq _ _ _ (as_board_eq _ _ _ (Hold _ _ Hself)))).
  rewrite (st_bind_eq _ _ h1 rows h1).
  2:{ apply read_eq. unfold as_grid. by rewrite (Hold _ _ Hgrid). }
  rewrite (st_bind_eq _ _ _ _ _ (map_st_copy h rows h1 Hpre Hrows)).
  fold m copies.
  rewrite (st_bind_eq _ _ (h1 ++ copies) (m + length rows)%nat
             (h1 ++ copies ++ [OGrid (seq m (length rows))])).
  2:{ unfold alloc. rewrite length_app. unfold copies at 1.
      by rewrite length_fmap, <- app_assoc. }
  set (h3 := h1 ++ copies ++ [OGrid (seq m (length rows))]).
  assert (∀ l o, h !! l = Some o → h3 !! l = Some o) as Hold3.
  { intros l o Hl. by apply lookup_app_l_Some, Hold. }
  assert (h3 !! nb = Some (OBoard B1)) as H3 by (by apply lookup_app_l_Some).
  assert (nb < length h3)%nat as Hlt3 by (by eapply lookup_lt_Some).
  rewrite (st_bind_eq _ _ _ _ _ (set_board_eq _ _ _ _ H3)).
  set (h4 := <[nb := _]> h3).
  assert (∀ l o, h !! l = Some o → h4 !! l = Some o) as Hold4.
  { intros l o Hl. unfold h4.
    rewrite list_lookup_insert_ne by (symmetry; eauto). by apply Hold3. }
  assert (get_turn self h4 = Ok (turn b0)) as Ht.
  { apply get_turn_Ok. exists b0. split; [|done]. by apply Hold4. }
  rewrite (st_bind_eq _ _ _ _ _ (read_eq _ _ _ Ht)).
  clear Hold4 Ht. subst h4.
  rewrite (st_bind_eq _ _ _ _ _
             (set_turn_eq _ _ _ _ (list_lookup_insert_eq _ _ _ Hlt3))).
  rewrite list_insert_insert_eq. simpl.
  set (h5 := <[nb := _]> h3).
  assert (∀ l o, h !! l = Some o → h5 !! l = Some o) as Hold5.
  { intros l o Hl. unfold h5.
    rewrite list_lookup_insert_ne by (symmetry; eauto). by apply Hold3. }
  rewrite (st_bind_eq _ _ _ _ _ (read_eq _ _ _ (as_board_eq _ _ _ (Hold5 _ _ Hself)))).
  assert (as_dict (castling b0) h5 = Ok d) as Hd.
  { unfold as_dict. by rewrite (Hold5 _ _ Hdict). }
  rewrite (st_bind_eq _ _ _ _ _ (read_eq _ _ _ Hd)).
  rewrite (st_bind_eq _ _ h5 (length h3) (h5 ++ [ODict d])).
  2:{ unfold alloc, h5. by rewrite length_insert. }
  assert (nb < length (h5 ++ [ODict d]))%nat as Hlt5.
  { unfold h5. rewrite length_app, length_insert. lia. }
  clear Hd. subst h5.
  rewrite (st_bind_eq _ _ _ _ _
             (set_castling_ref_eq _ _ _ _
                (lookup_app_l_Some _ _ _ _ (list_lookup_insert_eq _ _ _ Hlt3)))).
  simpl.
  set (h6 := <[nb := _]> (_ ++ [ODict d])).
  assert (get_en_passant self h6 = Ok (en_passant b0)) as Hep.
  { apply get_en_passant_Ok. exists b0. split; [|done]. unfold h6.
    rewrite list_lookup_insert_ne by (symmetry; eauto).
    by apply lookup_app_l_Some, Hold5. }
  rewrite (st_bind_eq _ _ _ _ _ (read_eq _ _ _ Hep)).
  clear Hep. subst h6.
  rewrite (st_bind_eq _ _ _ _ _
             (set_en_passant_eq _ _ _ _ (list_lookup_insert_eq _ _ _ Hlt5))).
  unfold mret, st_ret. f_equal. rewrite list_insert_insert_eq. simpl.
  rewrite insert_app_l by (rewrite length_insert; lia).
  rewrite list_insert_insert_eq.
  assert (length h3 = m + length rows + 1)%nat as ->.
  { unfold h3, copies. rewrite !length_app, length_fmap. simpl. lia. }
  unfold h3.
  replace (h1 ++ copies ++ [OGrid (seq m (length rows)); ODict d])
    with ((h1 ++ copies ++ [OGrid (seq m (length rows))]) ++ [ODict d])
    by (by rewrite <- !app_assoc).
  by rewrite (insert_app_l _ [ODict d]) by done.
Qed.

Lemma get_cell_eq self r c h b rows :
  h !! self = Some (OBoard b) → h !! board b = Some (OGrid rows) →
  get_cell self r c h
  = match py_getitem rows r with
    | Ok l => match h !! l with
              | Some (ORow cells) => py_getitem cells c
              | _ => Raise TypeError
              end
    | Raise e => Raise e
    end.
Proof.
  intros Hb Hg. unfold get_cell.
  rewrite (rd_bind_eq _ _ _ _ (as_board_eq _ _ _ Hb)).
  rewrite (rd_bind_eq _ _ _ rows) by (unfold as_grid; by rewrite Hg).
  unfold mbind, rd_bind, lift, as_row.
  destruct (py_getitem rows r) as [l|e]; [|done].
  by destruct (h !! l) as [[]|].
Qed.

Lemma py_index_lt n i k : py_index n i = Some k → (k < n)%nat.
Proof.
  unfold py_index. intros H.
  destruct ((0 <=? i) && (i <? Z.of_nat n)) eqn:E1.
  - injection H as <-. apply andb_prop in E1 as [?%Z.leb_le ?%Z.ltb_lt]. lia.
  - destruct ((- Z.of_nat n <=? i) && (i <? 0)) eqn:E2; [|discriminate].
    injection H as <-. apply andb_prop in E2 as [?%Z.leb_le ?%Z.ltb_lt]. lia.
Qed.

Lemma clone_copies h self :
  shape_ok h self →
  ∃ b h', clone self h = (Ok b, h') ∧
          h `prefix_of` h' ∧ owns (length h) h' b ∧
          shape_ok h' b ∧ same_board self h b h'.
Proof.
  intros (b0 & rows & d & Hself & Hgrid & Hdict & Hlen & Hnd & Hrows).
  assert (Forall (λ l, ∃ cells, h !! l = Some (ORow cells)) rows) as Hrows'.
  { eapply list.Forall_impl; [exact Hrows|]. intros l (cells & ? & _). by exists cells. }
  destruct (clone_store h self b0 rows d Hself Hgrid Hdict Hrows')
    as (nb & h1 & _ & [Hge Hlt] & Hpre & Hclone).
  rewrite Hlen in Hclone.
  set (m := length h1) in *.
  set (copies := ORow ∘ row_of h <$> rows) in *.
  set (bf := mkBoard (m + 8) (turn b0) (m + 8 + 1) (en_passant b0)) in *.
  set (tail := copies ++ [OGrid (seq m 8); ODict d]) in *.
  set (hf := <[nb := OBoard bf]> (h1 ++ tail)) in *.
  assert (length copies = 8%nat) as Hlc by (unfold copies; by rewrite length_fmap).
  assert (hf !! nb = Some (OBoard bf)) as Hnb.
  { apply list_lookup_insert_eq. rewrite length_app. lia. }
  assert (∀ k, hf !! (m + k)%nat = tail !! k) as Htail.
  { intros k. unfold hf. rewrite list_lookup_insert_ne by lia.
    rewrite lookup_app_r by lia. f_equal. lia. }
  assert (hf !! (m + 8)%nat = Some (OGrid (seq m 8))) as Hg.
  { rewrite Htail. unfold tail. rewrite lookup_app_r by lia. by rewrite Hlc. }
  assert (hf !! (m + 8 + 1)%nat = Some (ODict d)) as Hd.
  { replace (m + 8 + 1)%nat with (m + 9)%nat by lia.
    rewrite Htail. unfold tail. rewrite lookup_app_r by lia. by rewrite Hlc. }
  assert (∀ k l, rows !! k = Some l →
                 hf !! (m + k)%nat = Some (ORow (row_of h l)) ∧
                 h !! l = Some (ORow (row_of h l)) ∧
                 length (row_of h l) = 8%nat) as Hrow.
  { intros k l Hk. pose proof (lookup_lt_Some _ _ _ Hk) as Hk8.
    destruct (Forall_lookup_1 _ _ _ _ Hrows Hk) as (cells & Hc & Hl8).
    assert (row_of h l = cells) as -> by (unfold row_of; by rewrite Hc).
    split; [|done]. rewrite Htail. unfold tail.
    rewrite lookup_app_l by lia. unfold copies.
    rewrite list_lookup_fmap, Hk. simpl.
    unfold row_of. by rewrite Hc. }
  exists nb, hf. split; [done|]. split; [|split; [|split]].
  - exists (drop (length h) hf). rewrite <- (take_drop (length h) hf) at 1.
    f_equal. unfold hf. rewrite take_insert_ge by lia.
    destruct Hpre as [ext E]. rewrite E, <- app_assoc. by rewrite take_app_length.
  - split; [lia|]. intros b Hb. rewrite Hnb in Hb. injection Hb as <-.
    assert (length h ≤ m)%nat by lia.
    split; [simpl; lia|]. intros rows1 Hr.
    change (board bf) with (m + 8)%nat in Hr. rewrite Hg in Hr.
    assert (rows1 = seq m 8) as -> by congruence.
    apply Forall_lookup_2. intros i l [-> _]%lookup_seq. lia.
  - exists bf, (seq m 8), d. repeat split; try done.
    + apply NoDup_seq.
    + apply Forall_lookup_2. intros i l [-> Hi]%lookup_seq.
      destruct (lookup_lt_is_Some_2 rows i) as [l Hl]; [lia|].
      destruct (Hrow i l Hl) as (? & _ & ?). by exists (row_of h l).
  - split; [|split; [|split]].
    + intros r c.
      rewrite (get_cell_eq nb r c hf bf (seq m 8) Hnb Hg).
      rewrite (get_cell_eq self r c h b0 rows Hself Hgrid).
      unfold py_getitem at 1 3. rewrite length_seq, Hlen.
      destruct (py_index 8 r) as [k|] eqn:Ek; [|done].
      apply py_index_lt in Ek.
      destruct (lookup_lt_is_Some_2 rows k) as [l Hl]; [lia|].
      destruct (Hrow k l Hl) as (Hnew & Hold & _).
      rewrite lookup_seq_lt by done. by rewrite Hl, Hnew, Hold.
    + transitivity (Ok (turn b0)); [|symmetry]; apply get_turn_Ok; eauto.
    + intros k. transitivity (Ok (dict_get d k)); [|symmetry];
        apply get_castling_Ok; eauto.
    + transitivity (Ok (en_passant b0)); [|symmetry];
        apply get_en_passant_Ok; eauto.
Qed.

(** X14. On a well-formed board [clone] returns a board that is new:
    the store before is a prefix of the store after, and the new board,
    its outer list, its rows and its dictionary were all allocated
    after it, so that the copy shares nothing with the original. The
    copy is well-formed and reads as the original does: the same cell
    for every pair of indices, in range or not, the same side to move,
    castling rights and en-passant target. *)
Theorem clone_is_a_fresh_copy h self :
  shape_ok h self →
  ∃ b h', clone self h = (Ok b, h') ∧
          h `prefix_of` h' ∧ owns (length h) h' b ∧
          shape_ok h' b ∧ same_board self h b h'.
Proof. apply clone_copies. Qed.

Lemma clone_is_a_fresh_copy_witness :
  ∃ b h', clone first_board (after [plain e2 e4]) = (Ok b, h') ∧
          after [plain e2 e4] `prefix_of` h' ∧
          owns (length (after [plain e2 e4])) h' b ∧
          shape_ok h' b ∧ same_board first_board (after [plain e2 e4]) b h'.
Proof.
  apply (clone_is_a_fresh_copy (after [plain e2 e4]) first_board).
  apply shape_okb_sound. vm_compute. reflexivity.
Defined.

(** ** [Board()] sets up the starting position *)

Lemma writes_ret self : writes self (mret tt) id.
Proof. intros f h Hf. by exists h. Qed.

Lemma writes_bind self m m' F F' :
  writes self m F → writes self m' F' → writes self (m;; m') (F' ∘ F).
Proof.
  intros Hm Hm' f h Hf.
  destruct (Hm f h Hf) as (h1 & E1 & H1).
  destruct (Hm' _ h1 H1) as (h2 & E2 & H2).
  exists h2. split; [|done]. by rewrite (st_bind_eq _ _ _ _ _ E1).
Qed.

Lemma writes_set_cell self r c v :
  in_bounds r c = true → writes self (set_cell self r c v) (upd r c v).
Proof.
  intros Hb f h [Hs Hf].
  destruct (set_cell_spec h self r c v Hs Hb) as (h' & E & Hs' & Hv & Hrest).
  exists h'. split; [done|]. split; [done|]. intros r' c' Hb'. unfold upd.
  destruct (decide ((r', c') = (r, c))) as [[= -> ->]|Hne]; [done|].
  rewrite Hrest by done. by apply Hf.
Qed.

Lemma setup_writes self :
  ∃ F, writes self (_setup self) F ∧
       ∀ r c, in_bounds r c = true → F (λ _ _, Empty) r c = start_cell r c.
Proof.
  eexists. split.
  - unfold _setup, back, range8. simpl.
    repeat first [ apply writes_bind | by apply writes_set_cell | apply writes_ret ].
  - intros r c [Hr Hc]%in_bounds_true.
    assert (r = 0 ∨ r = 1 ∨ r = 2 ∨ r = 3 ∨ r = 4 ∨ r = 5 ∨ r = 6 ∨ r = 7)
      as Hr' by lia.
    assert (c = 0 ∨ c = 1 ∨ c = 2 ∨ c = 3 ∨ c = 4 ∨ c = 5 ∨ c = 6 ∨ c = 7)
      as Hc' by lia.
    destruct Hr' as [->|[->|[->|[->|[->|[->|[->| ->]]]]]]];
      destruct Hc' as [->|[->|[->|[->|[->|[->|[->| ->]]]]]]]; reflexivity.
Qed.

Lemma setup_turn self t : preserves (turn_is self t) (_setup self).
Proof. unfold _setup. pres. Qed.

Lemma setup_flag self k v : preserves (flag_is self k v) (_setup self).
Proof. unfold _setup. pres. Qed.

(** X15. On every store [Board()] returns a new board: the store
    before is a prefix of the store after, and the board, its outer
    list, its rows and its dictionary were allocated after it. The
    board is well-formed and holds the starting position of chess:
    Black's pieces on rows 0 and 1, White's on rows 6 and 7, rooks,
    knights and bishops from the edges inwards, the queens on column 3
    and the kings on column 4. White is to move, the four castling
    rights are set and there is no en-passant target. *)
Theorem Board_new_sets_up_the_start h :
  ∃ self h', Board_new h = (Ok self, h') ∧
             h `prefix_of` h' ∧ owns (length h) h' self ∧
             cells_are self start_cell h' ∧
             get_turn self h' = Ok WHITE ∧
             (∀ k, get_castling self k h' = Ok true) ∧
             get_en_passant self h' = Ok None.
Proof.
  set (n := length h).
  set (rows := seq n 8).
  set (tail := ((λ _ : Z, ORow (replicate 8 Empty)) <$> range8) ++
               [OGrid rows; ODict (mkCastling true true true true);
                OBoard (mkBoard (n + 8) WHITE (n + 9) None)]).
  assert (∀ k, (h ++ tail) !! (n + k)%nat = tail !! k) as Hlook.
  { intros k. rewrite lookup_app_r by (unfold n; lia). f_equal. unfold n. lia. }
  assert (shape_ok (h ++ tail) (n + 10)) as Hs.
  { exists (mkBoard (n + 8) WHITE (n + 9) None), rows,
      (mkCastling true true true true).
    simpl. rewrite !Hlook. repeat split; try done.
    - apply NoDup_seq.
    - apply Forall_lookup_2. intros i l Hl.
      apply lookup_seq in Hl as [-> Hi]. rewrite Hlook.
      exists (replicate 8 Empty). split; [|done].
      do 8 (destruct i as [|i]; [done|]). lia. }
  assert (cells_are (n + 10) (λ _ _, Empty) (h ++ tail)) as Hcells.
  { split; [done|]. intros r c [Hr Hc]%in_bounds_true.
    assert (Z.to_nat r < 8)%nat as Hr8 by lia.
    eapply (get_cell_intro _ _ _ _ _ rows (n + Z.to_nat r) (replicate 8 Empty)).
    - by rewrite Hlook.
    - simpl. by rewrite Hlook.
    - apply py_getitem_nat; [lia|]. unfold rows. by apply lookup_seq.
    - rewrite Hlook. unfold tail. rewrite lookup_app_l by (simpl; lia).
      unfold range8. simpl. clear Hr. revert Hr8.
      generalize (Z.to_nat r). intros k Hk.
      do 8 (destruct k as [|k]; [done|]). lia.
    - apply py_getitem_nat; [lia|]. apply lookup_replicate. split; [done|]. lia. }
  destruct (setup_writes (n + 10)) as (F & HF & Hstart).
  destruct (HF _ _ Hcells) as (h' & E & Hs' & Hcells').
  assert (Board_new h = (Ok (n + 10)%nat, h')) as HB.
  { unfold Board_new. unfold mbind at 1, st_bind at 1.
    rewrite (map_st_alloc (λ _, ORow (replicate 8 Empty))).
    unfold mbind, st_bind, alloc. simpl.
    rewrite !length_app. simpl.
    replace (length h + 8 + 1 + 1)%nat with (n + 10)%nat by (unfold n; lia).
    replace (length h + 8 + 1)%nat with (n + 9)%nat by (unfold n; lia).
    replace (length h + 8)%nat with (n + 8)%nat by (unfold n; lia).
    rewrite <- !app_assoc. simpl. fold n.
    unfold tail, rows in E. simpl in E. by rewrite E. }
  destruct (Board_new_confined n h h (apart_start h)) as [Hap Hself].
  rewrite HB in Hap, Hself. simpl in Hap, Hself.
  exists (n + 10)%nat, h'. split; [done|].
  split; [by eapply apart_prefix|]. split; [|split; [|split; [|split]]].
  - split; [unfold n; lia|]. intros b Hb.
    destruct Hap as (_ & _ & Hrefs).
    destruct (Hrefs _ _ (Hself _ eq_refl) Hb) as [Hg Hd].
    split; [done|]. intros rows1 Hrows1. by apply (Hrefs _ _ Hg Hrows1).
  - split; [done|]. intros r c Hb. rewrite Hcells' by done. f_equal. by apply Hstart.
  - eapply (preserves_run _ _ _ _ _ (setup_turn (n + 10) WHITE)); [|exact E].
    apply get_turn_Ok. eexists. by rewrite Hlook.
  - intros k.
    eapply (preserves_run _ _ _ _ _ (setup_flag (n + 10) k true)); [|exact E].
    apply get_castling_Ok.
    exists (mkBoard (n + 8) WHITE (n + 9) None), (mkCastling true true true true).
    simpl. rewrite !Hlook. split; [done|]. split; [done|]. by destruct k.
  - eapply (preserves_run _ _ _ _ _ (setup_en_passant (n + 10) None)); [|exact E].
    apply get_en_passant_Ok. eexists. by rewrite Hlook.
Qed.

(** X16. On a well-formed board [generate_pseudo] returns a list of
    moves for either colour: no read leaves the grid, the king whose
    moves are generated is found by [in_check], and every ray ends
    within eight steps. *)
Theorem generate_pseudo_never_raises h self color :
  shape_ok h self → ∃ ms, generate_pseudo self color h = Ok ms.
Proof. intros Hs. by apply generate_pseudo_returns. Qed.

Lemma generate_pseudo_never_raises_witness :
  ∃ ms, generate_pseudo first_board BLACK (after [plain e2 e4]) = Ok ms.
Proof.
  apply (generate_pseudo_never_raises (after [plain e2 e4]) first_board BLACK).
  apply shape_okb_sound. vm_compute. reflexivity.
Defined.

(** X17. On a well-formed board [is_attacked] returns a boolean for
    every pair of integers [(r,c)], on the board or off it, and for
    either colour: each of its reads is guarded by [in_bounds], and
    its rays end within eight steps. *)
Theorem is_attacked_never_raises h self r c by_color :
  shape_ok h self → ∃ b, is_attacked self r c by_color h = Ok b.
Proof. intros Hs. by apply returns_is_attacked. Qed.

Lemma is_attacked_never_raises_witness :
  ∃ b, is_attacked first_board (-3) 11 WHITE (after [plain e2 e4]) = Ok b.
Proof.
  apply (is_attacked_never_raises (after [plain e2 e4]) first_board (-3) 11 WHITE).
  apply shape_okb_sound. vm_compute. reflexivity.
Defined.

(** ** [legal_moves] tries each move on a copy *)

Lemma py_index_nat n i : (i < n)%nat → py_index n (Z.of_nat i) = Some i.
Proof.
  intros Hi. unfold py_index.
  rewrite (proj2 (Z.leb_le 0 _)), (proj2 (Z.ltb_lt _ _)) by lia. simpl.
  by rewrite Nat2Z.id.
Qed.

Lemma in_bounds_nat i j :
  (i < 8)%nat → (j < 8)%nat → in_bounds (Z.of_nat i) (Z.of_nat j) = true.
Proof. intros. apply in_bounds_true. lia. Qed.

(** An index of Python names the position that [py_index] gives, if
    any. *)
Lemma get_cell_norm h self r c :
  shape_ok h self →
  get_cell self r c h
  = match py_index 8 r, py_index 8 c with
    | Some i, Some j => get_cell self (Z.of_nat i) (Z.of_nat j) h
    | _, _ => Raise IndexError
    end.
Proof.
  intros (b & rows & d & Hb & Hg & Hd & Hlen & Hnd & Hall).
  rewrite (get_cell_eq _ _ _ _ _ _ Hb Hg).
  unfold py_getitem at 1. rewrite Hlen.
  destruct (py_index 8 r) as [i|] eqn:Ei; [|done].
  pose proof (py_index_lt _ _ _ Ei) as Hi.
  destruct (lookup_lt_is_Some_2 rows i) as [l Hl]; [lia|]. rewrite Hl.
  destruct (Forall_lookup_1 _ _ _ _ Hall Hl) as (cells & Hc & Hlc). rewrite Hc.
  unfold py_getitem at 1. rewrite Hlc.
  destruct (py_index 8 c) as [j|] eqn:Ej; [|done].
  pose proof (py_index_lt _ _ _ Ej) as Hj.
  rewrite (get_cell_eq _ _ _ _ _ _ Hb Hg).
  unfold py_getitem. by rewrite Hlen, (py_index_nat 8 i Hi), Hl, Hc, Hlc, (py_index_nat 8 j Hj).
Qed.

Lemma set_cell_norm h self r c v :
  shape_ok h self →
  set_cell self r c v h
  = match py_index 8 r, py_index 8 c with
    | Some i, Some j => set_cell self (Z.of_nat i) (Z.of_nat j) v h
    | _, _ => (Raise IndexError, h)
    end.
Proof.
  intros (b & rows & d & Hb & Hg & Hd & Hlen & Hnd & Hall).
  assert (∀ r c, set_cell self r c v h
    = match py_index 8 r with
      | Some i =>
        match rows !! i with
        | Some l =>
          match h !! l with
          | Some (ORow cells) =>
            match py_index (length cells) c with
            | Some j => (Ok tt, <[l := ORow (<[j := v]> cells)]> h)
            | None => (Raise IndexError, h)
            end
          | _ => (Raise TypeError, h)
          end
        | None => (Raise IndexError, h)
        end
      | None => (Raise IndexError, h)
      end) as Hset.
  { intros r' c'. unfold set_cell.
    rewrite (st_bind_eq _ _ _ _ _ (read_eq _ _ _ (as_board_eq _ _ _ Hb))).
    rewrite (st_bind_eq _ _ h rows h) by (apply read_eq; unfold as_grid; by rewrite Hg).
    unfold mbind, st_bind, read, lift, as_row, store, py_getitem, py_setitem.
    rewrite Hlen. destruct (py_index 8 r') as [i|]; [|done].
    destruct (rows !! i) as [l|]; [|done].
    destruct (h !! l) as [[cells| | |]|]; try done.
    by destruct (py_index (length cells) c'). }
  rewrite (Hset r c). destruct (py_index 8 r) as [i|] eqn:Ei; [|done].
  pose proof (py_index_lt _ _ _ Ei) as Hi.
  destruct (lookup_lt_is_Some_2 rows i) as [l Hl]; [lia|]. rewrite Hl.
  destruct (Forall_lookup_1 _ _ _ _ Hall Hl) as (cells & Hc & Hlc).
  rewrite Hc, Hlc.
  destruct (py_index 8 c) as [j|] eqn:Ej; [|done].
  pose proof (py_index_lt _ _ _ Ej) as Hj.
  rewrite (Hset (Z.of_nat i) (Z.of_nat j)), (py_index_nat 8 i Hi), Hl, Hc, Hlc.
  by rewrite (py_index_nat 8 j Hj).
Qed.

(** ** Writes on two boards that read alike *)

Lemma alike_sym b1 h1 b2 h2 : alike b1 h1 b2 h2 → alike b2 h2 b1 h1.
Proof. intros (? & ? & ? & ? & ? & ?). repeat split; try done; intros; symmetry; auto. Qed.

Lemma alike_trans b1 h1 b2 h2 b3 h3 :
  alike b1 h1 b2 h2 → alike b2 h2 b3 h3 → alike b1 h1 b3 h3.
Proof.
  intros (? & ? & Hc & Ht & Hk & He) (? & ? & Hc' & Ht' & Hk' & He').
  repeat split; try done.
  - intros r c Hb. by rewrite Hc, Hc'.
  - by rewrite Ht.
  - intros k. by rewrite Hk.
  - by rewrite He.
Qed.

Lemma shape_attrs h self :
  shape_ok h self →
  ∃ t ep d, get_turn self h = Ok t ∧ get_en_passant self h = Ok ep ∧
            ∀ k, get_castling self k h = Ok (dict_get d k).
Proof.
  intros (b & rows & d & Hb & Hg & Hd & _).
  exists (turn b), (en_passant b), d. split; [|split].
  - apply get_turn_Ok. eauto.
  - apply get_en_passant_Ok. eauto.
  - intros k. apply get_castling_Ok. eauto.
Qed.

Lemma row_write_keeps self h h' :
  row_write self h h' → shape_ok h self →
  get_turn self h' = get_turn self h ∧
  (∀ k, get_castling self k h' = get_castling self k h) ∧
  get_en_passant self h' = get_en_passant self h.
Proof.
  intros W Hs. destruct (shape_attrs h self Hs) as (t & ep & d & Ht & Hep & Hk).
  split; [|split].
  - rewrite Ht. exact (turn_is_row_closed self t h h' W Ht).
  - intros k. rewrite Hk. exact (flag_is_row_closed self k _ h h' W (Hk k)).
  - rewrite Hep. exact (ep_is_row_closed self ep h h' W Hep).
Qed.

Lemma same_cells_closed (W : loc → heap → heap → Prop) self h h' :
  (∀ r c v, closed (W self) (cell_is self r c v)) →
  W self h h' → shape_ok h self →
  ∀ r c, in_bounds r c = true → get_cell self r c h' = get_cell self r c h.
Proof.
  intros Hcl HW Hs r c Hb. destruct (get_cell_total h self r c Hs Hb) as [v Hv].
  rewrite Hv. exact (Hcl r c v h h' HW Hv).
Qed.

Lemma dict_write_keeps self h h' :
  dict_write self h h' → shape_ok h self →
  shape_ok h' self ∧
  (∀ r c, in_bounds r c = true → get_cell self r c h' = get_cell self r c h) ∧
  get_turn self h' = get_turn self h ∧
  get_en_passant self h' = get_en_passant self h.
Proof.
  intros W Hs. destruct (shape_attrs h self Hs) as (t & ep & d & Ht & Hep & Hk).
  split; [|split; [|split]].
  - exact (well_shaped_dict_closed self h h' W Hs).
  - by apply (same_cells_closed dict_write self h h' (cell_is_dict_closed self)).
  - rewrite Ht. exact (turn_is_dict_closed self t h h' W Ht).
  - rewrite Hep. exact (ep_is_dict_closed self ep h h' W Hep).
Qed.

Lemma attr_write_keeps self h h' :
  attr_write self h h' → shape_ok h self →
  shape_ok h' self ∧
  (∀ r c, in_bounds r c = true → get_cell self r c h' = get_cell self r c h) ∧
  (∀ k, get_castling self k h' = get_castling self k h).
Proof.
  intros W Hs. destruct (shape_attrs h self Hs) as (t & ep & d & Ht & Hep & Hk).
  split; [|split].
  - exact (well_shaped_attr_closed self h h' W Hs).
  - by apply (same_cells_closed attr_write self h h' (cell_is_attr_closed self)).
  - intros k. rewrite Hk. exact (flag_is_attr_closed self k _ h h' W (Hk k)).
Qed.

Lemma respects_ret {A} b1 b2 (a : A) : respects b1 b2 (mret a) (mret a).
Proof. by intros h1 h2 H. Qed.

Lemma respects_raise {A} b1 b2 e :
  respects b1 b2 (raise_st e : st A) (raise_st e).
Proof. by intros h1 h2 H. Qed.

Lemma respects_bind {A B} b1 b2 (m1 m2 : st A) (f1 f2 : A → st B) :
  respects b1 b2 m1 m2 → (∀ a, respects b1 b2 (f1 a) (f2 a)) →
  respects b1 b2 (m1 ≫= f1) (m2 ≫= f2).
Proof.
  intros Hm Hf h1 h2 H. destruct (Hm h1 h2 H) as [E HA].
  unfold mbind, st_bind.
  destruct (m1 h1) as [[a|e] h1'], (m2 h2) as [[a'|e'] h2'];
    simpl in *; try discriminate.
  - injection E as <-. by apply Hf.
  - by injection E as <-.
Qed.

Lemma respects_when b1 b2 c m1 m2 :
  respects b1 b2 m1 m2 → respects b1 b2 (when c m1) (when c m2).
Proof. intros H. destruct c; [done | apply respects_ret]. Qed.

Lemma respects_read {A} b1 b2 (m1 m2 : rd A) :
  (∀ h1 h2, alike b1 h1 b2 h2 → m1 h1 = m2 h2) →
  respects b1 b2 (read m1) (read m2).
Proof. intros Hm h1 h2 H. unfold read. simpl. split; [by apply Hm | done]. Qed.

Lemma get_cell_alike b1 h1 b2 h2 r c :
  alike b1 h1 b2 h2 → get_cell b1 r c h1 = get_cell b2 r c h2.
Proof.
  intros (Hs1 & Hs2 & Hc & _).
  rewrite (get_cell_norm h1 b1 r c Hs1), (get_cell_norm h2 b2 r c Hs2).
  destruct (py_index 8 r) eqn:Er; [|done].
  destruct (py_index 8 c) eqn:Ec; [|done].
  apply Hc, in_bounds_nat; by eapply py_index_lt.
Qed.

Lemma respects_get_cell b1 b2 r c :
  respects b1 b2 (read (get_cell b1 r c)) (read (get_cell b2 r c)).
Proof. apply respects_read. intros. by apply get_cell_alike. Qed.

Lemma respects_get_turn b1 b2 :
  respects b1 b2 (read (get_turn b1)) (read (get_turn b2)).
Proof. apply respects_read. by intros h1 h2 (_ & _ & _ & Ht & _). Qed.

Lemma respects_set_cell b1 b2 r c v :
  respects b1 b2 (set_cell b1 r c v) (set_cell b2 r c v).
Proof.
  intros h1 h2 HA. pose proof HA as (Hs1 & Hs2 & Hc & Ht & Hk & He).
  rewrite (set_cell_norm h1 b1 r c v Hs1), (set_cell_norm h2 b2 r c v Hs2).
  destruct (py_index 8 r) as [i|] eqn:Er; [|done].
  destruct (py_index 8 c) as [j|] eqn:Ec; [|done].
  assert (in_bounds (Z.of_nat i) (Z.of_nat j) = true) as Hb
    by (apply in_bounds_nat; by eapply py_index_lt).
  destruct (set_cell_spec h1 b1 _ _ v Hs1 Hb) as (h1' & E1 & Hs1' & Hv1 & Hr1).
  destruct (set_cell_spec h2 b2 _ _ v Hs2 Hb) as (h2' & E2 & Hs2' & Hv2 & Hr2).
  pose proof (set_cell_effect b1 (Z.of_nat i) (Z.of_nat j) v h1) as W1.
  pose proof (set_cell_effect b2 (Z.of_nat i) (Z.of_nat j) v h2) as W2.
  rewrite E1 in *. rewrite E2 in *. simpl in W1, W2. simpl.
  assert (get_turn b1 h1' = get_turn b1 h1 ∧
          (∀ k, get_castling b1 k h1' = get_castling b1 k h1) ∧
          get_en_passant b1 h1' = get_en_passant b1 h1) as (Ht1 & Hk1 & He1).
  { destruct W1 as [->|W1]; [done | by apply row_write_keeps]. }
  assert (get_turn b2 h2' = get_turn b2 h2 ∧
          (∀ k, get_castling b2 k h2' = get_castling b2 k h2) ∧
          get_en_passant b2 h2' = get_en_passant b2 h2) as (Ht2 & Hk2 & He2).
  { destruct W2 as [->|W2]; [done | by apply row_write_keeps]. }
  split; [done|]. repeat split; try done.
  - intros r' c' Hb'.
    destruct (decide ((r', c') = (Z.of_nat i, Z.of_nat j))) as [[= -> ->]|Hne].
    + by rewrite Hv1, Hv2.
    + rewrite Hr1, Hr2 by done. by apply Hc.
  - by rewrite Ht1, Ht2.
  - intros k. by rewrite Hk1, Hk2.
  - by rewrite He1, He2.
Qed.

Lemma respects_set_castling b1 b2 k :
  respects b1 b2 (set_castling b1 k false) (set_castling b2 k false).
Proof.
  intros h1 h2 HA. pose proof HA as (Hs1 & Hs2 & Hc & Ht & Hk & He).
  destruct (safe_set_castling b1 k h1 Hs1) as ([] & h1' & E1 & Hs1').
  destruct (safe_set_castling b2 k h2 Hs2) as ([] & h2' & E2 & Hs2').
  pose proof (set_castling_effect b1 k h1) as W1.
  pose proof (set_castling_effect b2 k h2) as W2.
  destruct (shape_attrs h1 b1 Hs1) as (t1 & ep1 & d1 & _ & _ & Hd1).
  assert (∀ k', get_castling b1 k' h1'
                = Ok (dict_get d1 k' && negb (true && bool_decide (k' = k)))) as Hf1.
  { intros k'. exact (when_set_castling b1 k' k _ true h1 h1' (Hd1 k') E1). }
  assert (∀ k', get_castling b2 k' h2'
                = Ok (dict_get d1 k' && negb (true && bool_decide (k' = k)))) as Hf2.
  { intros k'. refine (when_set_castling b2 k' k _ true h2 h2' _ E2).
    unfold flag_is. by rewrite <- Hk. }
  rewrite E1 in *. rewrite E2 in *. simpl in W1, W2. simpl.
  assert ((∀ r c, in_bounds r c = true → get_cell b1 r c h1' = get_cell b1 r c h1) ∧
          get_turn b1 h1' = get_turn b1 h1 ∧
          get_en_passant b1 h1' = get_en_passant b1 h1) as (Hc1 & Ht1 & He1).
  { destruct W1 as [->|W1]; [done|]. by apply dict_write_keeps. }
  assert ((∀ r c, in_bounds r c = true → get_cell b2 r c h2' = get_cell b2 r c h2) ∧
          get_turn b2 h2' = get_turn b2 h2 ∧
          get_en_passant b2 h2' = get_en_passant b2 h2) as (Hc2 & Ht2 & He2).
  { destruct W2 as [->|W2]; [done|]. by apply dict_write_keeps. }
  split; [done|]. repeat split; try done.
  - intros r c Hb. rewrite Hc1, Hc2 by done. by apply Hc.
  - by rewrite Ht1, Ht2.
  - intros k'. by rewrite Hf1, Hf2.
  - by rewrite He1, He2.
Qed.

Lemma respects_set_en_passant b1 b2 v :
  respects b1 b2 (set_en_passant b1 v) (set_en_passant b2 v).
Proof.
  intros h1 h2 HA. pose proof HA as (Hs1 & Hs2 & Hc & Ht & Hk & He).
  destruct (safe_set_en_passant b1 v h1 Hs1) as ([] & h1' & E1 & Hs1').
  destruct (safe_set_en_passant b2 v h2 Hs2) as ([] & h2' & E2 & Hs2').
  pose proof (set_en_passant_effect b1 v h1) as W1.
  pose proof (set_en_passant_effect b2 v h2) as W2.
  destruct (shape_attrs h1 b1 Hs1) as (t1 & ep1 & d1 & Ht1 & _ & _).
  pose proof (preserves_run _ _ _ _ _ (turn_is_set_en_passant b1 t1 v) Ht1 E1) as Ht1'.
  assert (turn_is b2 t1 h2) as Ht2 by (unfold turn_is; by rewrite <- Ht).
  pose proof (preserves_run _ _ _ _ _ (turn_is_set_en_passant b2 t1 v) Ht2 E2) as Ht2'.
  pose proof (set_en_passant_Ok _ _ _ _ E1) as He1.
  pose proof (set_en_passant_Ok _ _ _ _ E2) as He2.
  rewrite E1 in *. rewrite E2 in *. simpl in W1, W2. simpl.
  assert ((∀ r c, in_bounds r c = true → get_cell b1 r c h1' = get_cell b1 r c h1) ∧
          (∀ k, get_castling b1 k h1' = get_castling b1 k h1)) as (Hc1 & Hk1).
  { destruct W1 as [->|W1]; [done|]. by apply attr_write_keeps. }
  assert ((∀ r c, in_bounds r c = true → get_cell b2 r c h2' = get_cell b2 r c h2) ∧
          (∀ k, get_castling b2 k h2' = get_castling b2 k h2)) as (Hc2 & Hk2).
  { destruct W2 as [->|W2]; [done|]. by apply attr_write_keeps. }
  split; [done|]. repeat split; try done.
  - intros r c Hb. rewrite Hc1, Hc2 by done. by apply Hc.
  - unfold turn_is in Ht1', Ht2'. by rewrite Ht1', Ht2'.
  - intros k. by rewrite Hk1, Hk2.
  - unfold ep_is in He1, He2. by rewrite He1, He2.
Qed.

Lemma respects_set_turn b1 b2 t :
  respects b1 b2 (set_turn b1 t) (set_turn b2 t).
Proof.
  intros h1 h2 HA. pose proof HA as (Hs1 & Hs2 & Hc & Ht & Hk & He).
  destruct (safe_set_turn b1 t h1 Hs1) as ([] & h1' & E1 & Hs1').
  destruct (safe_set_turn b2 t h2 Hs2) as ([] & h2' & E2 & Hs2').
  pose proof (set_turn_effect b1 t h1) as W1.
  pose proof (set_turn_effect b2 t h2) as W2.
  destruct (shape_attrs h1 b1 Hs1) as (t1 & ep1 & d1 & _ & Hep1 & _).
  pose proof (preserves_run _ _ _ _ _ (set_turn_ep_is b1 ep1 t) Hep1 E1) as He1.
  assert (ep_is b2 ep1 h2) as Hep2 by (unfold ep_is; by rewrite <- He).
  pose proof (preserves_run _ _ _ _ _ (set_turn_ep_is b2 ep1 t) Hep2 E2) as He2.
  pose proof (set_turn_Ok _ _ _ _ E1) as Ht1.
  pose proof (set_turn_Ok _ _ _ _ E2) as Ht2.
  rewrite E1 in *. rewrite E2 in *. simpl in W1, W2. simpl.
  assert ((∀ r c, in_bounds r c = true → get_cell b1 r c h1' = get_cell b1 r c h1) ∧
          (∀ k, get_castling b1 k h1' = get_castling b1 k h1)) as (Hc1 & Hk1).
  { destruct W1 as [->|W1]; [done|]. by apply attr_write_keeps. }
  assert ((∀ r c, in_bounds r c = true → get_cell b2 r c h2' = get_cell b2 r c h2) ∧
          (∀ k, get_castling b2 k h2' = get_castling b2 k h2)) as (Hc2 & Hk2).
  { destruct W2 as [->|W2]; [done|]. by apply attr_write_keeps. }
  split; [done|]. repeat split; try done.
  - intros r c Hb. rewrite Hc1, Hc2 by done. by apply Hc.
  - unfold turn_is in Ht1, Ht2. by rewrite Ht1, Ht2.
  - intros k. by rewrite Hk1, Hk2.
  - unfold ep_is in He1, He2. by rewrite He1, He2.
Qed.

(** Goes through two runs of the same computation on two boards. *)
Ltac resp_step :=
  match goal with
  | |- respects _ _ (_ ≫= _) (_ ≫= _) => apply respects_bind; [| intros ?]
  | |- respects _ _ (when _ _) (when _ _) => apply respects_when
  | |- respects _ _ (mret _) (mret _) => apply respects_ret
  | |- respects _ _ (raise_st _) (raise_st _) => apply respects_raise
  | |- respects _ _ (read (get_cell _ _ _)) _ => apply respects_get_cell
  | |- respects _ _ (read (get_turn _)) _ => apply respects_get_turn
  | |- respects _ _ (set_cell _ _ _ _) _ => apply respects_set_cell
  | |- respects _ _ (set_castling _ _ false) _ => apply respects_set_castling
  | |- respects _ _ (set_en_passant _ _) _ => apply respects_set_en_passant
  | |- respects _ _ (set_turn _ _) _ => apply respects_set_turn
  | |- respects _ _ (if ?b then _ else _) _ => destruct b
  | |- respects _ _ (match ?x with _ => _ end) _ => destruct x
  end.

(** [make_move] does to two boards that read alike the same thing. *)
Lemma make_move_respects b1 b2 mv :
  respects b1 b2 (make_move b1 mv) (make_move b2 mv).
Proof.
  unfold make_move. destruct (fr mv) as [fr fc], (to mv) as [tr tc].
  cbv zeta. repeat resp_step.
Qed.

(** ** Reading two boards that read alike *)

Lemma agree_bind {A B} (m1 m2 : rd A) (f1 f2 : A → rd B) h1 h2 :
  m1 h1 = m2 h2 → (∀ a, f1 a h1 = f2 a h2) → (m1 ≫= f1) h1 = (m2 ≫= f2) h2.
Proof.
  intros Hm Hf. unfold mbind, rd_bind. rewrite Hm.
  destruct (m2 h2); [apply Hf | done].
Qed.

Lemma agree_any_rd {A} (f1 f2 : A → rd bool) l h1 h2 :
  (∀ x, f1 x h1 = f2 x h2) → any_rd f1 l h1 = any_rd f2 l h2.
Proof.
  intros Hf. induction l as [|x l IH]; simpl; [done|].
  apply agree_bind; [apply Hf|]. by intros [].
Qed.

Lemma agree_first_rd {A B} (f1 f2 : A → rd (option B)) l h1 h2 :
  (∀ x, x ∈ l → f1 x h1 = f2 x h2) → first_rd f1 l h1 = first_rd f2 l h2.
Proof.
  induction l as [|x l IH]; intros Hf; simpl; [done|].
  apply agree_bind; [apply Hf; by left|]. intros [y|]; [done|].
  apply IH. intros. apply Hf. by right.
Qed.

Lemma holds_alike b1 h1 b2 h2 rr cc v :
  alike b1 h1 b2 h2 → holds b1 rr cc v h1 = holds b2 rr cc v h2.
Proof.
  intros HA. unfold holds. destruct (in_bounds rr cc); [|done].
  apply agree_bind; [by apply get_cell_alike | done].
Qed.

Lemma attack_ray_alike n b1 h1 b2 h2 by_color k1 k2 rr cc dr dc :
  alike b1 h1 b2 h2 →
  attack_ray n b1 by_color k1 k2 rr cc dr dc h1
  = attack_ray n b2 by_color k1 k2 rr cc dr dc h2.
Proof.
  intros HA. revert rr cc. induction n as [|n IH]; intros rr cc; simpl.
  - by destruct (in_bounds rr cc).
  - destruct (in_bounds rr cc); [|done].
    apply agree_bind; [by apply get_cell_alike|]. intros v.
    destruct (bool_decide (v ≠ Empty)); [done | apply IH].
Qed.

Lemma is_attacked_alike b1 h1 b2 h2 r c by_color :
  alike b1 h1 b2 h2 →
  is_attacked b1 r c by_color h1 = is_attacked b2 r c by_color h2.
Proof.
  intros HA. unfold is_attacked, pawn_clause.
  apply agree_bind; [apply agree_any_rd; intros; by apply holds_alike|].
  intros []; [done|].
  apply agree_bind; [apply agree_any_rd; intros []; by apply holds_alike|].
  intros []; [done|].
  apply agree_bind; [apply agree_any_rd; intros []; by apply attack_ray_alike|].
  intros []; [done|].
  apply agree_bind; [apply agree_any_rd; intros []; by apply attack_ray_alike|].
  intros []; [done|].
  apply agree_bind; [apply agree_any_rd; intros []; by apply holds_alike|].
  by intros [].
Qed.

Lemma in_check_alike b1 h1 b2 h2 color :
  alike b1 h1 b2 h2 → in_check b1 color h1 = in_check b2 color h2.
Proof.
  intros HA. unfold in_check, king_pos. apply agree_bind.
  - apply agree_first_rd. intros r Hr. apply agree_first_rd. intros c Hc.
    apply agree_bind; [by apply get_cell_alike | done].
  - intros [[kr kc]|]; [by apply is_attacked_alike | done].
Qed.

Lemma shape_ok_grown h ext self : shape_ok h self → shape_ok (h ++ ext) self.
Proof.
  intros (b & rows & d & Hb & Hg & Hd & Hlen & Hnd & Hall).
  exists b, rows, d. repeat split; try done; try by apply lookup_app_l_Some.
  eapply list.Forall_impl; [exact Hall|]. intros l (cells & Hc & Hl).
  exists cells. split; [by apply lookup_app_l_Some | done].
Qed.

Lemma alike_grown h ext self : shape_ok h self → alike self (h ++ ext) self h.
Proof.
  intros Hs. split; [by apply shape_ok_grown|]. split; [done|].
  split; [|split; [|split]].
  - intros r c _. by apply get_cell_grown.
  - unfold get_turn, mbind, rd_bind. by rewrite as_board_grown.
  - intros k. by apply get_castling_grown.
  - unfold get_en_passant, mbind, rd_bind. by rewrite as_board_grown.
Qed.

(** One turn of the loop of [legal_moves], started in a store [hx]
    that has grown from [h]: the copy is made, the move is played on it
    and [in_check] is asked, with the result that [make_move] and
    [in_check] give on the board itself in [h]. *)
Lemma legal_turn self color mv h hx :
  shape_ok h self → h `prefix_of` hx →
  ∃ b h1 h2,
    clone self hx = (Ok b, h1) ∧ make_move b mv h1 = ((make_move self mv h).1, h2) ∧
    h `prefix_of` h2 ∧
    ((make_move self mv h).1 = Ok tt →
     in_check b color h2 = in_check self color (make_move self mv h).2).
Proof.
  intros Hs [ext ->].
  pose proof (shape_ok_grown h ext self Hs) as Hsx.
  destruct (clone_copies (h ++ ext) self Hsx)
    as (b & h1 & Hclone & Hpre1 & _ & Hsb & Hc & Ht & Hk & He).
  assert (alike b h1 self h) as HA.
  { apply (alike_trans _ _ self (h ++ ext)); [|by apply alike_grown].
    split; [done|]. split; [done|]. repeat split; try done; intros r c _; apply Hc. }
  destruct (make_move_respects b self mv h1 h HA) as [E HA'].
  exists b, h1, (make_move b mv h1).2. split; [done|]. split; [|split].
  - rewrite <- E. by destruct (make_move b mv h1).
  - destruct (clone_confined (length (h ++ ext)) (h ++ ext) self (h ++ ext)
                (apart_start _)) as [H1 Hb].
    rewrite Hclone in H1, Hb. simpl in H1, Hb. specialize (Hb b eq_refl).
    pose proof (make_move_apart _ _ b mv Hb h1 H1) as H2.
    apply apart_prefix in H2. etrans; [|exact H2]. by apply prefix_app_r.
  - intros _. by apply in_check_alike.
Qed.

Lemma verdict_eq self color mv h :
  verdict self color mv h
  = match (make_move self mv h).1 with
    | Ok _ => in_check self color (make_move self mv h).2
    | Raise e => Raise e
    end.
Proof. unfold verdict. by destruct (make_move self mv h) as [[[]|e] h']. Qed.

Lemma legal_loop_selects self color h pseudo out hx ms :
  shape_ok h self → h `prefix_of` hx →
  (legal_loop self color pseudo out hx).1 = Ok ms ↔
  Forall (λ mv, ∃ chk, verdict self color mv h = Ok chk) pseudo ∧
  ms = out ++ filter (λ mv, verdict self color mv h = Ok false) pseudo.
Proof.
  intros Hs. revert out hx. induction pseudo as [|mv pseudo IH]; intros out hx Hpre.
  - simpl. rewrite app_nil_r. split.
    + intros [= <-]. by split.
    + by intros [_ ->].
  - destruct (legal_turn self color mv h hx Hs Hpre)
      as (b & h1 & h2 & Hclone & Hmove & Hpre2 & Hchk).
    simpl. rewrite (st_bind_eq _ _ _ _ _ Hclone).
    rewrite list.Forall_cons, filter_cons, (verdict_eq self color mv h).
    destruct (make_move self mv h).1 as [[]|e] eqn:Em.
    2:{ unfold mbind, st_bind. rewrite Hmove. simpl. split; [done|].
        by intros [[[chk [=]] _] _]. }
    rewrite (st_bind_eq _ _ _ _ _ Hmove). specialize (Hchk eq_refl).
    unfold mbind at 1, st_bind at 1, read at 1. rewrite Hchk.
    destruct (in_check self color (make_move self mv h).2) as [chk|e] eqn:Ec.
    2:{ simpl. split; [done|]. by intros [[[chk [=]] _] _]. }
    rewrite (IH _ h2 Hpre2). destruct chk.
    + rewrite decide_False by done. split.
      * intros [Hall ->]. split; [|done]. split; [by exists true | done].
      * by intros [[_ Hall] ->].
    + rewrite decide_True by done. rewrite <- app_assoc. simpl. split.
      * intros [Hall ->]. split; [|done]. split; [by exists false | done].
      * by intros [[_ Hall] ->].
Qed.

(** X18. On a well-formed board, [legal_moves] returns exactly when
    each move of [generate_pseudo] can be played on the board and
    [in_check] then has an answer; and what it returns is then the list
    of those moves, in the order of [generate_pseudo], after which
    [in_check] answers no for [color]. The verdict on a move is the one
    that [make_move] and [in_check] give on the board itself: it is
    reached on a copy, but neither the copy nor the copies made for the
    moves tried before change it. *)
Theorem legal_moves_selects_the_safe_moves h self color pseudo ms :
  shape_ok h self → generate_pseudo self color h = Ok pseudo →
  (legal_moves self color h).1 = Ok ms ↔
  Forall (λ mv, ∃ chk, verdict self color mv h = Ok chk) pseudo ∧
  ms = filter (λ mv, verdict self color mv h = Ok false) pseudo.
Proof.
  intros Hs Hgen. unfold legal_moves.
  rewrite (st_bind_eq _ _ _ _ _ (read_eq _ _ _ Hgen)).
  by apply (legal_loop_selects self color h pseudo [] h ms Hs).
Qed.

Lemma legal_moves_selects_the_safe_moves_witness :
  let h := after [plain f2 f3; plain e7 e5; plain g2 g4] in
  let pseudo := value_or [] (generate_pseudo first_board BLACK h) in
  let ms := value_or [] (legal_moves first_board BLACK h).1 in
  (legal_moves first_board BLACK h).1 = Ok ms ↔
  Forall (λ mv, ∃ chk, verdict first_board BLACK mv h = Ok chk) pseudo ∧
  ms = filter (λ mv, verdict first_board BLACK mv h = Ok false) pseudo.
Proof.
  apply (legal_moves_selects_the_safe_moves
           (after [plain f2 f3; plain e7 e5; plain g2 g4]) first_board BLACK).
  - apply shape_okb_sound. vm_compute. reflexivity.
  - vm_compute. reflexivity.
Defined.

(** ** The cells after [make_move] *)

Lemma when_set_cell_inv h self (b : bool) r c v h' :
  shape_ok h self → (b = true → in_bounds r c = true) →
  when b (set_cell self r c v) h = (Ok tt, h') →
  shape_ok h' self ∧
  (b = true → get_cell self r c h' = Ok v) ∧
  ∀ r' c', in_bounds r' c' = true → (b = true → (r', c') ≠ (r, c)) →
           get_cell self r' c' h' = get_cell self r' c' h.
Proof.
  intros Hs Hb H. destruct b; simpl in H.
  - apply set_cell_inv in H as (Hs' & Hv & Hoth); [|auto..].
    split; [done|]. split; [done|]. intros r' c' Hb' Hne. apply Hoth; auto.
  - injection H as <-. by repeat split.
Qed.

Lemma rook_hop_inv h self row a b h' :
  shape_ok h self → in_bounds row a = true → in_bounds row b = true →
  rook_hop self row a b h = (Ok tt, h') →
  shape_ok h' self ∧
  ∀ r' c', in_bounds r' c' = true → (r', c') ∉ [(row, a); (row, b)] →
           get_cell self r' c' h' = get_cell self r' c' h.
Proof.
  intros Hs Ha Hb H. unfold rook_hop in H.
  apply st_bind_Ok in H as (v & ? & [_ ->]%read_Ok & H).
  apply st_bind_Ok in H as ([] & h1 & H1 & H).
  apply set_cell_inv in H1 as (Hs1 & _ & Hoth1); [|done..].
  apply set_cell_inv in H as (Hs2 & _ & Hoth2); [|done..].
  split; [done|]. intros r' c' Hb' Hne.
  apply not_elem_of_cons in Hne as [Hna Hne].
  apply not_elem_of_cons in Hne as [Hnb _].
  by rewrite Hoth2, Hoth1.
Qed.

Lemma rook_hop_squares_not_target b : b ∉ rook_hop_squares b.
Proof.
  unfold rook_hop_squares.
  destruct (decide (b = (7, 6))) as [->|E]; [by apply (bool_decide_unpack _)|].
  rewrite (bool_decide_eq_false_2 _ E). clear E.
  destruct (decide (b = (7, 2))) as [->|E]; [by apply (bool_decide_unpack _)|].
  rewrite (bool_decide_eq_false_2 _ E). clear E.
  destruct (decide (b = (0, 6))) as [->|E]; [by apply (bool_decide_unpack _)|].
  rewrite (bool_decide_eq_false_2 _ E). clear E.
  destruct (decide (b = (0, 2))) as [->|E]; [by apply (bool_decide_unpack _)|].
  rewrite (bool_decide_eq_false_2 _ E). apply not_elem_of_nil.
Qed.

(** The cells of the board after [make_move]: a cell that the move
    does not touch reads as before, and the target holds the piece
    that moved, unless a pawn was promoted there. *)
Lemma make_move_cells h self mv color p h' :
  shape_ok h self →
  in_bounds (fr mv).1 (fr mv).2 = true →
  in_bounds (to mv).1 (to mv).2 = true →
  (is_en_passant mv = true →
   in_bounds (taken_square color (to mv)).1 (taken_square color (to mv)).2 = true) →
  get_cell self (fr mv).1 (fr mv).2 h = Ok (Piece color p) →
  make_move self mv h = (Ok tt, h') →
  shape_ok h' self ∧
  (∀ r c, in_bounds r c = true → (r, c) ∉ touched color mv →
          get_cell self r c h' = get_cell self r c h) ∧
  (p ≠ Pawn → get_cell self (to mv).1 (to mv).2 h' = Ok (Piece color p)).
Proof.
  intros Hs Hbf Hbt Hbc Hsrc H. unfold make_move in H. unfold touched, taken_square in *.
  destruct (fr mv) as [r1 c1] eqn:Efr, (to mv) as [r2 c2] eqn:Eto. simpl in *.
  apply st_bind_Ok in H as (piece & ? & [Hp ->]%read_Ok & H).
  rewrite Hsrc in Hp. injection Hp as <-.
  apply st_bind_Ok in H as (dest & ? & [_ ->]%read_Ok & H).
  pose proof (kept_refl self h Hs) as K.
  apply st_bind_Ok in H as ([] & h1 & H1 & H). carry (kept self h) H1.
  apply st_bind_Ok in H as ([] & h2 & H2 & H). carry (kept self h) H2.
  apply st_bind_Ok in H as ([] & h3 & H3 & H). carry (kept self h) H3.
  apply st_bind_Ok in H as ([] & h4 & H4 & H). carry (kept self h) H4.
  apply st_bind_Ok in H as ([] & hc & Hc & H).
  apply when_set_cell_inv in Hc as (Hsc & _ & Hothc); [|apply H4|done].
  apply st_bind_Ok in H as ([] & h5 & H5 & H).
  apply set_cell_inv in H5 as (Hs5 & _ & Hoth5); [|done..].
  apply st_bind_Ok in H as ([] & h6 & H6 & H).
  apply set_cell_inv in H6 as (Hs6 & Hto6 & Hoth6); [|done..].
  apply st_bind_Ok in H as ([] & h7 & H7 & H).
  apply when_set_cell_inv in H7 as (Hs7 & _ & Hoth7); [|done..].
  apply st_bind_Ok in H as ([] & h8 & H8 & H).
  assert (shape_ok h8 self ∧
          ∀ r c, in_bounds r c = true →
                 (r, c) ∉ (if is_castle mv then rook_hop_squares (r2, c2) else []) →
                 get_cell self r c h8 = get_cell self r c h7) as (Hs8 & Hoth8).
  { destruct (is_castle mv); simpl in H8; [|by injection H8 as <-].
    unfold rook_hop_squares.
    destruct (decide ((r2, c2) = (7, 6))) as [E|E];
      [rewrite (bool_decide_eq_true_2 _ E) in H8 |- *;
       exact (rook_hop_inv h7 self 7 7 5 h8 Hs7 eq_refl eq_refl H8)
      |rewrite (bool_decide_eq_false_2 _ E) in H8 |- *]; clear E.
    destruct (decide ((r2, c2) = (7, 2))) as [E|E];
      [rewrite (bool_decide_eq_true_2 _ E) in H8 |- *;
       exact (rook_hop_inv h7 self 7 0 3 h8 Hs7 eq_refl eq_refl H8)
      |rewrite (bool_decide_eq_false_2 _ E) in H8 |- *]; clear E.
    destruct (decide ((r2, c2) = (0, 6))) as [E|E];
      [rewrite (bool_decide_eq_true_2 _ E) in H8 |- *;
       exact (rook_hop_inv h7 self 0 7 5 h8 Hs7 eq_refl eq_refl H8)
      |rewrite (bool_decide_eq_false_2 _ E) in H8 |- *]; clear E.
    destruct (decide ((r2, c2) = (0, 2))) as [E|E];
      [rewrite (bool_decide_eq_true_2 _ E) in H8 |- *;
       exact (rook_hop_inv h7 self 0 0 3 h8 Hs7 eq_refl eq_refl H8)
      |rewrite (bool_decide_eq_false_2 _ E) in H8 |- *]; clear E.
    by injection H8 as <-. }
  clear H8.
  pose proof (kept_refl self h8 Hs8) as K8.
  apply st_bind_Ok in H as ([] & h9 & H9 & H). carry (kept self h8) H9.
  apply st_bind_Ok in H as (t & ? & [_ ->]%read_Ok & H).
  carry (kept self h8) H.
  split; [apply H|]. split.
  - intros r c Hb Hn.
    apply not_elem_of_cons in Hn as [Hnf Hn].
    apply not_elem_of_cons in Hn as [Hnt Hn].
    apply not_elem_of_app in Hn as [Hne Hnc].
    assert (is_en_passant mv = true →
            (r, c) ≠ (r2 + (if decide (color = WHITE) then 1 else -1), c2)) as Hcap.
    { intros E. rewrite E in Hne. by apply not_elem_of_cons in Hne as [? _]. }
    rewrite (kept_get_cell self h8 h' r c Hs8 H Hb).
    rewrite (Hoth8 r c Hb Hnc), (Hoth7 r c Hb (λ _, Hnt)).
    rewrite (Hoth6 r c Hb Hnt), (Hoth5 r c Hb Hnf), (Hothc r c Hb Hcap).
    exact (kept_get_cell self h h4 r c Hs H4 Hb).
  - intros Hnp.
    assert (bool_decide (p = Pawn) && last_row r2 = true → (r2, c2) ≠ (r2, c2))
      as Hnopromo.
    { intros E. apply andb_prop in E as [E _].
      by apply bool_decide_eq_true in E. }
    assert ((r2, c2) ∉ (if is_castle mv then rook_hop_squares (r2, c2) else []))
      as Hnohop.
    { destruct (is_castle mv); [|apply not_elem_of_nil].
      apply rook_hop_squares_not_target. }
    rewrite (kept_get_cell self h8 h' r2 c2 Hs8 H Hbt).
    by rewrite (Hoth8 r2 c2 Hbt Hnohop), (Hoth7 r2 c2 Hbt Hnopromo).
Qed.

(** ** When [legal_moves] returns *)

Lemma in_check_returns h self color :
  shape_ok h self → has_king self color h → ∃ b, in_check self color h = Ok b.
Proof.
  intros Hs (r & c & [Hr Hc]%in_bounds_true & Hk).
  destruct (king_pos_finds h self Hs color r c) as [[kr kc] Hpos];
    [by apply elem_of_range8..|done|].
  destruct (returns_is_attacked h self Hs kr kc (other color)) as [b Hb].
  exists b. unfold in_check. by rewrite (rd_bind_eq _ _ _ _ Hpos).
Qed.

(** The king of a colour is still on the board after a move that
    moves it, or that touches no square where it stands. *)
Lemma make_move_keeps_king h self mv color p kcol h' :
  shape_ok h self →
  in_bounds (fr mv).1 (fr mv).2 = true →
  in_bounds (to mv).1 (to mv).2 = true →
  (is_en_passant mv = true →
   in_bounds (taken_square color (to mv)).1 (taken_square color (to mv)).2 = true) →
  get_cell self (fr mv).1 (fr mv).2 h = Ok (Piece color p) →
  make_move self mv h = (Ok tt, h') →
  (∃ r c, in_bounds r c = true ∧ get_cell self r c h = Ok (Piece kcol King) ∧
          ((r, c) = fr mv ∨ (r, c) ∉ touched color mv)) →
  shape_ok h' self ∧ has_king self kcol h'.
Proof.
  intros Hs Hbf Hbt Hbc Hsrc H (r & c & Hb & Hk & Hwhere).
  destruct (make_move_cells h self mv color p h' Hs Hbf Hbt Hbc Hsrc H)
    as (Hs' & Hframe & Hland).
  split; [done|]. destruct Hwhere as [E|Hn].
  - rewrite <- E in Hsrc. simpl in Hsrc. rewrite Hk in Hsrc.
    injection Hsrc as -> <-. exists (to mv).1, (to mv).2. split; [done|].
    by apply Hland.
  - exists r, c. split; [done|]. by rewrite Hframe.
Qed.

(** In a position with its king, sound castling rights and a sound
    en-passant target, every move of [generate_pseudo] can be played,
    and [in_check] has an answer afterwards. *)
Lemma pseudo_move_has_verdict h self color a p mv :
  shape_ok h self → has_king self color h →
  rights_sound self color h → target_sound self color h →
  in_bounds a.1 a.2 = true → get_cell self a.1 a.2 h = Ok (Piece color p) →
  gen_ok self color h a p mv →
  ∃ chk, verdict self color mv h = Ok chk.
Proof.
  intros Hs Hking Hrights Htarget Hba Hcell Hm.
  assert (∃ h', make_move self mv h = (Ok tt, h') ∧
                shape_ok h' self ∧ has_king self color h') as (h' & E & Hs' & Hk').
  { unfold gen_ok in Hm. destruct (is_castle mv) eqn:Hc.
    - destruct Hm as (-> & k & Hside & -> & Hflag & _).
      pose proof (Hrights k Hside Hflag) as Hhome.
      assert (in_bounds (fr (castling_move k)).1 (fr (castling_move k)).2 = true)
        as Hbf by (by destruct k).
      assert (in_bounds (to (castling_move k)).1 (to (castling_move k)).2 = true)
        as Hbt by (by destruct k).
      destruct (make_move_returns h self (castling_move k) color King Hs Hbf Hbt Hhome)
        as (h' & E & Hs'); [intros [=]|].
      exists h'. split; [done|].
      eapply (make_move_keeps_king h self (castling_move k) color King color);
        try done.
      exists (corner k).1, 4. split; [done|]. split; [done|]. by left.
    - destruct Hm as [<- Hm]. destruct (is_en_passant mv) eqn:He.
      + destruct Hm as (-> & _ & Hep & Hrow & _).
        destruct (Htarget _ Hep) as (Hbt & Hempty & Hnoking).
        assert (in_bounds (taken_square color (to mv)).1
                          (taken_square color (to mv)).2 = true) as Hbc.
        { unfold taken_square. simpl. rewrite Hrow.
          apply in_bounds_true in Hba, Hbt. apply in_bounds_true.
          unfold forward. destruct (decide (color = WHITE)); lia. }
        destruct (make_move_returns h self mv color Pawn Hs Hba Hbt Hcell)
          as (h' & E & Hs'); [done|].
        exists h'. split; [done|].
        eapply (make_move_keeps_king h self mv color Pawn color); try done.
        destruct Hking as (r & c & Hb & Hk). exists r, c.
        split; [done|]. split; [done|]. right.
        unfold touched. rewrite He, Hc. simpl.
        repeat (apply not_elem_of_cons; split); [| | |apply not_elem_of_nil];
          intros E'.
        * rewrite <- E' in Hcell. simpl in Hcell. congruence.
        * rewrite <- E' in Hempty. simpl in Hempty. congruence.
        * rewrite <- E' in Hnoking. simpl in Hnoking. congruence.
      + destruct Hm as ((Hbt & col & Hcol & Hne) & _).
        destruct (make_move_returns h self mv color p Hs Hba Hbt Hcell)
          as (h' & E & Hs'); [by rewrite He|].
        exists h'. split; [done|].
        eapply (make_move_keeps_king h self mv color p color); try done;
          [by rewrite He|].
        destruct Hking as (r & c & Hb & Hk). exists r, c.
        split; [done|]. split; [done|].
        destruct (decide ((r, c) = fr mv)) as [|Hnf]; [by left|]. right.
        unfold touched. rewrite He, Hc. simpl.
        repeat (apply not_elem_of_cons; split); [done| |apply not_elem_of_nil].
        intros E'. rewrite <- E' in Hcol. simpl in Hcol.
        rewrite (color_at_cell _ _ _ _ _ Hk) in Hcol. by injection Hcol as <-. }
  destruct (in_check_returns h' self color Hs' Hk') as [chk Hchk].
  exists chk. unfold verdict. by rewrite E.
Qed.

(** X19. [legal_moves] returns a list of moves for [color] on every
    well-formed board on which a king of [color] stands, the castling
    rights of [color] that are set have that king on its home square,
    and the en-passant target, if any, is an empty square of the board
    with no king of [color] on the square of the pawn to take: no move
    that it tries raises, and none removes the king that [in_check]
    looks for. *)
Theorem legal_moves_returns h self color :
  shape_ok h self → has_king self color h →
  rights_sound self color h → target_sound self color h →
  ∃ ms, (legal_moves self color h).1 = Ok ms.
Proof.
  intros Hs Hking Hrights Htarget.
  destruct (generate_pseudo_returns h self Hs color) as [pseudo Hgen].
  exists (filter (λ mv, verdict self color mv h = Ok false) pseudo).
  unfold legal_moves. rewrite (st_bind_eq _ _ _ _ _ (read_eq _ _ _ Hgen)).
  apply (legal_loop_selects self color h pseudo [] h _ Hs); [done|].
  split; [|done]. apply list.Forall_forall. intros mv Hmv.
  destruct (generate_pseudo_ok _ _ _ _ _ Hgen Hmv) as (a & p & Hba & Hcell & Hm).
  by eapply pseudo_move_has_verdict.
Qed.

Lemma legal_moves_returns_witness :
  ∃ ms, (legal_moves first_board WHITE (after [plain e2 e4; plain e7 e5])).1 = Ok ms.
Proof.
  apply (legal_moves_returns (after [plain e2 e4; plain e7 e5]) first_board WHITE).
  - apply shape_okb_sound. vm_compute. reflexivity.
  - exists 7, 4. split; vm_compute; reflexivity.
  - intros k Hside _. destruct k; try discriminate; vm_compute; reflexivity.
  - intros b Hb. vm_compute in Hb. injection Hb as <-.
    split; [reflexivity|]. split; [vm_compute; reflexivity|].
    vm_compute. discriminate.
Defined.
